(** * The ziplist of redis 3.0.5 (ziplist.c): a shallow embedding

    The ziplist is one heap blob,
    [<zlbytes:u32><zltail:u32><zllen:u16><entry>*<zlend:u8 = 255>].
    The blob is modelled as a list of bytes (integers in 0..255), a C
    pointer into it as the offset from the blob's first byte.  Integers of
    a fixed width are integers of [Z] with the wrap-around written where
    the C code narrows them.  Loops carry fuel; running out of fuel, which
    on a blob of finite size only happens after a read outside the
    allocation, gives [None]. *)

From Stdlib Require Import ZArith List Lia Bool.
Import ListNotations.
Open Scope Z_scope.

(** ** Memory *)

Definition blob := list Z.

(** [p[0]]: the byte at offset [i]; outside the allocation the C read is
    undefined, here it gives 0. *)
Definition rd (zl : blob) (i : Z) : Z := nth (Z.to_nat i) zl 0.

(** The [n] bytes from offset [i] on. *)
Definition sub (zl : blob) (i n : Z) : list Z :=
  firstn (Z.to_nat n) (skipn (Z.to_nat i) zl).

(** [memcpy(zl+p, bs, |bs|)]; the allocation keeps its size. *)
Definition memcpy (zl : blob) (p : Z) (bs : list Z) : blob :=
  firstn (length zl)
    (firstn (Z.to_nat p) zl ++ bs ++ skipn (Z.to_nat p + length bs) zl).

(** [memmove(zl+dst, zl+src, n)]: the source bytes are read first. *)
Definition memmove (zl : blob) (dst src n : Z) : blob :=
  memcpy zl dst (sub zl src n).

(** [zrealloc(zl, n)]: the first [n] bytes are kept; new bytes are
    unspecified in C, zero here. *)
Definition zrealloc (zl : blob) (n : Z) : blob :=
  firstn (Z.to_nat n) zl ++ repeat 0 (Z.to_nat n - length zl).

(** Little-endian byte strings. *)
Fixpoint le_bytes (n : nat) (v : Z) : list Z :=
  match n with
  | O => []
  | S k => v mod 256 :: le_bytes k (v / 256)
  end.

Fixpoint le_val (bs : list Z) : Z :=
  match bs with
  | [] => 0
  | b :: r => b + 256 * le_val r
  end.

(** Narrowing to an unsigned and to a signed integer of [bits] bits. *)
Definition uint (bits : Z) (v : Z) : Z := v mod 2 ^ bits.

Definition sint (bits : Z) (v : Z) : Z :=
  let m := v mod 2 ^ bits in
  if m <? 2 ^ (bits - 1) then m else m - 2 ^ bits.

Definition u32 (v : Z) : Z := uint 32 v.

(** ** Constants *)

Definition ZIP_END : Z := 255.
Definition ZIP_BIGLEN : Z := 254.
Definition ZIP_STR_MASK : Z := 0xc0.
Definition ZIP_INT_MASK : Z := 0x30.
Definition ZIP_STR_06B : Z := Z.shiftl 0 6.
Definition ZIP_STR_14B : Z := Z.shiftl 1 6.
Definition ZIP_STR_32B : Z := Z.shiftl 2 6.
Definition ZIP_INT_16B : Z := Z.lor 0xc0 (Z.shiftl 0 4).
Definition ZIP_INT_32B : Z := Z.lor 0xc0 (Z.shiftl 1 4).
Definition ZIP_INT_64B : Z := Z.lor 0xc0 (Z.shiftl 2 4).
Definition ZIP_INT_24B : Z := Z.lor 0xc0 (Z.shiftl 3 4).
Definition ZIP_INT_8B : Z := 0xfe.
Definition ZIP_INT_IMM_MASK : Z := 0x0f.
Definition ZIP_INT_IMM_MIN : Z := 0xf1.
Definition ZIP_INT_IMM_MAX : Z := 0xfd.
Definition INT24_MAX : Z := 0x7fffff.
Definition INT24_MIN : Z := - INT24_MAX - 1.
Definition INT8_MIN : Z := -128.
Definition INT8_MAX : Z := 127.
Definition INT16_MIN : Z := -32768.
Definition INT16_MAX : Z := 32767.
Definition INT32_MIN : Z := -2147483648.
Definition INT32_MAX : Z := 2147483647.
Definition INT64_MIN : Z := -9223372036854775808.
Definition INT64_MAX : Z := 9223372036854775807.
Definition UINT16_MAX : Z := 65535.
Definition ZIPLIST_HEADER_SIZE : Z := 4 * 2 + 2.
Definition ZIPLIST_HEAD : Z := 0.
Definition ZIPLIST_TAIL : Z := 1.

Definition ZIP_IS_STR (enc : Z) : bool :=
  Z.land enc ZIP_STR_MASK <? ZIP_STR_MASK.

(** ** Header fields; the layout is little-endian on every host *)

Definition ZIPLIST_BYTES (zl : blob) : Z := le_val (sub zl 0 4).
Definition ZIPLIST_TAIL_OFFSET (zl : blob) : Z := le_val (sub zl 4 4).
Definition ZIPLIST_LENGTH (zl : blob) : Z := le_val (sub zl 8 2).

Definition set_ZIPLIST_BYTES (zl : blob) (v : Z) : blob :=
  memcpy zl 0 (le_bytes 4 v).
Definition set_ZIPLIST_TAIL_OFFSET (zl : blob) (v : Z) : blob :=
  memcpy zl 4 (le_bytes 4 v).
Definition set_ZIPLIST_LENGTH (zl : blob) (v : Z) : blob :=
  memcpy zl 8 (le_bytes 2 v).

Definition ZIPLIST_ENTRY_HEAD (zl : blob) : Z := ZIPLIST_HEADER_SIZE.
Definition ZIPLIST_ENTRY_TAIL (zl : blob) : Z := ZIPLIST_TAIL_OFFSET zl.
Definition ZIPLIST_ENTRY_END (zl : blob) : Z := ZIPLIST_BYTES zl - 1.

Definition ZIPLIST_INCR_LENGTH (zl : blob) (incr : Z) : blob :=
  if ZIPLIST_LENGTH zl <? UINT16_MAX
  then set_ZIPLIST_LENGTH zl (ZIPLIST_LENGTH zl + incr)
  else zl.

(** ** Entries *)

Record zlentry : Type := mk_zlentry {
  prevrawlensize : Z;
  prevrawlen : Z;
  lensize : Z;
  len : Z;
  headersize : Z;
  encoding : Z;
  p : Z
}.

Definition ZIP_ENTRY_ENCODING (zl : blob) (ptr : Z) : Z :=
  let enc := rd zl ptr in
  if enc <? ZIP_STR_MASK then Z.land enc ZIP_STR_MASK else enc.

Definition zipIntSize (enc : Z) : Z :=
  if enc =? ZIP_INT_8B then 1
  else if enc =? ZIP_INT_16B then 2
  else if enc =? ZIP_INT_24B then 3
  else if enc =? ZIP_INT_32B then 4
  else if enc =? ZIP_INT_64B then 8
  else 0.

(** The buffer [buf] that [zipEncodeLength] builds, of its length [len]. *)
Definition zipEncodeLength_buf (enc rawlen : Z) : list Z :=
  if ZIP_IS_STR enc then
    if rawlen <=? 0x3f then [Z.lor ZIP_STR_06B rawlen]
    else if rawlen <=? 0x3fff then
      [Z.lor ZIP_STR_14B (Z.land (Z.shiftr rawlen 8) 0x3f);
       Z.land rawlen 0xff]
    else
      [ZIP_STR_32B;
       Z.land (Z.shiftr rawlen 24) 0xff;
       Z.land (Z.shiftr rawlen 16) 0xff;
       Z.land (Z.shiftr rawlen 8) 0xff;
       Z.land rawlen 0xff]
  else [enc].

(** [zipEncodeLength(p, encoding, rawlen)]; [ptr = None] is the call with
    [p == NULL], which only returns the size. *)
Definition zipEncodeLength (zl : blob) (ptr : option Z) (enc rawlen : Z)
  : blob * Z :=
  let buf := zipEncodeLength_buf enc rawlen in
  match ptr with
  | None => (zl, Z.of_nat (length buf))
  | Some q => (memcpy zl q buf, Z.of_nat (length buf))
  end.

(** [ZIP_DECODE_LENGTH(ptr, encoding, lensize, len)]. *)
Definition ZIP_DECODE_LENGTH (zl : blob) (ptr : Z) : Z * Z * Z :=
  let enc := ZIP_ENTRY_ENCODING zl ptr in
  if enc <? ZIP_STR_MASK then
    if enc =? ZIP_STR_06B then (enc, 1, Z.land (rd zl ptr) 0x3f)
    else if enc =? ZIP_STR_14B then
      (enc, 2, Z.lor (Z.shiftl (Z.land (rd zl ptr) 0x3f) 8) (rd zl (ptr + 1)))
    else if enc =? ZIP_STR_32B then
      (enc, 5,
       Z.lor (Z.lor (Z.lor (Z.shiftl (rd zl (ptr + 1)) 24)
                           (Z.shiftl (rd zl (ptr + 2)) 16))
                    (Z.shiftl (rd zl (ptr + 3)) 8))
             (rd zl (ptr + 4)))
    else (enc, 0, 0)
  else (enc, 1, zipIntSize enc).

(** [zipPrevEncodeLength(NULL, len)]. *)
Definition zipPrevEncodeLength_size (l : Z) : Z :=
  if l <? ZIP_BIGLEN then 1 else 4 + 1.

Definition zipPrevEncodeLength_buf (l : Z) : list Z :=
  if l <? ZIP_BIGLEN then [l] else ZIP_BIGLEN :: le_bytes 4 l.

Definition zipPrevEncodeLength (zl : blob) (ptr : option Z) (l : Z)
  : blob * Z :=
  match ptr with
  | None => (zl, zipPrevEncodeLength_size l)
  | Some q => (memcpy zl q (zipPrevEncodeLength_buf l),
               zipPrevEncodeLength_size l)
  end.

Definition zipPrevEncodeLengthForceLarge (zl : blob) (q : Z) (l : Z) : blob :=
  memcpy zl q (ZIP_BIGLEN :: le_bytes 4 l).

Definition ZIP_DECODE_PREVLENSIZE (zl : blob) (ptr : Z) : Z :=
  if rd zl ptr <? ZIP_BIGLEN then 1 else 5.

Definition ZIP_DECODE_PREVLEN (zl : blob) (ptr : Z) : Z * Z :=
  let prevlensize := ZIP_DECODE_PREVLENSIZE zl ptr in
  if prevlensize =? 1 then (prevlensize, rd zl ptr)
  else (prevlensize, le_val (sub zl (ptr + 1) 4)).

Definition zipPrevLenByteDiff (zl : blob) (q : Z) (l : Z) : Z :=
  zipPrevEncodeLength_size l - ZIP_DECODE_PREVLENSIZE zl q.

Definition zipRawEntryLength (zl : blob) (q : Z) : Z :=
  let prevlensize := ZIP_DECODE_PREVLENSIZE zl q in
  let '(_, lsz, l) := ZIP_DECODE_LENGTH zl (q + prevlensize) in
  u32 (prevlensize + lsz + l).

Definition zipEntry (zl : blob) (q : Z) : zlentry :=
  let '(pls, pl) := ZIP_DECODE_PREVLEN zl q in
  let '(enc, lsz, l) := ZIP_DECODE_LENGTH zl (q + pls) in
  mk_zlentry pls pl lsz l (pls + lsz) enc q.

(** ** Integers *)

(** The bytes [zipSaveInteger] stores for [value] under [enc]. *)
Definition zipSaveInteger_buf (value enc : Z) : list Z :=
  if enc =? ZIP_INT_8B then le_bytes 1 (sint 8 value)
  else if enc =? ZIP_INT_16B then le_bytes 2 (sint 16 value)
  else if enc =? ZIP_INT_24B then
    let i32 := sint 32 (Z.shiftl value 8) in
    skipn 1 (le_bytes 4 i32)
  else if enc =? ZIP_INT_32B then le_bytes 4 (sint 32 value)
  else if enc =? ZIP_INT_64B then le_bytes 8 (sint 64 value)
  else [].

Definition zipSaveInteger (zl : blob) (q value enc : Z) : blob :=
  memcpy zl q (zipSaveInteger_buf value enc).

(** [zipLoadInteger(p, encoding)]; [None] is the failed [assert(NULL)] of
    the last branch, on an encoding that is none of the integer ones. *)
Definition zipLoadInteger (zl : blob) (q enc : Z) : option Z :=
  if enc =? ZIP_INT_8B then Some (sint 8 (rd zl q))
  else if enc =? ZIP_INT_16B then Some (sint 16 (le_val (sub zl q 2)))
  else if enc =? ZIP_INT_32B then Some (sint 32 (le_val (sub zl q 4)))
  else if enc =? ZIP_INT_24B then
    let i32 := sint 32 (le_val (0 :: sub zl q 3)) in
    Some (Z.shiftr i32 8)
  else if enc =? ZIP_INT_64B then Some (sint 64 (le_val (sub zl q 8)))
  else if (ZIP_INT_IMM_MIN <=? enc) && (enc <=? ZIP_INT_IMM_MAX)
  then Some (Z.land enc ZIP_INT_IMM_MASK - 1)
  else None.

(** ** The list operations *)

Definition obind {A B : Type} (o : option A) (f : A -> option B) : option B :=
  match o with
  | Some a => f a
  | None => None
  end.

Notation "x <- c1 ;; c2" := (obind c1 (fun x => c2))
  (at level 61, c1 at next level, right associativity).

Definition ziplistNew : blob :=
  let bytes := ZIPLIST_HEADER_SIZE + 1 in
  let zl := zrealloc [] bytes in
  let zl := set_ZIPLIST_BYTES zl bytes in
  let zl := set_ZIPLIST_TAIL_OFFSET zl ZIPLIST_HEADER_SIZE in
  let zl := set_ZIPLIST_LENGTH zl 0 in
  memcpy zl (bytes - 1) [ZIP_END].

(** [ziplistResize(zl, len)]; [len] is an [unsigned int]. *)
Definition ziplistResize (zl : blob) (l : Z) : blob :=
  let zl := zrealloc zl l in
  let zl := set_ZIPLIST_BYTES zl l in
  memcpy zl (l - 1) [ZIP_END].

(** The loop of [__ziplistCascadeUpdate]; [curlen] is the running size. *)
Fixpoint cascade_loop (fuel : nat) (zl : blob) (q curlen : Z) : option blob :=
  match fuel with
  | O => None
  | S fuel' =>
    if rd zl q =? ZIP_END then Some zl else
    let cur := zipEntry zl q in
    let rawlen := u32 (headersize cur + len cur) in
    let rawlensize := zipPrevEncodeLength_size rawlen in
    if rd zl (q + rawlen) =? ZIP_END then Some zl else
    let next := zipEntry zl (q + rawlen) in
    if prevrawlen next =? rawlen then Some zl else
    if prevrawlensize next <? rawlensize then
      let extra := rawlensize - prevrawlensize next in
      let zl := ziplistResize zl (u32 (curlen + extra)) in
      let np := q + rawlen in
      let noffset := np in
      let zl :=
        if negb (ZIPLIST_TAIL_OFFSET zl =? np)
        then set_ZIPLIST_TAIL_OFFSET zl (ZIPLIST_TAIL_OFFSET zl + extra)
        else zl in
      let zl := memmove zl (np + rawlensize) (np + prevrawlensize next)
                        (curlen - noffset - prevrawlensize next - 1) in
      let zl := fst (zipPrevEncodeLength zl (Some np) rawlen) in
      cascade_loop fuel' zl (q + rawlen) (curlen + extra)
    else if prevrawlensize next >? rawlensize then
      Some (zipPrevEncodeLengthForceLarge zl (q + rawlen) rawlen)
    else
      Some (fst (zipPrevEncodeLength zl (Some (q + rawlen)) rawlen))
  end.

Definition __ziplistCascadeUpdate (zl : blob) (q : Z) : option blob :=
  cascade_loop (S (length zl)) zl q (ZIPLIST_BYTES zl).

(** The [for] loop of [__ziplistDelete]: the end of the run and the number
    of entries in it. *)
Fixpoint delete_scan (fuel : nat) (zl : blob) (q i num deleted : Z)
  : option (Z * Z) :=
  match fuel with
  | O => None
  | S fuel' =>
    if negb (rd zl q =? ZIP_END) && (i <? num)
    then delete_scan fuel' zl (q + zipRawEntryLength zl q) (i + 1) num
                     (deleted + 1)
    else Some (q, deleted)
  end.

Definition __ziplistDelete (zl : blob) (q num : Z) : option blob :=
  let first := zipEntry zl q in
  r <- delete_scan (S (length zl)) zl q 0 num 0 ;;
  let '(q, deleted) := r in
  let totlen := u32 (q - p first) in
  if totlen >? 0 then
    let '(zl, nextdiff) :=
      if negb (rd zl q =? ZIP_END) then
        let nextdiff := zipPrevLenByteDiff zl q (prevrawlen first) in
        let q := q - nextdiff in
        let zl := fst (zipPrevEncodeLength zl (Some q) (prevrawlen first)) in
        let zl := set_ZIPLIST_TAIL_OFFSET zl (ZIPLIST_TAIL_OFFSET zl - totlen) in
        let tail := zipEntry zl q in
        let zl :=
          if negb (rd zl (q + (headersize tail + len tail)) =? ZIP_END)
          then set_ZIPLIST_TAIL_OFFSET zl (ZIPLIST_TAIL_OFFSET zl + nextdiff)
          else zl in
        (memmove zl (p first) q (ZIPLIST_BYTES zl - q - 1), nextdiff)
      else
        (set_ZIPLIST_TAIL_OFFSET zl (p first - prevrawlen first), 0) in
    let offset := p first in
    let zl := ziplistResize zl (u32 (ZIPLIST_BYTES zl - totlen + nextdiff)) in
    let zl := ZIPLIST_INCR_LENGTH zl (- deleted) in
    if negb (nextdiff =? 0) then __ziplistCascadeUpdate zl offset
    else Some zl
  else Some zl.

(** Values read back from an entry. *)
Inductive zvalue : Type :=
| VStr (s : list Z)
| VInt (v : Z).

Section Ziplist.

(** [string2ll] of util.c is not part of the sources at hand: it is a
    parameter of the development. *)
Variable string2ll : list Z -> option Z.

Definition zipTryEncoding (entry : list Z) : option (Z * Z) :=
  let entrylen := Z.of_nat (length entry) in
  if (entrylen >=? 32) || (entrylen =? 0) then None else
  match string2ll entry with
  | Some value =>
    let enc :=
      if (value >=? 0) && (value <=? 12) then ZIP_INT_IMM_MIN + value
      else if (value >=? INT8_MIN) && (value <=? INT8_MAX) then ZIP_INT_8B
      else if (value >=? INT16_MIN) && (value <=? INT16_MAX) then ZIP_INT_16B
      else if (value >=? INT24_MIN) && (value <=? INT24_MAX) then ZIP_INT_24B
      else if (value >=? INT32_MIN) && (value <=? INT32_MAX) then ZIP_INT_32B
      else ZIP_INT_64B in
    Some (value, enc)
  | None => None
  end.

Definition __ziplistInsert (zl : blob) (q : Z) (s : list Z) : option blob :=
  let slen := Z.of_nat (length s) in
  let curlen := ZIPLIST_BYTES zl in
  let prevlen :=
    if negb (rd zl q =? ZIP_END) then snd (ZIP_DECODE_PREVLEN zl q)
    else
      let ptail := ZIPLIST_ENTRY_TAIL zl in
      if negb (rd zl ptail =? ZIP_END) then zipRawEntryLength zl ptail
      else 0 in
  let '(value, enc, reqlen) :=
    match zipTryEncoding s with
    | Some (v, e) => (v, e, zipIntSize e)
    | None => (123456789, 0, slen)
    end in
  let reqlen := reqlen + snd (zipPrevEncodeLength zl None prevlen) in
  let reqlen := reqlen + snd (zipEncodeLength zl None enc slen) in
  let nextdiff :=
    if negb (rd zl q =? ZIP_END) then zipPrevLenByteDiff zl q (u32 reqlen)
    else 0 in
  let offset := q in
  let zl := ziplistResize zl (u32 (curlen + reqlen + nextdiff)) in
  let zl :=
    if negb (rd zl q =? ZIP_END) then
      let zl := memmove zl (q + reqlen) (q - nextdiff)
                        (curlen - offset - 1 + nextdiff) in
      let zl := fst (zipPrevEncodeLength zl (Some (q + reqlen)) (u32 reqlen)) in
      let zl := set_ZIPLIST_TAIL_OFFSET zl (ZIPLIST_TAIL_OFFSET zl + reqlen) in
      let tail := zipEntry zl (q + reqlen) in
      if negb (rd zl (q + (reqlen + headersize tail + len tail)) =? ZIP_END)
      then set_ZIPLIST_TAIL_OFFSET zl (ZIPLIST_TAIL_OFFSET zl + nextdiff)
      else zl
    else set_ZIPLIST_TAIL_OFFSET zl q in
  zl <- (if negb (nextdiff =? 0) then __ziplistCascadeUpdate zl (q + reqlen)
         else Some zl) ;;
  let '(zl, n1) := zipPrevEncodeLength zl (Some q) prevlen in
  let q := q + n1 in
  let '(zl, n2) := zipEncodeLength zl (Some q) enc slen in
  let q := q + n2 in
  let zl :=
    if ZIP_IS_STR enc then memcpy zl q s
    else zipSaveInteger zl q value enc in
  Some (ZIPLIST_INCR_LENGTH zl 1).

Definition ziplistPush (zl : blob) (s : list Z) (where_ : Z) : option blob :=
  let q := if where_ =? ZIPLIST_HEAD then ZIPLIST_ENTRY_HEAD zl
           else ZIPLIST_ENTRY_END zl in
  __ziplistInsert zl q s.

Definition ziplistInsert (zl : blob) (q : Z) (s : list Z) : option blob :=
  __ziplistInsert zl q s.

End Ziplist.

(** The two loops of [ziplistIndex]; they give the final pointer and the
    final value of [index]. *)
Fixpoint index_back (fuel : nat) (zl : blob) (q prevlen index : Z)
  : option (Z * Z) :=
  match fuel with
  | O => None
  | S fuel' =>
    if prevlen >? 0 then
      if negb (index =? 0) then
        let q := q - prevlen in
        index_back fuel' zl q (snd (ZIP_DECODE_PREVLEN zl q)) (index - 1)
      else Some (q, index - 1)
    else Some (q, index)
  end.

Fixpoint index_fwd (fuel : nat) (zl : blob) (q index : Z) : option (Z * Z) :=
  match fuel with
  | O => None
  | S fuel' =>
    if negb (rd zl q =? ZIP_END) then
      if negb (index =? 0) then
        index_fwd fuel' zl (q + zipRawEntryLength zl q) (index - 1)
      else Some (q, index - 1)
    else Some (q, index)
  end.

(** [ziplistIndex(zl, index)]: [Some None] is the NULL result. *)
Definition ziplistIndex (zl : blob) (index : Z) : option (option Z) :=
  r <- (if index <? 0 then
          let index := (- index) - 1 in
          let q := ZIPLIST_ENTRY_TAIL zl in
          if negb (rd zl q =? ZIP_END)
          then index_back (S (length zl)) zl q
                          (snd (ZIP_DECODE_PREVLEN zl q)) index
          else Some (q, index)
        else index_fwd (S (length zl)) zl (ZIPLIST_ENTRY_HEAD zl) index) ;;
  let '(q, index) := r in
  Some (if (rd zl q =? ZIP_END) || (index >? 0) then None else Some q).

Definition ziplistNext (zl : blob) (q : Z) : option Z :=
  if rd zl q =? ZIP_END then None else
  let q := q + zipRawEntryLength zl q in
  if rd zl q =? ZIP_END then None else Some q.

Definition ziplistPrev (zl : blob) (q : Z) : option Z :=
  if rd zl q =? ZIP_END then
    let q := ZIPLIST_ENTRY_TAIL zl in
    if rd zl q =? ZIP_END then None else Some q
  else if q =? ZIPLIST_ENTRY_HEAD zl then None
  else Some (q - snd (ZIP_DECODE_PREVLEN zl q)).

(** [ziplistGet(p, &sstr, &slen, &sval)], called with the three result
    pointers: [Some None] is the result 0, [None] the failed assertion of
    [zipLoadInteger]. *)
Definition ziplistGet (zl : blob) (q : option Z) : option (option zvalue) :=
  match q with
  | None => Some None
  | Some q =>
    if rd zl q =? ZIP_END then Some None else
    let entry := zipEntry zl q in
    if ZIP_IS_STR (encoding entry)
    then Some (Some (VStr (sub zl (q + headersize entry) (len entry))))
    else
      sval <- zipLoadInteger zl (q + headersize entry) (encoding entry) ;;
      Some (Some (VInt sval))
  end.

Definition ziplistDelete (zl : blob) (q : Z) : option (blob * Z) :=
  zl' <- __ziplistDelete zl q 1 ;;
  Some (zl', q).

(** [ziplistDeleteRange(zl, index, num)]; [index] is an [unsigned int]
    that [ziplistIndex] takes as an [int]. *)
Definition ziplistDeleteRange (zl : blob) (index num : Z) : option blob :=
  q <- ziplistIndex zl (sint 32 index) ;;
  match q with
  | None => Some zl
  | Some q => __ziplistDelete zl q num
  end.

Definition ziplistCompare (string2ll : list Z -> option Z)
    (zl : blob) (q : Z) (sstr : list Z) : option bool :=
  let slen := Z.of_nat (length sstr) in
  if rd zl q =? ZIP_END then Some false else
  let entry := zipEntry zl q in
  if ZIP_IS_STR (encoding entry) then
    if len entry =? slen
    then if list_eq_dec Z.eq_dec (sub zl (q + headersize entry) slen) sstr
         then Some true else Some false
    else Some false
  else
    match zipTryEncoding string2ll sstr with
    | Some (sval, _) =>
      zval <- zipLoadInteger zl (q + headersize entry) (encoding entry) ;;
      Some (zval =? sval)
    | None => Some false
    end.

(** The walk of [ziplistLen]. *)
Fixpoint len_walk (fuel : nat) (zl : blob) (q l : Z) : option Z :=
  match fuel with
  | O => None
  | S fuel' =>
    if negb (rd zl q =? ZIP_END)
    then len_walk fuel' zl (q + zipRawEntryLength zl q) (u32 (l + 1))
    else Some l
  end.

(** [ziplistLen(zl)]: the blob, whose count field may be stored again, and
    the length. *)
Definition ziplistLen (zl : blob) : option (blob * Z) :=
  if ZIPLIST_LENGTH zl <? UINT16_MAX then Some (zl, ZIPLIST_LENGTH zl)
  else
    l <- len_walk (S (length zl)) zl ZIPLIST_HEADER_SIZE 0 ;;
    Some (if l <? UINT16_MAX then set_ZIPLIST_LENGTH zl l else zl, l).

Definition ziplistBlobLen (zl : blob) : Z := ZIPLIST_BYTES zl.

(** Modelled from the spec: [string2ll] of util.c, which is not part of the
    sources at hand.  The spec has the insert "parse the provided byte
    slice as a signed decimal integer" and has "01024" compare equal to the
    integer 1024: an optional minus sign, then one or more decimal digits,
    leading zeros allowed, the value within the range of a [long long]. *)
Fixpoint digits_val (acc : Z) (s : list Z) : option Z :=
  match s with
  | [] => Some acc
  | c :: r =>
    if (48 <=? c) && (c <=? 57) then digits_val (10 * acc + (c - 48)) r
    else None
  end.

Definition string2ll_spec (s : list Z) : option Z :=
  let '(neg, ds) :=
    match s with
    | 45 :: r => (true, r)
    | _ => (false, s)
    end in
  match ds with
  | [] => None
  | _ =>
    v <- digits_val 0 ds ;;
    let v := if neg then - v else v in
    if (INT64_MIN <=? v) && (v <=? INT64_MAX) then Some v else None
  end.


(** * Properties *)

Abbreviation zlen l := (Z.of_nat (length l)).

(** ** Lists of bytes as memory *)

Lemma rd_app_r (a b : list Z) (i : Z) :
  0 <= i -> rd (a ++ b) (zlen a + i) = rd b i.
Proof.
  intros Hi. unfold rd.
  replace (Z.to_nat (zlen a + i)) with (length a + Z.to_nat i)%nat by lia.
  rewrite app_nth2 by lia. f_equal. lia.
Qed.

Lemma rd_app_l (a b : list Z) (i : Z) :
  0 <= i < zlen a -> rd (a ++ b) i = rd a i.
Proof.
  intros Hi. unfold rd. apply app_nth1. lia.
Qed.

Lemma rd_at (l a b : list Z) (q i : Z) :
  l = a ++ b -> q = zlen a + i -> 0 <= i -> rd l q = rd b i.
Proof. intros -> -> Hi. now apply rd_app_r. Qed.

Lemma rd_cons_0 (x : Z) (l : list Z) : rd (x :: l) 0 = x.
Proof. reflexivity. Qed.

Lemma rd_cons_S (x : Z) (l : list Z) (i : Z) :
  0 < i -> rd (x :: l) i = rd l (i - 1).
Proof.
  intros Hi. unfold rd.
  replace (Z.to_nat i) with (S (Z.to_nat (i - 1))) by lia. reflexivity.
Qed.

Lemma sub_app_r (a b : list Z) (i n : Z) :
  0 <= i -> sub (a ++ b) (zlen a + i) n = sub b i n.
Proof.
  intros Hi. unfold sub.
  replace (Z.to_nat (zlen a + i)) with (length a + Z.to_nat i)%nat by lia.
  rewrite skipn_app.
  rewrite skipn_all2 by lia.
  replace (length a + Z.to_nat i - length a)%nat with (Z.to_nat i) by lia.
  reflexivity.
Qed.

Lemma sub_at (l a b : list Z) (q i n : Z) :
  l = a ++ b -> q = zlen a + i -> 0 <= i -> sub l q n = sub b i n.
Proof. intros -> -> Hi. now apply sub_app_r. Qed.

Lemma sub_0_app (b c : list Z) (n : Z) :
  n = zlen b -> sub (b ++ c) 0 n = b.
Proof.
  intros ->. unfold sub. simpl.
  rewrite Nat2Z.id, firstn_app, firstn_all, Nat.sub_diag. simpl.
  apply app_nil_r.
Qed.

Lemma sub_length (l : list Z) (i n : Z) :
  0 <= i -> 0 <= n -> i + n <= zlen l -> zlen (sub l i n) = n.
Proof.
  intros Hi Hn Hl. unfold sub.
  rewrite length_firstn, length_skipn. lia.
Qed.

Lemma memcpy_length (zl : blob) (q : Z) (bs : list Z) :
  length (memcpy zl q bs) = length zl.
Proof.
  unfold memcpy. rewrite length_firstn, !length_app, length_firstn, length_skipn.
  lia.
Qed.

Lemma memcpy_0 (m bs : list Z) :
  (length bs <= length m)%nat ->
  memcpy m 0 bs = bs ++ skipn (length bs) m.
Proof.
  intros Hl. unfold memcpy. simpl.
  apply firstn_all2. rewrite length_app, length_skipn. lia.
Qed.

Lemma memcpy_app_r (a b : list Z) (i : Z) (bs : list Z) :
  0 <= i -> memcpy (a ++ b) (zlen a + i) bs = a ++ memcpy b i bs.
Proof.
  intros Hi. unfold memcpy.
  replace (Z.to_nat (zlen a + i)) with (length a + Z.to_nat i)%nat by lia.
  assert (H1 : firstn (length a + Z.to_nat i) (a ++ b)
               = a ++ firstn (Z.to_nat i) b).
  { rewrite firstn_app, firstn_all2 by lia. do 2 f_equal. lia. }
  assert (H2 : skipn (length a + Z.to_nat i + length bs) (a ++ b)
               = skipn (Z.to_nat i + length bs) b).
  { rewrite skipn_app, skipn_all2 by lia. simpl. f_equal. lia. }
  rewrite H1, H2, <- app_assoc, length_app.
  rewrite firstn_app, firstn_all2 by lia.
  do 2 f_equal. lia.
Qed.

Lemma memcpy_at (l a b : list Z) (q i : Z) (bs : list Z) :
  l = a ++ b -> q = zlen a + i -> 0 <= i ->
  memcpy l q bs = a ++ memcpy b i bs.
Proof. intros -> -> Hi. now apply memcpy_app_r. Qed.

(** Overwriting [old] in place. *)
Lemma memcpy_exact (l a old c : list Z) (q : Z) (bs : list Z) :
  l = a ++ old ++ c -> q = zlen a -> length old = length bs ->
  memcpy l q bs = a ++ bs ++ c.
Proof.
  intros -> -> Hl.
  rewrite (memcpy_at _ a (old ++ c) _ 0) by (auto; lia).
  rewrite memcpy_0 by (rewrite length_app; lia).
  rewrite <- Hl, skipn_app, skipn_all, Nat.sub_diag. reflexivity.
Qed.

Lemma memcpy_memcpy (l a old1 old2 c : list Z) (q : Z) (b1 b2 : list Z) :
  l = a ++ old1 ++ old2 ++ c -> q = zlen a ->
  length old1 = length b1 -> length old2 = length b2 ->
  memcpy (memcpy l q b1) (q + zlen b1) b2 = a ++ b1 ++ b2 ++ c.
Proof.
  intros -> -> H1 H2.
  rewrite (memcpy_exact _ a old1 (old2 ++ c) _ b1) by auto.
  rewrite (memcpy_exact _ (a ++ b1) old2 c _ b2); auto.
  - now rewrite <- app_assoc.
  - now rewrite <- app_assoc.
  - rewrite length_app. lia.
Qed.

Lemma sub_memcpy_same (zl : blob) (q : Z) (bs : list Z) :
  0 <= q -> q + zlen bs <= zlen zl ->
  sub (memcpy zl q bs) q (zlen bs) = bs.
Proof.
  intros Hq Hl.
  rewrite <- (firstn_skipn (Z.to_nat q) zl) at 1.
  rewrite <- (firstn_skipn (length bs) (skipn (Z.to_nat q) zl)) at 1.
  erewrite memcpy_exact; [ | reflexivity | | ].
  - erewrite (sub_at _ _ _ q 0); [ | reflexivity | | lia ].
    + now apply sub_0_app.
    + rewrite length_firstn. lia.
  - rewrite length_firstn. lia.
  - rewrite length_firstn, length_skipn. lia.
Qed.

Lemma rd_sub (zl : blob) (q n i : Z) :
  0 <= q -> 0 <= i < n -> rd (sub zl q n) i = rd zl (q + i).
Proof.
  intros Hq Hi. unfold rd, sub.
  rewrite nth_firstn.
  destruct (Nat.ltb_spec (Z.to_nat i) (Z.to_nat n)); [ | lia ].
  rewrite nth_skipn. f_equal. lia.
Qed.

Lemma zrealloc_grow (zl : blob) (n : Z) :
  zlen zl <= n -> zrealloc zl n = zl ++ repeat 0 (Z.to_nat (n - zlen zl)).
Proof.
  intros Hn. unfold zrealloc. rewrite firstn_all2 by lia.
  do 2 f_equal. lia.
Qed.

Lemma zrealloc_shrink (a b : list Z) (n : Z) :
  n = zlen a -> zrealloc (a ++ b) n = a.
Proof.
  intros ->. unfold zrealloc.
  rewrite Nat2Z.id, firstn_app, firstn_all, Nat.sub_diag. simpl.
  rewrite length_app.
  replace (length a - (length a + length b))%nat with 0%nat by lia.
  simpl. now rewrite !app_nil_r.
Qed.

Lemma zrealloc_length (zl : blob) (n : Z) :
  0 <= n -> zlen (zrealloc zl n) = n.
Proof.
  intros Hn. unfold zrealloc.
  rewrite length_app, length_firstn, repeat_length. lia.
Qed.

(** ** Little-endian values *)

Lemma le_bytes_length (n : nat) (v : Z) : length (le_bytes n v) = n.
Proof. revert v. induction n; intros v; simpl; auto. Qed.

Lemma le_val_le_bytes (n : nat) (v : Z) :
  le_val (le_bytes n v) = v mod 256 ^ Z.of_nat n.
Proof.
  revert v. induction n as [ | n IH ]; intros v.
  - simpl. now rewrite Z.mod_1_r.
  - cbn [le_bytes le_val]. rewrite IH.
    rewrite Nat2Z.inj_succ, Z.pow_succ_r by lia.
    rewrite Z.rem_mul_r by lia. reflexivity.
Qed.

Lemma le_bytes_mod (n : nat) (v : Z) :
  le_bytes n (v mod 256 ^ Z.of_nat n) = le_bytes n v.
Proof.
  revert v. induction n as [ | n IH ]; intros v; [ reflexivity | ].
  cbn [le_bytes].
  rewrite Nat2Z.inj_succ, Z.pow_succ_r by lia.
  rewrite Z.rem_mul_r by lia.
  set (M := 256 ^ Z.of_nat n).
  rewrite (Z.mul_comm 256 ((v / 256) mod M)).
  rewrite Z.mod_add, Z.div_add by lia.
  rewrite Z.mod_mod by lia.
  rewrite Z.mod_div by lia.
  rewrite Z.add_0_l. f_equal. apply IH.
Qed.

Lemma sint_small (bits v : Z) :
  0 < bits -> - 2 ^ (bits - 1) <= v < 2 ^ (bits - 1) -> sint bits v = v.
Proof.
  intros Hb Hv. unfold sint.
  assert (Hp : 2 ^ bits = 2 * 2 ^ (bits - 1)).
  { replace bits with (Z.succ (bits - 1)) at 1 by lia.
    apply Z.pow_succ_r. lia. }
  destruct (Z_lt_le_dec v 0) as [ Hneg | Hpos ].
  - assert (Hm : v + 2 ^ bits = v mod 2 ^ bits).
    { apply Z.mod_unique with (q := -1); lia. }
    rewrite <- Hm.
    destruct (Z.ltb_spec (v + 2 ^ bits) (2 ^ (bits - 1))); lia.
  - rewrite Z.mod_small by lia.
    destruct (Z.ltb_spec v (2 ^ (bits - 1))); lia.
Qed.

Lemma sint_mod (bits v : Z) :
  0 < bits -> sint bits (v mod 2 ^ bits) = sint bits v.
Proof.
  intros Hb. unfold sint. rewrite Z.mod_mod; auto.
  apply Z.pow_nonzero; lia.
Qed.

Lemma rd_memcpy_same (zl : blob) (q i : Z) (bs : list Z) :
  0 <= q -> q + zlen bs <= zlen zl -> 0 <= i < zlen bs ->
  rd (memcpy zl q bs) (q + i) = rd bs i.
Proof.
  intros Hq Hl Hi.
  rewrite <- (rd_sub _ q (zlen bs) i) by lia.
  now rewrite sub_memcpy_same.
Qed.

(** ** Integer payloads *)

(** The values an integer encoding can hold; the immediate encoding holds
    its value in the encoding byte. *)
Definition int_enc_range (enc v : Z) : Prop :=
  (enc = ZIP_INT_8B /\ INT8_MIN <= v <= INT8_MAX) \/
  (enc = ZIP_INT_16B /\ INT16_MIN <= v <= INT16_MAX) \/
  (enc = ZIP_INT_24B /\ INT24_MIN <= v <= INT24_MAX) \/
  (enc = ZIP_INT_32B /\ INT32_MIN <= v <= INT32_MAX) \/
  (enc = ZIP_INT_64B /\ INT64_MIN <= v <= INT64_MAX) \/
  (enc = ZIP_INT_IMM_MIN + v /\ 0 <= v <= 12).

Lemma zipSaveInteger_buf_length (v enc : Z) :
  zlen (zipSaveInteger_buf v enc) = zipIntSize enc.
Proof.
  unfold zipSaveInteger_buf, zipIntSize.
  repeat match goal with
         | |- context [ ?a =? ?b ] => destruct (a =? b)
         end; reflexivity.
Qed.

Lemma sint_idem (bits v : Z) :
  0 < bits ->
  - 2 ^ (bits - 1) <= sint bits v < 2 ^ (bits - 1).
Proof.
  intros Hb. unfold sint.
  assert (Hp : 2 ^ bits = 2 * 2 ^ (bits - 1)).
  { replace bits with (Z.succ (bits - 1)) at 1 by lia.
    apply Z.pow_succ_r. lia. }
  assert (Hm := Z.mod_pos_bound v (2 ^ bits)).
  destruct (Z.ltb_spec (v mod 2 ^ bits) (2 ^ (bits - 1))); lia.
Qed.

Lemma le_val_le_bytes_sint (n : nat) (bits v : Z) :
  bits = 8 * Z.of_nat n -> 0 < bits ->
  sint bits (le_val (le_bytes n (sint bits v))) = sint bits v.
Proof.
  intros Hbits Hpos. rewrite le_val_le_bytes.
  replace (256 ^ Z.of_nat n) with (2 ^ bits).
  - rewrite sint_mod by lia. apply sint_small; auto. now apply sint_idem.
  - subst bits. change 256 with (2 ^ 8). rewrite <- Z.pow_mul_r by lia.
    reflexivity.
Qed.

Ltac sint_range :=
  apply sint_small;
  [ lia
  | unfold INT8_MIN, INT8_MAX, INT16_MIN, INT16_MAX, INT24_MIN, INT24_MAX,
      INT32_MIN, INT32_MAX, INT64_MIN, INT64_MAX in *;
    match goal with
    | |- context [ 2 ^ ?k ] =>
        let x := eval vm_compute in (2 ^ k) in change (2 ^ k) with x
    end; lia ].

(** Reading back what [zipSaveInteger] stored. *)
Lemma zipLoadInteger_saved (zl : blob) (q v enc : Z) :
  0 <= q -> q + zipIntSize enc <= zlen zl -> int_enc_range enc v ->
  zipLoadInteger (zipSaveInteger zl q v enc) q enc = Some v.
Proof.
  intros Hq Hl Hr. unfold zipSaveInteger.
  assert (Hlen := zipSaveInteger_buf_length v enc).
  destruct Hr as [ [-> Hv] | [ [-> Hv] | [ [-> Hv] | [ [-> Hv] | [ [-> Hv] | [-> Hv] ] ] ] ] ].
  - (* 8 bits *)
    change (zipSaveInteger_buf v ZIP_INT_8B) with (le_bytes 1 (sint 8 v)) in *.
    change (zipLoadInteger ?z q ZIP_INT_8B) with (Some (sint 8 (rd z q))). f_equal.
    replace q with (q + 0) at 2 by lia.
    rewrite rd_memcpy_same by (simpl in *; lia).
    cbn [le_bytes rd nth Z.to_nat].
    change 256 with (2 ^ 8). rewrite sint_mod by lia.
    assert (Hs : sint 8 v = v) by sint_range.
    now rewrite !Hs.
  - (* 16 bits *)
    change (zipSaveInteger_buf v ZIP_INT_16B) with (le_bytes 2 (sint 16 v)) in *.
    change (zipLoadInteger ?z q ZIP_INT_16B) with (Some (sint 16 (le_val (sub z q 2)))). f_equal.
    change 2 with (zlen (le_bytes 2 (sint 16 v))) at 1.
    rewrite sub_memcpy_same by (simpl in *; lia).
    rewrite le_val_le_bytes_sint by lia.
    sint_range.
  - (* 24 bits *)
    change (zipSaveInteger_buf v ZIP_INT_24B)
      with (skipn 1 (le_bytes 4 (sint 32 (Z.shiftl v 8)))) in *.
    change (zipLoadInteger ?z q ZIP_INT_24B)
      with (Some (Z.shiftr (sint 32 (le_val (0 :: sub z q 3))) 8)). f_equal.
    change 3 with (zlen (skipn 1 (le_bytes 4 (sint 32 (Z.shiftl v 8))))) at 1.
    rewrite sub_memcpy_same by (simpl in *; lia).
    rewrite Z.shiftl_mul_pow2 by lia.
    assert (Hs : sint 32 (v * 2 ^ 8) = v * 256).
    { change (2 ^ 8) with 256. sint_range. }
    rewrite Hs.
    assert (Hb : 0 :: skipn 1 (le_bytes 4 (v * 256)) = le_bytes 4 (v * 256)).
    { cbn [le_bytes skipn]. now rewrite Z.mod_mul by lia. }
    rewrite Hb, <- Hs at 1.
    rewrite le_val_le_bytes_sint by lia.
    rewrite Hs, Z.shiftr_div_pow2 by lia.
    change (2 ^ 8) with 256. apply Z.div_mul. lia.
  - (* 32 bits *)
    change (zipSaveInteger_buf v ZIP_INT_32B) with (le_bytes 4 (sint 32 v)) in *.
    change (zipLoadInteger ?z q ZIP_INT_32B) with (Some (sint 32 (le_val (sub z q 4)))). f_equal.
    change 4 with (zlen (le_bytes 4 (sint 32 v))) at 1.
    rewrite sub_memcpy_same by (simpl in *; lia).
    rewrite le_val_le_bytes_sint by lia.
    sint_range.
  - (* 64 bits *)
    change (zipSaveInteger_buf v ZIP_INT_64B) with (le_bytes 8 (sint 64 v)) in *.
    change (zipLoadInteger ?z q ZIP_INT_64B) with (Some (sint 64 (le_val (sub z q 8)))). f_equal.
    change 8 with (zlen (le_bytes 8 (sint 64 v))) at 1.
    rewrite sub_memcpy_same by (simpl in *; lia).
    rewrite le_val_le_bytes_sint by lia.
    sint_range.
  - (* immediate *)
    assert (Hc : v = 0 \/ v = 1 \/ v = 2 \/ v = 3 \/ v = 4 \/ v = 5 \/ v = 6 \/
                 v = 7 \/ v = 8 \/ v = 9 \/ v = 10 \/ v = 11 \/ v = 12) by lia.
    repeat (destruct Hc as [ -> | Hc ]; [ reflexivity | ]).
    subst v. reflexivity.
Qed.

(** C10: an integer stored by [zipSaveInteger] under an encoding whose
    range holds it is read back unchanged by [zipLoadInteger] under the same
    encoding, the three-byte payload of the 24 bit encoding being
    sign-extended. *)
Theorem zipLoadInteger_zipSaveInteger (zl : blob) (q v enc : Z) :
  0 <= q -> q + zipIntSize enc <= zlen zl -> int_enc_range enc v ->
  zipLoadInteger (zipSaveInteger zl q v enc) q enc = Some v.
Proof. apply zipLoadInteger_saved. Qed.

Lemma zipLoadInteger_zipSaveInteger_witness :
  zipLoadInteger (zipSaveInteger (repeat 0 8%nat) 2 (-70000) ZIP_INT_24B)
                 2 ZIP_INT_24B = Some (-70000).
Proof.
  apply (zipLoadInteger_zipSaveInteger (repeat 0 8%nat) 2 (-70000) ZIP_INT_24B).
  - lia.
  - simpl. lia.
  - right. right. left. split; [ reflexivity | ].
    unfold INT24_MIN, INT24_MAX. lia.
Defined.

(** ** Bits *)

Lemma lor_add_disjoint (a k y : Z) :
  0 <= k -> 0 <= y < 2 ^ k -> Z.lor (a * 2 ^ k) y = a * 2 ^ k + y.
Proof.
  intros Hk Hy.
  assert (Hand : Z.land (a * 2 ^ k) y = 0).
  { apply Z.bits_inj'. intros n Hn.
    rewrite Z.land_spec, Z.bits_0.
    destruct (Z_lt_le_dec n k) as [ Hlt | Hge ].
    - rewrite Z.mul_pow2_bits_low by lia. reflexivity.
    - destruct (Z.eq_dec y 0) as [ -> | Hy0 ].
      + rewrite Z.bits_0. apply andb_false_r.
      + rewrite (Z.bits_above_log2 y n); [ apply andb_false_r | lia | ].
        apply Z.lt_le_trans with k; [ | lia ].
        apply Z.log2_lt_pow2; lia. }
  rewrite <- Z.lxor_lor by exact Hand.
  symmetry. now apply Z.add_nocarry_lxor.
Qed.

Lemma land_low (x k : Z) : 0 <= k -> Z.land x (2 ^ k - 1) = x mod 2 ^ k.
Proof.
  intros Hk. rewrite <- Z.land_ones by lia. f_equal.
  rewrite Z.ones_equiv. lia.
Qed.

(** Checking a property of every byte by running through the bytes. *)
Lemma forall_below (f : Z -> bool) (n : nat) :
  forallb f (map Z.of_nat (seq 0 n)) = true ->
  forall x, 0 <= x < Z.of_nat n -> f x = true.
Proof.
  intros H x Hx. rewrite forallb_forall in H. apply H.
  apply in_map_iff. exists (Z.to_nat x). split; [ lia | ].
  apply in_seq. lia.
Qed.

Lemma byte_str_mask (b : Z) :
  0 <= b < 256 -> Z.land b ZIP_STR_MASK = b / 64 * 64.
Proof.
  intros Hb.
  apply Z.eqb_eq.
  apply (forall_below (fun b => Z.land b ZIP_STR_MASK =? b / 64 * 64) 256);
    [ now vm_compute | lia ].
Qed.

(** ** The length header of an entry: what the encoder writes, the decoder
    reads *)

Lemma zipEncodeLength_buf_06B (rawlen : Z) :
  0 <= rawlen <= 0x3f -> zipEncodeLength_buf 0 rawlen = [rawlen].
Proof.
  intros H. unfold zipEncodeLength_buf.
  change (ZIP_IS_STR 0) with true. cbv iota.
  destruct (Z.leb_spec rawlen 0x3f); [ | lia ].
  reflexivity.
Qed.

Lemma zipEncodeLength_buf_14B (rawlen : Z) :
  0x3f < rawlen <= 0x3fff ->
  zipEncodeLength_buf 0 rawlen = [64 + rawlen / 256; rawlen mod 256].
Proof.
  intros H. unfold zipEncodeLength_buf.
  change (ZIP_IS_STR 0) with true. cbv iota.
  destruct (Z.leb_spec rawlen 0x3f); [ lia | ].
  destruct (Z.leb_spec rawlen 0x3fff); [ | lia ].
  rewrite Z.shiftr_div_pow2 by lia.
  change 0x3f with (2 ^ 6 - 1). change 0xff with (2 ^ 8 - 1).
  rewrite !land_low by lia.
  change (2 ^ 8) with 256. change (2 ^ 6) with 64.
  assert (Hd : 0 <= rawlen / 256 < 64).
  { split; [ apply Z.div_pos; lia | apply Z.div_lt_upper_bound; lia ]. }
  rewrite (Z.mod_small (rawlen / 256)) by lia.
  change ZIP_STR_14B with (1 * 2 ^ 6).
  rewrite lor_add_disjoint by (change (2 ^ 6) with 64; lia).
  reflexivity.
Qed.

Lemma zipEncodeLength_buf_32B (rawlen : Z) :
  0x3fff < rawlen ->
  zipEncodeLength_buf 0 rawlen = 128 :: rev (le_bytes 4 rawlen).
Proof.
  intros H. unfold zipEncodeLength_buf.
  change (ZIP_IS_STR 0) with true. cbv iota.
  destruct (Z.leb_spec rawlen 0x3f); [ lia | ].
  destruct (Z.leb_spec rawlen 0x3fff); [ lia | ].
  rewrite !Z.shiftr_div_pow2 by lia.
  change 0xff with (2 ^ 8 - 1).
  rewrite !land_low by lia.
  cbn [le_bytes rev app].
  change (2 ^ 8) with 256. change (2 ^ 16) with (256 * 256).
  change (2 ^ 24) with (256 * (256 * 256)).
  rewrite <- !Z.div_div by lia.
  reflexivity.
Qed.

Lemma zipEncodeLength_buf_int (enc rawlen : Z) :
  ZIP_IS_STR enc = false -> zipEncodeLength_buf enc rawlen = [enc].
Proof. intros H. unfold zipEncodeLength_buf. now rewrite H. Qed.

(** ** The layout of a list, entry by entry *)

(** An entry of the blob: whether its [prevlen] field is the 5 byte one,
    and its length header with the payload.  The value of the [prevlen]
    field is the length of the entry before. *)
Record entry : Type := mk_entry { large : bool; body : list Z }.

Definition pls (lg : bool) : Z := if lg then 5 else 1.

Definition elen (e : entry) : Z := pls (large e) + zlen (body e).

Definition prev_field (lg : bool) (v : Z) : list Z :=
  if lg then ZIP_BIGLEN :: le_bytes 4 v else [v].

Definition entry_bytes (prev : Z) (e : entry) : list Z :=
  prev_field (large e) prev ++ body e.

Fixpoint layout (prev : Z) (es : list entry) : list Z :=
  match es with
  | [] => []
  | e :: r => entry_bytes prev e ++ layout (elen e) r
  end.

Fixpoint sum_len (es : list entry) : Z :=
  match es with
  | [] => 0
  | e :: r => elen e + sum_len r
  end.

Definition header (bytes tail count : Z) : list Z :=
  le_bytes 4 bytes ++ le_bytes 4 tail ++ le_bytes 2 count.

(** [<zlbytes><zltail><zllen><entry>*<zlend>] *)
Definition ziplist_of (count : Z) (es : list entry) : blob :=
  header (ZIPLIST_HEADER_SIZE + sum_len es + 1)
         (ZIPLIST_HEADER_SIZE + sum_len (removelast es)) count
  ++ layout 0 es ++ [ZIP_END].

(** The length header of [b] as the decoder sees it covers [b]. *)
Definition body_ok (b : list Z) : bool :=
  let '(_, lsz, l) := ZIP_DECODE_LENGTH b 0 in
  (0 <=? l) && (lsz + l =? zlen b).

(** Every entry is well formed, and a 1 byte [prevlen] field is only used
    for a length below 254. *)
Fixpoint chain_ok (prev : Z) (es : list entry) : bool :=
  match es with
  | [] => true
  | e :: r =>
    (0 <=? prev) && (large e || (prev <? ZIP_BIGLEN)) && body_ok (body e)
    && chain_ok (elen e) r
  end.

(** The blob [ziplist_of count es] is a ziplist: the entries are well
    formed, the size fits the 32 bit field, and the count field either
    holds the number of entries or is saturated. *)
Definition ziplist_ok (count : Z) (es : list entry) : Prop :=
  chain_ok 0 es = true /\
  ZIPLIST_HEADER_SIZE + sum_len es + 1 < 2 ^ 32 /\
  0 <= count <= UINT16_MAX /\
  (count < UINT16_MAX -> count = zlen es).

Lemma rd_mid (pre b rest : list Z) (i : Z) :
  0 <= i < zlen b -> rd (pre ++ b ++ rest) (zlen pre + i) = rd b i.
Proof.
  intros Hi. rewrite rd_app_r by lia. now apply rd_app_l.
Qed.

Lemma land_str_mask_cases (x : Z) :
  Z.land x ZIP_STR_MASK = 0 \/ Z.land x ZIP_STR_MASK = 64 \/
  Z.land x ZIP_STR_MASK = 128 \/ Z.land x ZIP_STR_MASK = 192.
Proof.
  assert (H : Z.land x ZIP_STR_MASK = Z.land (x mod 256) ZIP_STR_MASK).
  { change 256 with (2 ^ 8). rewrite <- land_low by lia.
    rewrite <- Z.land_assoc. reflexivity. }
  rewrite H.
  assert (Hm := Z.mod_pos_bound x 256).
  rewrite byte_str_mask by lia.
  assert (Hd : 0 <= x mod 256 / 64 < 4).
  { split; [ apply Z.div_pos; lia | apply Z.div_lt_upper_bound; lia ]. }
  lia.
Qed.

Lemma body_ok_inv (b : list Z) :
  body_ok b = true ->
  exists enc lsz l,
    ZIP_DECODE_LENGTH b 0 = (enc, lsz, l) /\ 1 <= lsz /\ 0 <= l /\
    lsz + l = zlen b.
Proof.
  unfold body_ok. intros H.
  destruct (ZIP_DECODE_LENGTH b 0) as [ [enc lsz] l ] eqn:E.
  apply andb_true_iff in H. destruct H as [H1 H2].
  apply Z.leb_le in H1. apply Z.eqb_eq in H2.
  exists enc, lsz, l. repeat split; auto.
  unfold ZIP_DECODE_LENGTH, ZIP_ENTRY_ENCODING in E.
  destruct (Z.ltb_spec (rd b 0) ZIP_STR_MASK) as [ Hs | Hs ].
  - destruct (land_str_mask_cases (rd b 0)) as [ Hc | [ Hc | [ Hc | Hc ] ] ];
      rewrite Hc in E; cbn in E; inversion E; lia.
  - destruct (Z.ltb_spec (rd b 0) ZIP_STR_MASK); [ lia | ].
    inversion E; lia.
Qed.

Lemma ZIP_DECODE_LENGTH_at (zl pre b rest : list Z) (o : Z) :
  zl = pre ++ b ++ rest -> o = zlen pre -> body_ok b = true ->
  ZIP_DECODE_LENGTH zl o = ZIP_DECODE_LENGTH b 0.
Proof.
  intros -> -> Hok.
  destruct (body_ok_inv b Hok) as (enc & lsz & l & E & Hlsz & Hl & Hlen).
  assert (H0 : rd (pre ++ b ++ rest) (zlen pre) = rd b 0).
  { replace (zlen pre) with (zlen pre + 0) by lia. apply rd_mid. lia. }
  unfold ZIP_DECODE_LENGTH, ZIP_ENTRY_ENCODING in *.
  rewrite H0. change (0 + 1) with 1 in *. change (0 + 2) with 2 in *.
  change (0 + 3) with 3 in *. change (0 + 4) with 4 in *.
  repeat match goal with
         | |- (if ?c then _ else _) = _ => destruct c
         end; try reflexivity; inversion E; subst lsz.
  - rewrite rd_mid by lia. reflexivity.
  - rewrite !rd_mid by lia. reflexivity.
Qed.

Lemma chain_ok_cons (prev : Z) (e : entry) (r : list entry) :
  chain_ok prev (e :: r) = true <->
  0 <= prev /\ (large e = false -> prev < ZIP_BIGLEN) /\
  body_ok (body e) = true /\ chain_ok (elen e) r = true.
Proof.
  cbn [chain_ok]. rewrite !andb_true_iff, orb_true_iff, Z.leb_le, Z.ltb_lt.
  split.
  - intros [ [ [H1 H2] H3] H4]. repeat split; auto.
    intros Hl. destruct H2 as [H2 | H2]; [ congruence | exact H2 ].
  - intros (H1 & H2 & H3 & H4). repeat split; auto.
    destruct (large e); [ now left | right; now apply H2 ].
Qed.

Lemma prev_field_length (lg : bool) (v : Z) :
  zlen (prev_field lg v) = pls lg.
Proof. destruct lg; reflexivity. Qed.

Lemma entry_bytes_length (prev : Z) (e : entry) :
  zlen (entry_bytes prev e) = elen e.
Proof.
  unfold entry_bytes, elen. rewrite length_app, Nat2Z.inj_add.
  now rewrite prev_field_length.
Qed.

Lemma layout_length (prev : Z) (es : list entry) :
  zlen (layout prev es) = sum_len es.
Proof.
  revert prev. induction es as [ | e r IH ]; intros prev; [ reflexivity | ].
  cbn [layout sum_len]. rewrite length_app, Nat2Z.inj_add.
  now rewrite entry_bytes_length, IH.
Qed.

Lemma body_ok_nonempty (b : list Z) : body_ok b = true -> 1 <= zlen b.
Proof.
  intros H. destruct (body_ok_inv _ H) as (enc & lsz & l & _ & H1 & H2 & H3).
  lia.
Qed.

Lemma elen_ge_2 (e : entry) : body_ok (body e) = true -> 2 <= elen e.
Proof.
  intros H. destruct (body_ok_inv _ H) as (enc & lsz & l & _ & H1 & H2 & H3).
  unfold elen. destruct (large e); cbn [pls]; lia.
Qed.

Lemma sum_len_nonneg (es : list entry) : 0 <= sum_len es.
Proof.
  induction es as [ | e r IH ]; cbn [sum_len]; [ lia | ].
  unfold elen. destruct (large e); cbn [pls]; lia.
Qed.

Lemma sum_len_app (es1 es2 : list entry) :
  sum_len (es1 ++ es2) = sum_len es1 + sum_len es2.
Proof. induction es1 as [ | e r IH ]; cbn [sum_len app]; lia. Qed.

(** An entry at offset [o] of [zl]. *)
Definition entry_at (zl : blob) (o prev : Z) (e : entry) : Prop :=
  exists pre rest, zl = pre ++ entry_bytes prev e ++ rest /\ o = zlen pre.

Lemma entry_at_rd (zl : blob) (o prev : Z) (e : entry) :
  entry_at zl o prev e ->
  rd zl o = if large e then ZIP_BIGLEN else prev.
Proof.
  intros (pre & rest & -> & ->).
  replace (zlen pre) with (zlen pre + 0) by lia.
  rewrite rd_app_r by lia. unfold entry_bytes, prev_field.
  destruct (large e); reflexivity.
Qed.

Lemma entry_at_not_end (zl : blob) (o prev : Z) (e : entry) :
  entry_at zl o prev e -> 0 <= prev ->
  (large e = false -> prev < ZIP_BIGLEN) ->
  (rd zl o =? ZIP_END) = false.
Proof.
  intros Hat Hprev Hsmall.
  rewrite (entry_at_rd _ _ _ _ Hat). apply Z.eqb_neq.
  destruct (large e); unfold ZIP_BIGLEN, ZIP_END in *; [ lia | ].
  specialize (Hsmall eq_refl). lia.
Qed.

Lemma entry_at_prevlensize (zl : blob) (o prev : Z) (e : entry) :
  entry_at zl o prev e ->
  (large e = false -> prev < ZIP_BIGLEN) ->
  ZIP_DECODE_PREVLENSIZE zl o = pls (large e).
Proof.
  intros Hat Hsmall.
  unfold ZIP_DECODE_PREVLENSIZE. rewrite (entry_at_rd _ _ _ _ Hat).
  destruct (large e); [ reflexivity | ].
  specialize (Hsmall eq_refl).
  destruct (Z.ltb_spec prev ZIP_BIGLEN); [ reflexivity | lia ].
Qed.

Lemma entry_at_prevlen (zl : blob) (o prev : Z) (e : entry) :
  entry_at zl o prev e -> 0 <= prev < 2 ^ 32 ->
  (large e = false -> prev < ZIP_BIGLEN) ->
  ZIP_DECODE_PREVLEN zl o = (pls (large e), prev).
Proof.
  intros Hat Hprev Hsmall.
  unfold ZIP_DECODE_PREVLEN. rewrite (entry_at_prevlensize _ _ _ _ Hat Hsmall).
  rewrite (entry_at_rd _ _ _ _ Hat).
  destruct Hat as (pre & rest & -> & ->).
  destruct (large e) eqn:El; cbn [pls Z.eqb Pos.eqb]; [ | reflexivity ].
  f_equal.
  unfold entry_bytes, prev_field. rewrite El.
  rewrite (sub_at _ (pre ++ [ZIP_BIGLEN]) (le_bytes 4 prev ++ body e ++ rest)
             _ 0).
  - rewrite sub_0_app by now rewrite le_bytes_length.
    rewrite le_val_le_bytes. apply Z.mod_small.
    change (256 ^ Z.of_nat 4) with (2 ^ 32). lia.
  - rewrite <- !app_assoc. reflexivity.
  - rewrite length_app. simpl. lia.
  - lia.
Qed.

Lemma entry_at_decode_length (zl : blob) (o prev : Z) (e : entry) :
  entry_at zl o prev e -> body_ok (body e) = true ->
  ZIP_DECODE_LENGTH zl (o + pls (large e)) = ZIP_DECODE_LENGTH (body e) 0.
Proof.
  intros (pre & rest & -> & ->) Hbody.
  apply (ZIP_DECODE_LENGTH_at _ (pre ++ prev_field (large e) prev) (body e) rest);
    auto.
  - unfold entry_bytes. now rewrite <- !app_assoc.
  - rewrite length_app, Nat2Z.inj_add, prev_field_length. reflexivity.
Qed.

Lemma entry_at_rawlen (zl : blob) (o prev : Z) (e : entry) :
  entry_at zl o prev e ->
  (large e = false -> prev < ZIP_BIGLEN) ->
  body_ok (body e) = true -> elen e < 2 ^ 32 ->
  zipRawEntryLength zl o = elen e.
Proof.
  intros Hat Hsmall Hbody Hlt. unfold zipRawEntryLength.
  rewrite (entry_at_prevlensize _ _ _ _ Hat Hsmall).
  rewrite (entry_at_decode_length _ _ _ _ Hat Hbody).
  destruct (body_ok_inv _ Hbody) as (enc & lsz & l & E & H1 & H2 & H3).
  rewrite E. unfold u32, uint. unfold elen in *.
  rewrite Z.mod_small; [ lia | ].
  destruct (large e); cbn [pls] in *; lia.
Qed.

Lemma entry_at_zipEntry (zl : blob) (o prev : Z) (e : entry) :
  entry_at zl o prev e -> 0 <= prev < 2 ^ 32 ->
  (large e = false -> prev < ZIP_BIGLEN) ->
  body_ok (body e) = true ->
  exists enc lsz l,
    ZIP_DECODE_LENGTH (body e) 0 = (enc, lsz, l) /\
    zipEntry zl o = mk_zlentry (pls (large e)) prev lsz l
                               (pls (large e) + lsz) enc o /\
    pls (large e) + lsz + l = elen e /\ 1 <= lsz /\ 0 <= l.
Proof.
  intros Hat Hprev Hsmall Hbody.
  destruct (body_ok_inv _ Hbody) as (enc & lsz & l & E & H1 & H2 & H3).
  exists enc, lsz, l. split; [ exact E | ].
  split; [ | unfold elen; lia ].
  unfold zipEntry. rewrite (entry_at_prevlen _ _ _ _ Hat Hprev Hsmall).
  rewrite (entry_at_decode_length _ _ _ _ Hat Hbody), E.
  reflexivity.
Qed.

(** ** The header *)

Lemma header_length (b t c : Z) : length (header b t c) = 10%nat.
Proof. reflexivity. Qed.

Lemma ZIPLIST_BYTES_header (b t c : Z) (r : list Z) :
  ZIPLIST_BYTES (header b t c ++ r) = b mod 2 ^ 32.
Proof.
  unfold ZIPLIST_BYTES, header. rewrite <- !app_assoc.
  rewrite sub_0_app by reflexivity. apply le_val_le_bytes.
Qed.

Lemma ZIPLIST_TAIL_OFFSET_header (b t c : Z) (r : list Z) :
  ZIPLIST_TAIL_OFFSET (header b t c ++ r) = t mod 2 ^ 32.
Proof.
  unfold ZIPLIST_TAIL_OFFSET, header. rewrite <- !app_assoc.
  rewrite (sub_at _ (le_bytes 4 b) (le_bytes 4 t ++ le_bytes 2 c ++ r) 4 0)
    by (auto; lia).
  rewrite sub_0_app by reflexivity. apply le_val_le_bytes.
Qed.

Lemma ZIPLIST_LENGTH_header (b t c : Z) (r : list Z) :
  ZIPLIST_LENGTH (header b t c ++ r) = c mod 2 ^ 16.
Proof.
  unfold ZIPLIST_LENGTH, header. rewrite <- !app_assoc.
  rewrite (sub_at _ (le_bytes 4 b ++ le_bytes 4 t) (le_bytes 2 c ++ r) 8 0).
  - rewrite sub_0_app by reflexivity. apply le_val_le_bytes.
  - now rewrite <- !app_assoc.
  - reflexivity.
  - lia.
Qed.

Lemma set_ZIPLIST_BYTES_header (b t c v : Z) (r : list Z) :
  set_ZIPLIST_BYTES (header b t c ++ r) v = header v t c ++ r.
Proof.
  unfold set_ZIPLIST_BYTES, header. rewrite <- !app_assoc.
  now apply (memcpy_exact _ [] (le_bytes 4 b)).
Qed.

Lemma set_ZIPLIST_TAIL_OFFSET_header (b t c v : Z) (r : list Z) :
  set_ZIPLIST_TAIL_OFFSET (header b t c ++ r) v = header b v c ++ r.
Proof.
  unfold set_ZIPLIST_TAIL_OFFSET, header. rewrite <- !app_assoc.
  now apply (memcpy_exact _ (le_bytes 4 b) (le_bytes 4 t)).
Qed.

Lemma set_ZIPLIST_LENGTH_header (b t c v : Z) (r : list Z) :
  set_ZIPLIST_LENGTH (header b t c ++ r) v = header b t v ++ r.
Proof.
  unfold set_ZIPLIST_LENGTH, header. rewrite <- !app_assoc.
  rewrite (memcpy_exact _ (le_bytes 4 b ++ le_bytes 4 t) (le_bytes 2 c) r 8
             (le_bytes 2 v)); auto.
  all: now rewrite <- !app_assoc.
Qed.

Lemma header_mod (b t c : Z) :
  header (b mod 2 ^ 32) (t mod 2 ^ 32) (c mod 2 ^ 16) = header b t c.
Proof.
  unfold header.
  change (2 ^ 32) with (256 ^ Z.of_nat 4). change (2 ^ 16) with (256 ^ Z.of_nat 2).
  now rewrite !le_bytes_mod.
Qed.

Lemma header_tail_mod (b t d c : Z) :
  header b (t mod 2 ^ 32 + d) c = header b (t + d) c.
Proof.
  rewrite <- (header_mod b (t mod 2 ^ 32 + d) c), <- (header_mod b (t + d) c).
  now rewrite Zplus_mod_idemp_l.
Qed.

(** Bytes past the header. *)
Lemma rd_body (b t c : Z) (r : list Z) (i : Z) :
  0 <= i -> rd (header b t c ++ r) (ZIPLIST_HEADER_SIZE + i) = rd r i.
Proof. intros Hi. now apply (rd_app_r (header b t c) r i). Qed.

(** ** Splitting a layout *)

(** The length of the last entry of [es], or [prev] for no entry. *)
Definition plast (prev : Z) (es : list entry) : Z :=
  fold_left (fun _ e => elen e) es prev.

Lemma plast_app (prev : Z) (a b : list entry) :
  plast prev (a ++ b) = plast (plast prev a) b.
Proof. apply fold_left_app. Qed.

Lemma layout_app (prev : Z) (a b : list entry) :
  layout prev (a ++ b) = layout prev a ++ layout (plast prev a) b.
Proof.
  revert prev. induction a as [ | e r IH ]; intros prev; [ reflexivity | ].
  cbn [app layout]. rewrite IH, <- app_assoc. reflexivity.
Qed.

Lemma chain_ok_app (prev : Z) (a b : list entry) :
  chain_ok prev (a ++ b) = chain_ok prev a && chain_ok (plast prev a) b.
Proof.
  revert prev. induction a as [ | e r IH ]; intros prev; [ reflexivity | ].
  cbn [app chain_ok]. rewrite IH, andb_assoc. reflexivity.
Qed.

Lemma plast_nonneg (prev : Z) (es : list entry) :
  0 <= prev -> 0 <= plast prev es.
Proof.
  revert prev. induction es as [ | e r IH ]; intros prev Hp; [ exact Hp | ].
  apply IH. unfold elen. destruct (large e); cbn [pls]; lia.
Qed.

Lemma plast_le (prev : Z) (es : list entry) :
  plast prev es <= Z.max prev (sum_len es).
Proof.
  revert prev. induction es as [ | e r IH ]; intros prev.
  - cbn. lia.
  - change (plast prev (e :: r)) with (plast (elen e) r).
    cbn [sum_len]. specialize (IH (elen e)).
    assert (H := sum_len_nonneg r).
    assert (He : 0 <= elen e) by (unfold elen; destruct (large e); cbn [pls]; lia).
    lia.
Qed.

Lemma firstn_S_nth (es : list entry) (k : nat) (d : entry) :
  (k < length es)%nat -> firstn (S k) es = firstn k es ++ [nth k es d].
Proof.
  revert k. induction es as [ | e r IH ]; intros k Hk; [ simpl in Hk; lia | ].
  destruct k as [ | k ]; [ reflexivity | ].
  cbn [firstn nth app]. f_equal. apply IH. simpl in Hk. lia.
Qed.

Lemma split_nth (es : list entry) (k : nat) (d : entry) :
  (k < length es)%nat ->
  es = firstn k es ++ nth k es d :: skipn (S k) es.
Proof.
  revert k. induction es as [ | e r IH ]; intros k Hk; [ simpl in Hk; lia | ].
  destruct k as [ | k ]; [ reflexivity | ].
  cbn [firstn nth skipn app]. f_equal. apply IH. simpl in Hk. lia.
Qed.

(** The offset of entry number [k]. *)
Definition entry_off (es : list entry) (k : nat) : Z :=
  ZIPLIST_HEADER_SIZE + sum_len (firstn k es).

(** The value of the [prevlen] field of entry number [k]. *)
Definition entry_prev (es : list entry) (k : nat) : Z :=
  plast 0 (firstn k es).

Definition dummy : entry := mk_entry false [].

Lemma layout_nth (prev : Z) (es : list entry) (k : nat) :
  (k < length es)%nat ->
  layout prev es =
  layout prev (firstn k es)
  ++ entry_bytes (plast prev (firstn k es)) (nth k es dummy)
  ++ layout (elen (nth k es dummy)) (skipn (S k) es).
Proof.
  intros Hk. rewrite (split_nth es k dummy Hk) at 1.
  rewrite layout_app. reflexivity.
Qed.

Lemma ziplist_of_entry_at (c : Z) (es : list entry) (k : nat) :
  (k < length es)%nat ->
  entry_at (ziplist_of c es) (entry_off es k) (entry_prev es k)
           (nth k es dummy).
Proof.
  intros Hk. unfold entry_at, ziplist_of.
  rewrite (layout_nth 0 es k Hk).
  eexists (header _ _ c ++ layout 0 (firstn k es)), _.
  split.
  - rewrite <- !app_assoc. reflexivity.
  - unfold entry_off. rewrite length_app, Nat2Z.inj_add, layout_length.
    reflexivity.
Qed.

Lemma chain_ok_nth (es : list entry) (k : nat) :
  chain_ok 0 es = true -> (k < length es)%nat ->
  0 <= entry_prev es k /\
  (large (nth k es dummy) = false -> entry_prev es k < ZIP_BIGLEN) /\
  body_ok (body (nth k es dummy)) = true.
Proof.
  intros Hc Hk. rewrite (split_nth es k dummy Hk) in Hc.
  rewrite chain_ok_app in Hc. apply andb_true_iff in Hc.
  destruct Hc as [_ Hc]. apply chain_ok_cons in Hc.
  unfold entry_prev. tauto.
Qed.

Lemma sum_len_firstn_le (es : list entry) (k : nat) :
  sum_len (firstn k es) <= sum_len es.
Proof.
  rewrite <- (firstn_skipn k es) at 2. rewrite sum_len_app.
  assert (H := sum_len_nonneg (skipn k es)). lia.
Qed.

Lemma entry_prev_bound (es : list entry) (k : nat) :
  0 <= entry_prev es k <= sum_len es.
Proof.
  unfold entry_prev. split; [ apply plast_nonneg; lia | ].
  assert (H1 := plast_le 0 (firstn k es)).
  assert (H2 := sum_len_firstn_le es k).
  assert (H3 := sum_len_nonneg (firstn k es)). lia.
Qed.

Lemma entry_off_S (es : list entry) (k : nat) :
  (k < length es)%nat ->
  entry_off es (S k) = entry_off es k + elen (nth k es dummy).
Proof.
  intros Hk. unfold entry_off.
  rewrite (firstn_S_nth es k dummy Hk).
  rewrite sum_len_app. cbn [sum_len]. lia.
Qed.

Lemma entry_prev_S (es : list entry) (k : nat) :
  (k < length es)%nat ->
  entry_prev es (S k) = elen (nth k es dummy).
Proof.
  intros Hk. unfold entry_prev.
  rewrite (firstn_S_nth es k dummy Hk).
  rewrite plast_app. reflexivity.
Qed.

Lemma elen_nth_le (es : list entry) (k : nat) :
  (k < length es)%nat -> elen (nth k es dummy) <= sum_len es.
Proof.
  intros Hk. rewrite (split_nth es k dummy Hk) at 2.
  rewrite sum_len_app. cbn [sum_len].
  assert (H1 := sum_len_nonneg (firstn k es)).
  assert (H2 := sum_len_nonneg (skipn (S k) es)). lia.
Qed.

(** The terminator. *)
Lemma ziplist_of_end (c : Z) (es : list entry) :
  rd (ziplist_of c es) (entry_off es (length es)) = ZIP_END.
Proof.
  unfold ziplist_of, entry_off. rewrite firstn_all.
  rewrite rd_body by apply sum_len_nonneg.
  rewrite <- (layout_length 0 es).
  replace (zlen (layout 0 es)) with (zlen (layout 0 es) + 0) by lia.
  rewrite rd_app_r by lia. reflexivity.
Qed.

Lemma ziplist_of_length (c : Z) (es : list entry) :
  zlen (ziplist_of c es) = ZIPLIST_HEADER_SIZE + sum_len es + 1.
Proof.
  unfold ziplist_of. rewrite !length_app, !Nat2Z.inj_add, layout_length.
  rewrite header_length. cbn [length]. unfold ZIPLIST_HEADER_SIZE. lia.
Qed.

(** ** Reading a well-formed list *)

Lemma chain_ok_count (prev : Z) (es : list entry) :
  chain_ok prev es = true -> 2 * zlen es <= sum_len es.
Proof.
  revert prev. induction es as [ | e r IH ]; intros prev H; [ simpl; lia | ].
  apply chain_ok_cons in H. destruct H as (_ & _ & Hb & Hr).
  apply IH in Hr. apply elen_ge_2 in Hb.
  cbn [sum_len length]. lia.
Qed.

Section Reading.

Variables (c : Z) (es : list entry).
Hypothesis Hok : ziplist_ok c es.

Let zl := ziplist_of c es.
Let n := length es.

Lemma ok_bytes : ZIPLIST_BYTES zl = ZIPLIST_HEADER_SIZE + sum_len es + 1.
Proof using Hok.
  unfold zl, ziplist_of. rewrite ZIPLIST_BYTES_header.
  destruct Hok as (_ & Hb & _). assert (H := sum_len_nonneg es).
  apply Z.mod_small. unfold ZIPLIST_HEADER_SIZE in *. lia.
Qed.

Lemma ok_tail : ZIPLIST_TAIL_OFFSET zl = entry_off es (pred n).
Proof using Hok.
  unfold zl, ziplist_of. rewrite ZIPLIST_TAIL_OFFSET_header.
  destruct Hok as (_ & Hb & _).
  unfold entry_off, n. rewrite <- removelast_firstn_len.
  assert (H1 := sum_len_nonneg (removelast es)).
  assert (H2 := sum_len_firstn_le es (pred (length es))).
  rewrite <- removelast_firstn_len in H2.
  apply Z.mod_small. unfold ZIPLIST_HEADER_SIZE in *. lia.
Qed.

Lemma ok_length : ZIPLIST_LENGTH zl = c.
Proof using Hok.
  unfold zl, ziplist_of. rewrite ZIPLIST_LENGTH_header.
  destruct Hok as (_ & _ & Hc & _).
  apply Z.mod_small. unfold UINT16_MAX in *. change (2 ^ 16) with 65536. lia.
Qed.

Lemma ok_not_end (k : nat) :
  (k < n)%nat -> (rd zl (entry_off es k) =? ZIP_END) = false.
Proof using Hok.
  intros Hk. destruct Hok as (Hc & _).
  destruct (chain_ok_nth es k Hc Hk) as (H1 & H2 & H3).
  eapply entry_at_not_end; eauto. now apply ziplist_of_entry_at.
Qed.

Lemma ok_end : (rd zl (entry_off es n) =? ZIP_END) = true.
Proof using Hok.
  unfold zl, n. rewrite ziplist_of_end. reflexivity.
Qed.

Lemma ok_rawlen (k : nat) :
  (k < n)%nat -> zipRawEntryLength zl (entry_off es k) = elen (nth k es dummy).
Proof using Hok.
  intros Hk. destruct Hok as (Hc & Hb & _).
  destruct (chain_ok_nth es k Hc Hk) as (H1 & H2 & H3).
  eapply entry_at_rawlen; eauto.
  - now apply ziplist_of_entry_at.
  - assert (H := elen_nth_le es k Hk). unfold ZIPLIST_HEADER_SIZE in *. lia.
Qed.

Lemma ok_prevlen (k : nat) :
  (k < n)%nat ->
  ZIP_DECODE_PREVLEN zl (entry_off es k)
  = (pls (large (nth k es dummy)), entry_prev es k).
Proof using Hok.
  intros Hk. destruct Hok as (Hc & Hb & _).
  destruct (chain_ok_nth es k Hc Hk) as (H1 & H2 & H3).
  eapply entry_at_prevlen; eauto.
  - now apply ziplist_of_entry_at.
  - assert (H := entry_prev_bound es k). unfold ZIPLIST_HEADER_SIZE in *. lia.
Qed.

Lemma ok_zipEntry (k : nat) :
  (k < n)%nat ->
  exists enc lsz l,
    ZIP_DECODE_LENGTH (body (nth k es dummy)) 0 = (enc, lsz, l) /\
    zipEntry zl (entry_off es k)
    = mk_zlentry (pls (large (nth k es dummy))) (entry_prev es k) lsz l
                 (pls (large (nth k es dummy)) + lsz) enc (entry_off es k) /\
    pls (large (nth k es dummy)) + lsz + l = elen (nth k es dummy) /\
    1 <= lsz /\ 0 <= l.
Proof using Hok.
  intros Hk. destruct Hok as (Hc & Hb & _).
  destruct (chain_ok_nth es k Hc Hk) as (H1 & H2 & H3).
  eapply entry_at_zipEntry; eauto.
  - now apply ziplist_of_entry_at.
  - assert (H := entry_prev_bound es k). unfold ZIPLIST_HEADER_SIZE in *. lia.
Qed.

Lemma ok_count_bound : 2 * Z.of_nat n <= sum_len es.
Proof using Hok.
  destruct Hok as (Hc & _). now apply chain_ok_count in Hc.
Qed.

Lemma len_walk_ok (m : nat) :
  forall (k fuel : nat) (acc : Z),
    (k + m = n)%nat -> (m < fuel)%nat -> 0 <= acc ->
    acc + Z.of_nat m < 2 ^ 32 ->
    len_walk fuel zl (entry_off es k) acc = Some (acc + Z.of_nat m).
Proof using Hok.
  induction m as [ | m IH ]; intros k fuel acc Hk Hf Ha Hb;
    (destruct fuel as [ | fuel ]; [ lia | ]); cbn [len_walk].
  - replace k with n by lia. rewrite ok_end. cbn [negb]. f_equal. lia.
  - rewrite ok_not_end by lia. cbn [negb].
    rewrite ok_rawlen, <- entry_off_S by (unfold n in *; lia).
    unfold u32, uint. rewrite Z.mod_small by lia.
    rewrite IH by lia. f_equal. lia.
Qed.

Lemma index_fwd_ok (m : nat) :
  forall (k fuel : nat) (j : Z),
    (k + m = n)%nat -> (m < fuel)%nat -> 0 <= j ->
    index_fwd fuel zl (entry_off es k) j
    = Some (if j <? Z.of_nat m
            then (entry_off es (k + Z.to_nat j), -1)
            else (entry_off es n, j - Z.of_nat m)).
Proof using Hok.
  induction m as [ | m IH ]; intros k fuel j Hk Hf Hj;
    (destruct fuel as [ | fuel ]; [ lia | ]); cbn [index_fwd].
  - replace k with n by lia. rewrite ok_end. cbn [negb].
    destruct (Z.ltb_spec j (Z.of_nat 0)); [ lia | ].
    do 2 f_equal. lia.
  - rewrite ok_not_end by lia. cbn [negb].
    destruct (Z.eqb_spec j 0) as [ -> | Hj0 ]; cbn [negb].
    + destruct (Z.ltb_spec 0 (Z.of_nat (S m))); [ | lia ].
      do 3 f_equal. simpl. lia.
    + rewrite ok_rawlen, <- entry_off_S by (unfold n in *; lia).
      rewrite IH by lia.
      destruct (Z.ltb_spec (j - 1) (Z.of_nat m));
        destruct (Z.ltb_spec j (Z.of_nat (S m))); try lia.
      * do 3 f_equal. lia.
      * do 2 f_equal. lia.
Qed.

Lemma index_back_ok (k : nat) :
  forall (fuel : nat) (j : Z),
    (k < n)%nat -> (k < fuel)%nat -> 0 <= j ->
    index_back fuel zl (entry_off es k) (entry_prev es k) j
    = Some (if j <? Z.of_nat k then (entry_off es (k - Z.to_nat j), -1)
            else (entry_off es 0, j - Z.of_nat k)).
Proof using Hok.
  induction k as [ | k IH ]; intros fuel j Hk Hf Hj;
    (destruct fuel as [ | fuel ]; [ lia | ]); cbn [index_back].
  - change (entry_prev es 0) with 0. cbn [Z.gtb Z.compare].
    destruct (Z.ltb_spec j (Z.of_nat 0)); [ lia | ].
    do 2 f_equal. lia.
  - assert (Hp : entry_prev es (S k) = elen (nth k es dummy))
      by (apply entry_prev_S; unfold n in *; lia).
    assert (He : 2 <= elen (nth k es dummy)).
    { apply elen_ge_2. destruct Hok as (Hc & _).
      apply (chain_ok_nth es k Hc). unfold n in *. lia. }
    destruct (Z.gtb_spec (entry_prev es (S k)) 0); [ | lia ].
    destruct (Z.eqb_spec j 0) as [ -> | Hj0 ]; cbn [negb].
    + destruct (Z.ltb_spec 0 (Z.of_nat (S k))); [ | lia ].
      do 3 f_equal.
    + replace (entry_off es (S k) - entry_prev es (S k))
        with (entry_off es k)
        by (rewrite entry_off_S, Hp by (unfold n in *; lia); lia).
      rewrite ok_prevlen by lia. cbn [snd].
      rewrite IH by lia.
      destruct (Z.ltb_spec (j - 1) (Z.of_nat k));
        destruct (Z.ltb_spec j (Z.of_nat (S k))); try lia.
      * do 3 f_equal. lia.
      * do 2 f_equal. lia.
Qed.

End Reading.

(** ** [ziplistIndex] *)

(** The entry that [ziplistIndex] gives on a well-formed blob. *)
Lemma ziplistIndex_ok (c : Z) (es : list entry) (i : Z) :
  ziplist_ok c es ->
  ziplistIndex (ziplist_of c es) i
  = Some (if (- zlen es <=? i) && (i <=? zlen es - 1)
          then Some (entry_off es (Z.to_nat (if i <? 0 then zlen es + i else i)))
          else None).
Proof.
  intros Hok. unfold ziplistIndex.
  assert (Hn := ok_count_bound c es Hok).
  assert (Hlen := ziplist_of_length c es).
  assert (Hs := sum_len_nonneg es).
  unfold ZIPLIST_HEADER_SIZE in Hlen.
  destruct (Z.ltb_spec i 0) as [ Hneg | Hpos ].
  - (* from the tail *)
    unfold ZIPLIST_ENTRY_TAIL. rewrite (ok_tail c es Hok).
    destruct es as [ | e0 r ] eqn:Ees.
    + assert (He := ok_end c [] Hok). cbn [length] in He.
      cbn [length pred]. rewrite He. cbn [negb obind].
      rewrite He. cbn [orb].
      destruct (Z.leb_spec (- Z.of_nat 0) i); [ lia | reflexivity ].
    + rewrite <- Ees in *.
      assert (Hn1 : (pred (length es) < length es)%nat)
        by (subst es; simpl; lia).
      rewrite (ok_not_end c es Hok) by exact Hn1. cbn [negb].
      rewrite (ok_prevlen c es Hok) by exact Hn1. cbn [snd].
      rewrite (index_back_ok c es Hok) by lia. cbn [obind].
      destruct (Z.ltb_spec (- i - 1) (Z.of_nat (pred (length es)))).
      * rewrite (ok_not_end c es Hok) by lia. cbn [orb Z.gtb Z.compare].
        destruct (Z.leb_spec (- zlen es) i); [ | lia ].
        destruct (Z.leb_spec i (zlen es - 1)); [ | lia ].
        cbn [andb]. do 3 f_equal. lia.
      * rewrite (ok_not_end c es Hok) by lia. cbn [orb].
        destruct (Z.gtb_spec (- i - 1 - Z.of_nat (pred (length es))) 0).
        -- destruct (Z.leb_spec (- zlen es) i); [ lia | reflexivity ].
        -- destruct (Z.leb_spec (- zlen es) i); [ | lia ].
           destruct (Z.leb_spec i (zlen es - 1)); [ | lia ].
           cbn [andb]. do 3 f_equal. lia.
  - (* from the head *)
    unfold ZIPLIST_ENTRY_HEAD.
    change ZIPLIST_HEADER_SIZE with (entry_off es 0).
    rewrite (index_fwd_ok c es Hok (length es)) by lia. cbn [obind].
    destruct (Z.ltb_spec i (zlen es)).
    + rewrite (ok_not_end c es Hok) by lia. cbn [orb Z.gtb Z.compare].
      destruct (Z.leb_spec (- zlen es) i); [ | lia ].
      destruct (Z.leb_spec i (zlen es - 1)); [ | lia ].
      reflexivity.
    + rewrite (ok_end c es Hok). cbn [orb].
      destruct (Z.leb_spec i (zlen es - 1)); [ lia | ].
      now rewrite andb_false_r.
Qed.

(** C8: on a list of [n] entries [ziplistIndex] gives the entry at [i] for
    [0 <= i <= n-1], the entry at [n + i] for [-n <= i <= -1], and NULL for
    every other index; on the empty list it gives NULL for every index.  The
    function does not write to the blob. *)
Theorem ziplistIndex_range (c : Z) (es : list entry) (i : Z) :
  ziplist_ok c es ->
  ziplistIndex (ziplist_of c es) i
  = Some (if (- zlen es <=? i) && (i <=? zlen es - 1)
          then Some (entry_off es (Z.to_nat (if i <? 0 then zlen es + i else i)))
          else None).
Proof. apply ziplistIndex_ok. Qed.

(** A list of two entries, the string "ab" and the integer 1. *)
Definition two_entries : list entry :=
  [mk_entry false [2; 97; 98]; mk_entry false [0xf2]].

Lemma two_entries_ok : ziplist_ok 2 two_entries.
Proof.
  repeat split; try reflexivity; try (intros _; reflexivity);
    unfold UINT16_MAX; lia.
Qed.

Lemma ziplistIndex_range_witness :
  ziplist_ok 2 two_entries /\
  ziplistIndex (ziplist_of 2 two_entries) (-1) = Some (Some 14).
Proof.
  split; [ exact two_entries_ok | ].
  apply (ziplistIndex_range 2 two_entries (-1)). exact two_entries_ok.
Defined.

(** ** [ziplistLen] and the count field *)

Lemma ZIPLIST_INCR_LENGTH_header (b t c incr : Z) (r : list Z) :
  0 <= c <= UINT16_MAX ->
  ZIPLIST_INCR_LENGTH (header b t c ++ r) incr
  = header b t (if c <? UINT16_MAX then c + incr else c) ++ r.
Proof.
  intros Hc. unfold ZIPLIST_INCR_LENGTH. rewrite ZIPLIST_LENGTH_header.
  rewrite Z.mod_small
    by (unfold UINT16_MAX in *; change (2 ^ 16) with 65536; lia).
  destruct (c <? UINT16_MAX); [ | reflexivity ].
  apply set_ZIPLIST_LENGTH_header.
Qed.

Lemma ZIPLIST_INCR_LENGTH_of (c incr : Z) (es : list entry) :
  0 <= c <= UINT16_MAX ->
  ZIPLIST_INCR_LENGTH (ziplist_of c es) incr
  = ziplist_of (if c <? UINT16_MAX then c + incr else c) es.
Proof. intros Hc. unfold ziplist_of. now apply ZIPLIST_INCR_LENGTH_header. Qed.

(** [n] increments by one of the count field [c] leave [c + n], or 0xFFFF
    when that is more. *)
Lemma ZIPLIST_INCR_LENGTH_iter (c : Z) (es : list entry) (n : nat) :
  0 <= c <= UINT16_MAX ->
  Nat.iter n (fun z => ZIPLIST_INCR_LENGTH z 1) (ziplist_of c es)
  = ziplist_of (Z.min (c + Z.of_nat n) UINT16_MAX) es.
Proof.
  intros Hc. induction n as [ | n IH ].
  - replace (Z.min (c + Z.of_nat 0) UINT16_MAX) with c by lia.
    reflexivity.
  - rewrite Nat.iter_succ, IH, ZIPLIST_INCR_LENGTH_of by lia.
    f_equal.
    destruct (Z.ltb_spec (Z.min (c + Z.of_nat n) UINT16_MAX) UINT16_MAX); lia.
Qed.

(** C7: the count field saturates at 0xFFFF: below 0xFFFF the macro
    [ZIPLIST_INCR_LENGTH] adds the increment to the field, so that the
    field follows the number of entries up to 0xFFFF; at 0xFFFF it leaves
    the field as it is, whatever the increment; [n] increments by one take
    the field from [c] to [c + n], or to 0xFFFF when that is more.
    [ziplistLen] answers from the field when it is below 0xFFFF and walks
    the entries when it is 0xFFFF; the walk gives the number of entries,
    whether that is 0xFFFF, more or less, and stores it into the field
    when it is below 0xFFFF. *)
Theorem ziplistLen_saturation (c : Z) (es : list entry) :
  ziplist_ok c es ->
  let zl := ziplist_of c es in
  (c = UINT16_MAX -> ZIPLIST_INCR_LENGTH zl 1 = zl) /\
  (c < UINT16_MAX -> ziplistLen zl = Some (zl, c) /\ c = zlen es) /\
  (c = UINT16_MAX ->
   len_walk (S (length zl)) zl ZIPLIST_HEADER_SIZE 0 = Some (zlen es) /\
   ziplistLen zl
   = Some (ziplist_of (if zlen es <? UINT16_MAX then zlen es else c) es,
           zlen es)) /\
  (forall incr : Z, c = UINT16_MAX -> ZIPLIST_INCR_LENGTH zl incr = zl) /\
  (forall incr : Z,
      c < UINT16_MAX -> 0 <= c + incr <= UINT16_MAX ->
      ZIPLIST_INCR_LENGTH zl incr = ziplist_of (c + incr) es /\
      ZIPLIST_LENGTH (ZIPLIST_INCR_LENGTH zl incr) = c + incr) /\
  (forall n : nat,
      Nat.iter n (fun z => ZIPLIST_INCR_LENGTH z 1) zl
      = ziplist_of (Z.min (c + Z.of_nat n) UINT16_MAX) es /\
      ZIPLIST_LENGTH (Nat.iter n (fun z => ZIPLIST_INCR_LENGTH z 1) zl)
      = Z.min (c + Z.of_nat n) UINT16_MAX).
Proof.
  intros Hok zl.
  assert (Hn := ok_count_bound c es Hok).
  assert (Hlen := ziplist_of_length c es).
  assert (Hs := sum_len_nonneg es).
  assert (Hb : ZIPLIST_HEADER_SIZE + sum_len es + 1 < 2 ^ 32)
    by (destruct Hok as (_ & Hb & _); exact Hb).
  assert (Hcr : 0 <= c <= UINT16_MAX)
    by (destruct Hok as (_ & _ & Hcr & _); exact Hcr).
  unfold ZIPLIST_HEADER_SIZE in Hlen, Hb.
  assert (Hw : len_walk (S (length zl)) zl ZIPLIST_HEADER_SIZE 0
               = Some (zlen es)).
  { change ZIPLIST_HEADER_SIZE with (entry_off es 0).
    subst zl. rewrite (len_walk_ok c es Hok (length es)); auto; lia. }
  assert (Hfield : forall v : Z,
             0 <= v <= UINT16_MAX -> ZIPLIST_LENGTH (ziplist_of v es) = v).
  { intros v Hv. unfold ziplist_of. rewrite ZIPLIST_LENGTH_header.
    apply Z.mod_small. unfold UINT16_MAX in Hv.
    change (2 ^ 16) with 65536. lia. }
  split; [ | split; [ | split; [ | split; [ | split ] ] ] ].
  - intros Hc. unfold ZIPLIST_INCR_LENGTH. subst zl.
    rewrite (ok_length c es Hok), Hc. reflexivity.
  - intros Hc. split; [ | destruct Hok as (_ & _ & _ & H); now apply H ].
    unfold ziplistLen. subst zl. rewrite (ok_length c es Hok).
    destruct (Z.ltb_spec c UINT16_MAX); [ reflexivity | lia ].
  - intros Hc. split; [ exact Hw | ].
    unfold ziplistLen. rewrite Hw. subst zl. rewrite (ok_length c es Hok).
    destruct (Z.ltb_spec c UINT16_MAX); [ lia | ]. cbn [obind].
    destruct (zlen es <? UINT16_MAX); [ | reflexivity ].
    unfold ziplist_of. now rewrite set_ZIPLIST_LENGTH_header.
  - intros incr Hc. unfold ZIPLIST_INCR_LENGTH. subst zl.
    rewrite (ok_length c es Hok), Hc. reflexivity.
  - intros incr Hc Hi. subst zl.
    rewrite (ZIPLIST_INCR_LENGTH_of c incr es Hcr).
    destruct (Z.ltb_spec c UINT16_MAX); [ | lia ].
    split; [ reflexivity | exact (Hfield (c + incr) Hi) ].
  - intros n. subst zl. rewrite (ZIPLIST_INCR_LENGTH_iter c es n Hcr).
    split; [ reflexivity | apply Hfield; lia ].
Qed.

Lemma two_entries_saturated_ok : ziplist_ok UINT16_MAX two_entries.
Proof.
  repeat split; try reflexivity; unfold UINT16_MAX; lia.
Qed.

Lemma ziplistLen_saturation_witness :
  ziplist_ok UINT16_MAX two_entries /\
  ziplistLen (ziplist_of UINT16_MAX two_entries)
  = Some (ziplist_of 2 two_entries, 2) /\
  ZIPLIST_LENGTH (Nat.iter 3 (fun z => ZIPLIST_INCR_LENGTH z 1)
                    (ziplist_of UINT16_MAX two_entries))
  = Z.min (UINT16_MAX + Z.of_nat 3) UINT16_MAX.
Proof.
  split; [ exact two_entries_saturated_ok | ].
  destruct (ziplistLen_saturation UINT16_MAX two_entries
              two_entries_saturated_ok) as (_ & _ & H3 & _ & _ & H6).
  split.
  - apply H3. reflexivity.
  - apply (H6 3%nat).
Defined.

(** ** The operations on layouts *)

(** The cascade from an entry of length [L] on: the entries whose 1 byte
    [prevlen] field cannot hold the length of the entry before grow to the
    5 byte field; a 5 byte field is never shrunk. *)
Fixpoint cascade (L : Z) (es : list entry) : list entry :=
  match es with
  | [] => []
  | e :: r =>
    if large e then e :: r
    else if L <? ZIP_BIGLEN then e :: r
    else mk_entry true (body e) :: cascade (5 + zlen (body e)) r
  end.

(** The entries after an inserted entry or after a deleted run: the first
    one takes the smallest [prevlen] field that holds [L], the cascade
    follows. *)
Definition refit (L : Z) (es : list entry) : list entry :=
  match es with
  | [] => []
  | e :: r =>
    let e' := mk_entry (negb (L <? ZIP_BIGLEN)) (body e) in
    e' :: cascade (elen e') r
  end.

Lemma elen_nonneg (e : entry) : 0 <= elen e.
Proof. unfold elen. destruct (large e); cbn [pls]; lia. Qed.

Lemma cascade_length (L : Z) (es : list entry) :
  length (cascade L es) = length es.
Proof.
  revert L. induction es as [ | e r IH ]; intros L; [ reflexivity | ].
  cbn [cascade]. destruct (large e); [ reflexivity | ].
  destruct (L <? ZIP_BIGLEN); [ reflexivity | ].
  cbn [length]. now rewrite IH.
Qed.

Lemma cascade_sum (L : Z) (es : list entry) :
  sum_len es <= sum_len (cascade L es) <= sum_len es + 4 * zlen es.
Proof.
  revert L. induction es as [ | e r IH ]; intros L; [ simpl; lia | ].
  cbn [cascade]. destruct (large e) eqn:El.
  - cbn [sum_len length]. lia.
  - destruct (L <? ZIP_BIGLEN).
    + cbn [sum_len length]. lia.
    + cbn [sum_len length]. specialize (IH (5 + zlen (body e))).
      assert (He : elen (mk_entry true (body e)) = elen e + 4)
        by (unfold elen; rewrite El; cbn [large body pls]; lia).
      lia.
Qed.

Lemma cascade_id (L : Z) (es : list entry) :
  chain_ok L es = true -> cascade L es = es.
Proof.
  destruct es as [ | e r ]; [ reflexivity | ].
  intros H. apply chain_ok_cons in H. destruct H as (_ & H & _).
  cbn [cascade]. destruct (large e); [ reflexivity | ].
  specialize (H eq_refl).
  destruct (Z.ltb_spec L ZIP_BIGLEN); [ reflexivity | lia ].
Qed.

Lemma chain_ok_cascade (L Lold : Z) (es : list entry) :
  0 <= L -> chain_ok Lold es = true -> chain_ok L (cascade L es) = true.
Proof.
  revert L Lold. induction es as [ | e r IH ]; intros L Lold HL H;
    [ reflexivity | ].
  apply chain_ok_cons in H. destruct H as (H1 & H2 & H3 & H4).
  cbn [cascade]. destruct (large e) eqn:El.
  - apply chain_ok_cons. rewrite El. repeat split; auto. discriminate.
  - destruct (Z.ltb_spec L ZIP_BIGLEN).
    + apply chain_ok_cons. repeat split; auto.
    + apply chain_ok_cons. cbn [large body]. repeat split; auto.
      * discriminate.
      * unfold elen at 1. cbn [large body pls]. eapply IH; eauto. lia.
Qed.

Lemma chain_ok_refit (L Lold : Z) (es : list entry) :
  0 <= L -> chain_ok Lold es = true -> chain_ok L (refit L es) = true.
Proof.
  intros HL H. destruct es as [ | e r ]; [ reflexivity | ].
  apply chain_ok_cons in H. destruct H as (H1 & H2 & H3 & H4).
  cbn [refit]. apply chain_ok_cons. cbn [large body].
  repeat split; auto.
  - destruct (Z.ltb_spec L ZIP_BIGLEN); [ auto | discriminate ].
  - eapply chain_ok_cascade; eauto. apply elen_nonneg.
Qed.

Lemma sum_len_removelast_cons (e : entry) (r : list entry) :
  sum_len (removelast (e :: r))
  = match r with [] => 0 | _ => elen e + sum_len (removelast r) end.
Proof. destruct r; reflexivity. Qed.

(** More on memory. *)

Ltac list_eq :=
  repeat first [ rewrite <- app_assoc | progress cbn [app] ]; reflexivity.

Lemma sub_exact (l a b c : list Z) (q n : Z) :
  l = a ++ b ++ c -> q = zlen a -> n = zlen b -> sub l q n = b.
Proof.
  intros -> -> ->. rewrite (sub_at _ a (b ++ c) _ 0) by (auto; lia).
  now apply sub_0_app.
Qed.

Lemma memcpy_in (l a x : list Z) (q i : Z) (bs : list Z) :
  l = a ++ x -> q = zlen a + i -> 0 <= i -> i + zlen bs <= zlen x ->
  memcpy l q bs
  = a ++ firstn (Z.to_nat i) x ++ bs ++ skipn (Z.to_nat i + length bs) x.
Proof.
  intros -> -> Hi Hl. rewrite memcpy_app_r by lia. f_equal.
  unfold memcpy. apply firstn_all2.
  rewrite !length_app, length_firstn, length_skipn. lia.
Qed.

Lemma firstn_app_exact {A : Type} (a b : list A) (n : nat) :
  n = length a -> firstn n (a ++ b) = a.
Proof.
  intros ->. rewrite firstn_app, firstn_all, Nat.sub_diag. simpl.
  apply app_nil_r.
Qed.

Lemma skipn_app_exact {A : Type} (a b : list A) (n : nat) :
  n = length a -> skipn n (a ++ b) = b.
Proof.
  intros ->. rewrite skipn_app, skipn_all, Nat.sub_diag. reflexivity.
Qed.

Lemma ziplistResize_grow (b t c : Z) (r : list Z) (k : nat) (l : Z) :
  l = 10 + zlen r + 1 + Z.of_nat (S k) ->
  ziplistResize (header b t c ++ r ++ [ZIP_END]) l
  = header l t c ++ r ++ [ZIP_END] ++ repeat 0 k ++ [ZIP_END].
Proof.
  intros Hl. unfold ziplistResize.
  rewrite zrealloc_grow
    by (rewrite !length_app, header_length; cbn [length]; lia).
  replace (Z.to_nat (l - zlen (header b t c ++ r ++ [ZIP_END]))) with (S k)
    by (rewrite !length_app, header_length; cbn [length]; lia).
  rewrite <- app_assoc, set_ZIPLIST_BYTES_header.
  replace (repeat 0 (S k)) with (repeat 0 k ++ [0])
    by (now rewrite <- repeat_cons).
  rewrite (memcpy_exact _ (header l t c ++ r ++ [ZIP_END] ++ repeat 0 k) [0] []
             _ [ZIP_END]).
  - now rewrite <- !app_assoc.
  - now rewrite <- !app_assoc.
  - rewrite !length_app, header_length, repeat_length. cbn [length]. lia.
  - reflexivity.
Qed.

(** ** [__ziplistCascadeUpdate] on a layout *)

Lemma zipPrevEncodeLength_buf_field (L : Z) :
  zipPrevEncodeLength_buf L = prev_field (negb (L <? ZIP_BIGLEN)) L.
Proof.
  unfold zipPrevEncodeLength_buf, prev_field.
  destruct (L <? ZIP_BIGLEN); reflexivity.
Qed.

Lemma zipPrevEncodeLength_size_pls (L : Z) :
  zipPrevEncodeLength_size L = pls (negb (L <? ZIP_BIGLEN)).
Proof.
  unfold zipPrevEncodeLength_size.
  destruct (L <? ZIP_BIGLEN); reflexivity.
Qed.

(** The tail offset of a blob whose entries from [cur] on are [cur :: rest],
    relative to the offset of [cur]. *)
Definition tail_rel (cur : entry) (rest : list entry) : Z :=
  match rest with
  | [] => 0
  | _ => elen cur + sum_len (removelast rest)
  end.

Lemma entry_at_intro (zl pre : list Z) (prev : Z) (e : entry)
    (rest : list Z) (o : Z) :
  zl = pre ++ entry_bytes prev e ++ rest -> o = zlen pre ->
  entry_at zl o prev e.
Proof. intros H1 H2. now exists pre, rest. Qed.

Lemma cascade_loop_ok (rest : list entry) :
  forall (fuel : nat) (P : list Z) (cur : entry) (pv Lold T TL c : Z),
    (length rest < fuel)%nat ->
    body_ok (body cur) = true ->
    (large cur = false -> pv < ZIP_BIGLEN) -> 0 <= pv < 2 ^ 32 ->
    chain_ok Lold rest = true -> Lold < 2 ^ 32 ->
    T = 10 + zlen P + elen cur + sum_len rest + 1 ->
    10 + zlen P + elen cur + sum_len (cascade (elen cur) rest) + 1 < 2 ^ 32 ->
    TL = 10 + zlen P + tail_rel cur rest ->
    cascade_loop fuel
      (header T TL c ++ P ++ entry_bytes pv cur ++ layout Lold rest
       ++ [ZIP_END])
      (10 + zlen P) T
    = Some (header (10 + zlen P + elen cur
                    + sum_len (cascade (elen cur) rest) + 1)
                   (10 + zlen P + tail_rel cur (cascade (elen cur) rest)) c
            ++ P ++ entry_bytes pv cur
            ++ layout (elen cur) (cascade (elen cur) rest) ++ [ZIP_END]).
Proof.
  induction rest as [ | next rest' IH ];
    intros fuel P cur pv Lold T TL c Hfuel Hbody Hsmall Hpv Hchain HLold HT
           Hfit HTL;
    (destruct fuel as [ | fuel ]; [ simpl in Hfuel; lia | ]);
    cbn [cascade_loop].
  all: match goal with
       | |- context [ header ?t ?tl ?cc ++ ?pp ++ entry_bytes ?v ?cu ++ ?r ] =>
           set (R := r);
           set (zl := header t tl cc ++ pp ++ entry_bytes v cu ++ R)
       end.
  all: assert (Hcur : entry_at zl (10 + zlen P) pv cur)
    by (apply (entry_at_intro _ (header T TL c ++ P) _ _ R);
        [ subst zl; now rewrite <- !app_assoc
        | rewrite length_app, header_length; lia ]).
  all: assert (Hcl := elen_nonneg cur).
  all: match type of Hfit with
       | context [ cascade ?L ?r ] => assert (Hcs := cascade_sum L r)
       end.
  all: rewrite (entry_at_not_end _ _ _ _ Hcur) by (auto; lia).
  all: destruct (entry_at_zipEntry _ _ _ _ Hcur Hpv Hsmall Hbody)
    as (enc & lsz & l & _ & -> & Hel & Hlsz & Hl).
  all: cbn [headersize len].
  - (* no next entry *)
    replace (u32 (pls (large cur) + lsz + l)) with (elen cur)
      by (unfold u32, uint; rewrite Z.mod_small; cbn [sum_len] in *; lia).
    assert (Hend : rd zl (10 + zlen P + elen cur) = ZIP_END).
    { subst zl R. cbn [layout app].
      rewrite (rd_at _ (header T TL c ++ P ++ entry_bytes pv cur) [ZIP_END]
                 _ 0).
      - reflexivity.
      - now rewrite <- !app_assoc.
      - rewrite !length_app, header_length, !Nat2Z.inj_add, entry_bytes_length.
        lia.
      - lia. }
    rewrite Hend. cbn [Z.eqb ZIP_END Pos.eqb].
    subst zl R. cbn [cascade layout sum_len tail_rel app] in *.
    do 2 f_equal. subst T TL. f_equal; lia.
  - assert (Hs := sum_len_nonneg rest').
    replace (u32 (pls (large cur) + lsz + l)) with (elen cur)
      by (unfold u32, uint; rewrite Z.mod_small; cbn [sum_len] in *;
          assert (Hn := elen_nonneg next); lia).
    set (L := elen cur) in *.
    set (np := 10 + zlen P + L).
    set (H := header T TL c) in *.
    set (C := entry_bytes pv cur) in *.
    set (R' := layout (elen next) rest' ++ [ZIP_END]).
    apply chain_ok_cons in Hchain.
    destruct Hchain as (HLo & Hnsmall & Hnbody & Hchain').
    assert (HCl : zlen C = L) by apply entry_bytes_length.
    assert (Hzl : zl = (H ++ P ++ C) ++ entry_bytes Lold next ++ R').
    { subst zl R R'. cbn [layout]. now rewrite <- !app_assoc. }
    assert (Hnp : np = zlen (H ++ P ++ C)).
    { subst np H. rewrite !length_app, header_length. lia. }
    assert (Hnext : entry_at zl np Lold next)
      by (apply (entry_at_intro _ _ _ _ _ _ Hzl Hnp)).
    rewrite (entry_at_not_end _ _ _ _ Hnext) by (auto; lia).
    destruct (entry_at_zipEntry _ _ _ _ Hnext (conj HLo HLold) Hnsmall Hnbody)
      as (enc' & lsz' & l' & _ & -> & Hel' & Hlsz' & Hl').
    cbn [prevrawlen prevrawlensize].
    assert (Hsame : forall lg v,
               memcpy ((H ++ P ++ C) ++ prev_field lg Lold ++ body next ++ R')
                      np (prev_field lg v)
               = (H ++ P ++ C) ++ prev_field lg v ++ body next ++ R').
    { intros lg v. apply (memcpy_exact _ _ (prev_field lg Lold)); auto.
      apply Nat2Z.inj. now rewrite !prev_field_length. }
    assert (Hfin : forall es',
               sum_len es' = sum_len (next :: rest') ->
               tail_rel cur es' = tail_rel cur (next :: rest') ->
               (H ++ P ++ C) ++ layout L es' ++ [ZIP_END]
               = header (np + sum_len es' + 1)
                        (10 + zlen P + tail_rel cur es') c
                 ++ P ++ C ++ layout L es' ++ [ZIP_END]).
    { intros es' E1 E2. rewrite E1, E2, <- !app_assoc. subst H.
      do 2 f_equal; subst np; lia. }
    destruct (Z.eqb_spec Lold L) as [ HeqL | HneqL ].
    { (* the field already holds the length *)
      rewrite cascade_id
        by (apply chain_ok_cons; rewrite <- HeqL; auto).
      rewrite <- Hfin by reflexivity. subst zl R C. rewrite <- HeqL.
      now rewrite <- !app_assoc. }
    rewrite zipPrevEncodeLength_size_pls.
    assert (Hzl' : zl = (H ++ P ++ C) ++ prev_field (large next) Lold
                        ++ body next ++ R').
    { rewrite Hzl. unfold entry_bytes. now rewrite <- !app_assoc. }
    rewrite Hzl'.
    destruct (large next) eqn:Elg.
    { (* a 5 byte field is kept *)
      assert (Hc : cascade L (next :: rest') = next :: rest')
        by (cbn [cascade]; now rewrite Elg).
      rewrite Hc.
      assert (Hres : (H ++ P ++ C) ++ prev_field true L ++ body next ++ R'
                     = header (np + sum_len (next :: rest') + 1)
                         (10 + zlen P + tail_rel cur (next :: rest')) c
                       ++ P ++ C ++ layout L (next :: rest') ++ [ZIP_END]).
      { rewrite <- Hfin by reflexivity. cbn [layout]. unfold entry_bytes.
        rewrite Elg. subst R'. now rewrite <- !app_assoc. }
      destruct (Z.ltb_spec L ZIP_BIGLEN) as [ HL | HL ]; cbn [negb pls].
      - cbn [Z.ltb Z.gtb Z.compare Pos.compare Pos.compare_cont].
        unfold zipPrevEncodeLengthForceLarge.
        change (ZIP_BIGLEN :: le_bytes 4 L) with (prev_field true L).
        now rewrite Hsame, Hres.
      - cbn [Z.ltb Z.gtb Z.compare Pos.compare Pos.compare_cont].
        cbn [zipPrevEncodeLength fst].
        rewrite zipPrevEncodeLength_buf_field.
        destruct (Z.ltb_spec L ZIP_BIGLEN); [ lia | ]. cbn [negb].
        now rewrite Hsame, Hres. }
    specialize (Hnsmall eq_refl).
    destruct (Z.ltb_spec L ZIP_BIGLEN) as [ HL | HL ]; cbn [negb pls].
    { (* the 1 byte field holds the new length *)
      assert (Hc : cascade L (next :: rest') = next :: rest').
      { cbn [cascade]. rewrite Elg.
        destruct (Z.ltb_spec L ZIP_BIGLEN); [ reflexivity | lia ]. }
      rewrite Hc.
      cbn [Z.ltb Z.gtb Z.compare Pos.compare Pos.compare_cont].
      cbn [zipPrevEncodeLength fst].
      rewrite zipPrevEncodeLength_buf_field.
      destruct (Z.ltb_spec L ZIP_BIGLEN); [ | lia ]. cbn [negb].
      rewrite Hsame. rewrite <- Hfin by reflexivity.
      cbn [layout]. unfold entry_bytes. rewrite Elg. subst R'.
      now rewrite <- !app_assoc. }
    (* the field grows *)
    cbn [Z.ltb Z.compare Pos.compare Pos.compare_cont].
    change (5 - 1) with 4.
    set (Bn := body next) in *.
    set (R'' := layout (elen next) rest') in *.
    set (next' := mk_entry true Bn).
    assert (HR'' : zlen R'' = sum_len rest') by apply layout_length.
    assert (Hen : elen next = 1 + zlen Bn)
      by (unfold elen; now rewrite Elg).
    assert (Hen' : elen next' = 5 + zlen Bn) by reflexivity.
    assert (Hc : cascade L (next :: rest')
                 = next' :: cascade (elen next') rest').
    { cbn [cascade]. rewrite Elg.
      destruct (Z.ltb_spec L ZIP_BIGLEN); [ lia | reflexivity ]. }
    rewrite Hc in *. clear Hcs.
    assert (Hcs := cascade_sum (elen next') rest').
    cbn [sum_len length] in HT, Hfit.
    unfold u32, uint. rewrite (Z.mod_small (T + 4)) by lia.
    (* the blob grows by four bytes *)
    assert (Hr1 : ziplistResize
                    ((H ++ P ++ C) ++ prev_field false Lold ++ Bn ++ R')
                    (T + 4)
                  = header (T + 4) TL c
                    ++ (P ++ C ++ [Lold] ++ Bn ++ R'')
                    ++ [ZIP_END] ++ repeat 0 3 ++ [ZIP_END]).
    { rewrite <- (ziplistResize_grow T TL c _ 3 (T + 4)).
      - f_equal. subst H R'. cbn [prev_field]. now rewrite <- !app_assoc.
      - rewrite !length_app, !Nat2Z.inj_add, HCl, HR''. cbn [length]. lia. }
    rewrite Hr1. clear Hr1.
    rewrite ZIPLIST_TAIL_OFFSET_header.
    assert (HTLb : 0 <= TL < 2 ^ 32).
    { subst TL. unfold tail_rel.
      assert (Hrl := sum_len_firstn_le (next :: rest')
                       (pred (length (next :: rest')))).
      rewrite <- removelast_firstn_len in Hrl.
      assert (Hrn := sum_len_nonneg (removelast (next :: rest'))).
      cbn [sum_len] in Hrl. lia. }
    rewrite (Z.mod_small TL) by lia.
    set (TL2 := 10 + zlen (P ++ C) + tail_rel next' rest').
    assert (Ht : (if negb (TL =? np)
                  then set_ZIPLIST_TAIL_OFFSET
                         (header (T + 4) TL c
                          ++ (P ++ C ++ [Lold] ++ Bn ++ R'')
                          ++ [ZIP_END] ++ repeat 0 3 ++ [ZIP_END]) (TL + 4)
                  else header (T + 4) TL c
                       ++ (P ++ C ++ [Lold] ++ Bn ++ R'')
                       ++ [ZIP_END] ++ repeat 0 3 ++ [ZIP_END])
                 = (header (T + 4) TL2 c ++ P ++ C)
                   ++ ([Lold] ++ Bn ++ R'' ++ [ZIP_END; 0; 0; 0])
                   ++ [ZIP_END]).
    { rewrite set_ZIPLIST_TAIL_OFFSET_header.
      assert (E : TL2 = if negb (TL =? np) then TL + 4 else TL).
      { subst TL2 TL np. rewrite length_app, Nat2Z.inj_add, HCl.
        unfold tail_rel. rewrite sum_len_removelast_cons.
        assert (Hx := sum_len_nonneg (removelast rest')).
        destruct rest' as [ | x r ];
          match goal with
          | |- context [ ?a =? ?b ] => destruct (Z.eqb_spec a b)
          end; cbn [negb]; lia. }
      rewrite E. destruct (negb (TL =? np)); cbn [repeat]; list_eq. }
    rewrite Ht. clear Ht.
    set (A0 := header (T + 4) TL2 c ++ P ++ C).
    set (X := ([Lold] ++ Bn ++ R'' ++ [ZIP_END; 0; 0; 0]) ++ [ZIP_END]).
    assert (HA0 : zlen A0 = np).
    { subst A0 np. rewrite !length_app, header_length. lia. }
    assert (Hm : zlen (Bn ++ R'') = T - np - 1 - 1).
    { rewrite length_app. subst np. lia. }
    unfold memmove.
    rewrite (sub_exact (A0 ++ X) (A0 ++ [Lold]) (Bn ++ R'')
               ([ZIP_END; 0; 0; 0] ++ [ZIP_END]))
      by (try (subst X; list_eq);
          try (rewrite length_app; cbn [length]; lia); lia).
    rewrite (memcpy_in (A0 ++ X) A0 X (np + 5) 5 (Bn ++ R''))
      by (try reflexivity; try lia;
          subst X; rewrite !length_app in *; cbn [length] in *; lia).
    replace (skipn (Z.to_nat 5 + length (Bn ++ R'')) X) with [ZIP_END]
      by (subst X; symmetry; apply skipn_app_exact;
          rewrite !length_app in *; cbn [length] in *; lia).
    cbn [zipPrevEncodeLength fst].
    rewrite zipPrevEncodeLength_buf_field.
    destruct (Z.ltb_spec L ZIP_BIGLEN); [ lia | ]. cbn [negb].
    rewrite (memcpy_exact _ A0 (firstn (Z.to_nat 5) X)
               ((Bn ++ R'') ++ [ZIP_END]) np (prev_field true L))
      by (try list_eq; try lia;
          rewrite length_firstn; subst X;
          rewrite !length_app; cbn [length prev_field le_bytes]; lia).
    (* the cascade goes on from the grown entry *)
    assert (Hz3 : A0 ++ prev_field true L ++ (Bn ++ R'') ++ [ZIP_END]
                  = header (T + 4) TL2 c ++ (P ++ C)
                    ++ entry_bytes L next' ++ layout (elen next) rest'
                    ++ [ZIP_END]).
    { subst A0 R''. unfold entry_bytes. cbn [large body next']. list_eq. }
    rewrite Hz3. clear Hz3.
    replace np with (10 + zlen (P ++ C))
      by (subst np; rewrite length_app; lia).
    rewrite (IH fuel (P ++ C) next' L (elen next) (T + 4) TL2 c); auto.
    + cbn [layout sum_len].
      assert (Ht : tail_rel cur (next' :: cascade (elen next') rest')
                   = L + tail_rel next' (cascade (elen next') rest')).
      { unfold tail_rel at 1. now rewrite sum_len_removelast_cons. }
      rewrite Ht, length_app, Nat2Z.inj_add, HCl.
      do 2 f_equal; [ f_equal; lia | list_eq ].
    + simpl in Hfuel. lia.
    + discriminate.
    + lia.
    + lia.
    + rewrite length_app, Nat2Z.inj_add, HCl. subst np. lia.
    + rewrite length_app, Nat2Z.inj_add, HCl. lia.
Qed.

Lemma cascade_update_ok (rest : list entry) (P : list Z) (cur : entry)
    (pv Lold T TL c : Z) :
  body_ok (body cur) = true ->
  (large cur = false -> pv < ZIP_BIGLEN) -> 0 <= pv < 2 ^ 32 ->
  chain_ok Lold rest = true -> Lold < 2 ^ 32 ->
  T = 10 + zlen P + elen cur + sum_len rest + 1 ->
  10 + zlen P + elen cur + sum_len (cascade (elen cur) rest) + 1 < 2 ^ 32 ->
  TL = 10 + zlen P + tail_rel cur rest ->
  __ziplistCascadeUpdate
    (header T TL c ++ P ++ entry_bytes pv cur ++ layout Lold rest
     ++ [ZIP_END])
    (10 + zlen P)
  = Some (header (10 + zlen P + elen cur
                  + sum_len (cascade (elen cur) rest) + 1)
                 (10 + zlen P + tail_rel cur (cascade (elen cur) rest)) c
          ++ P ++ entry_bytes pv cur
          ++ layout (elen cur) (cascade (elen cur) rest) ++ [ZIP_END]).
Proof.
  intros Hbody Hsmall Hpv Hchain HLold HT Hfit HTL.
  unfold __ziplistCascadeUpdate. rewrite ZIPLIST_BYTES_header.
  assert (Hcs := cascade_sum (elen cur) rest).
  assert (Hs := sum_len_nonneg rest). assert (He := elen_nonneg cur).
  assert (Hn := chain_ok_count _ _ Hchain).
  rewrite Z.mod_small by lia.
  apply cascade_loop_ok; auto.
  rewrite !length_app, header_length, <- (layout_length Lold rest) in *.
  lia.
Qed.

Lemma ziplistResize_shrink (b t c : Z) (r : list Z) (x : Z) (rest : list Z)
    (l : Z) :
  l = 10 + zlen r + 1 ->
  ziplistResize (header b t c ++ r ++ x :: rest) l
  = header l t c ++ r ++ [ZIP_END].
Proof.
  intros Hl. unfold ziplistResize.
  replace (header b t c ++ r ++ x :: rest)
    with ((header b t c ++ r ++ [x]) ++ rest) by list_eq.
  rewrite (zrealloc_shrink (header b t c ++ r ++ [x]) rest).
  - rewrite set_ZIPLIST_BYTES_header.
    rewrite (memcpy_exact _ (header l t c ++ r) [x] [] _ [ZIP_END]).
    + list_eq.
    + list_eq.
    + rewrite !length_app, header_length. lia.
    + reflexivity.
  - rewrite !length_app, header_length. cbn [length]. lia.
Qed.

Lemma removelast_snoc (a : list entry) (x : entry) :
  removelast (a ++ [x]) = a.
Proof. apply removelast_last. Qed.

Lemma sum_len_removelast_app (a : list entry) (x : entry) (b : list entry) :
  sum_len (removelast (a ++ x :: b)) = sum_len a + tail_rel x b.
Proof.
  induction a as [ | y a IH ].
  - cbn [app sum_len]. unfold tail_rel. rewrite sum_len_removelast_cons.
    destruct b; lia.
  - cbn [app]. rewrite sum_len_removelast_cons.
    destruct (a ++ x :: b) eqn:E.
    + destruct a; discriminate.
    + rewrite IH. cbn [sum_len]. lia.
Qed.

Lemma sum_len_removelast_plast (es : list entry) :
  sum_len (removelast es) + plast 0 es = sum_len es.
Proof.
  destruct es as [ | e r ] using rev_ind; [ reflexivity | ].
  rewrite removelast_last, plast_app, sum_len_app. cbn. lia.
Qed.

Lemma plast_bound (prev : Z) (es : list entry) :
  0 <= prev -> 0 <= plast prev es <= Z.max prev (sum_len es).
Proof.
  intros H. split; [ now apply plast_nonneg | apply plast_le ].
Qed.

Lemma plast_snoc (prev : Z) (a : list entry) (x : entry) :
  plast prev (a ++ [x]) = elen x.
Proof. rewrite plast_app. reflexivity. Qed.

Lemma delete_scan_ok (c : Z) (es : list entry) (num : Z) (d : nat) :
  ziplist_ok c es ->
  forall (j fuel : nat) (i del : Z),
    (j + d <= length es)%nat -> (d < fuel)%nat ->
    i + Z.of_nat d <= num ->
    (i + Z.of_nat d < num -> (j + d)%nat = length es) ->
    delete_scan fuel (ziplist_of c es) (entry_off es j) i num del
    = Some (entry_off es (j + d), del + Z.of_nat d).
Proof.
  intros Hok. induction d as [ | d IH ]; intros j fuel i del Hj Hf Hi Hend;
    (destruct fuel as [ | fuel ]; [ lia | ]); cbn [delete_scan].
  - rewrite Nat.add_0_r, Z.add_0_r in *.
    destruct (Z.ltb_spec i num) as [ Hlt | Hge ].
    + rewrite Hend by lia. rewrite (ok_end c es Hok). reflexivity.
    + now rewrite andb_false_r.
  - rewrite (ok_not_end c es Hok) by lia.
    destruct (Z.ltb_spec i num); [ | lia ]. cbn [negb andb].
    rewrite (ok_rawlen c es Hok), <- entry_off_S by lia.
    rewrite IH by lia. do 2 f_equal; [ f_equal; lia | lia ].
Qed.

(** ** [__ziplistDelete] on a layout *)

Lemma entry_off_app (es1 es2 : list entry) :
  entry_off (es1 ++ es2) (length es1) = 10 + sum_len es1.
Proof.
  unfold entry_off. now rewrite firstn_app_exact.
Qed.

Lemma chain_ok_sum (prev : Z) (es : list entry) :
  chain_ok prev es = true -> es <> [] -> 2 <= sum_len es.
Proof.
  intros H Hne. destruct es as [ | e r ]; [ congruence | ].
  apply chain_ok_cons in H. destruct H as (_ & _ & Hb & _).
  apply elen_ge_2 in Hb. cbn [sum_len]. assert (Hs := sum_len_nonneg r). lia.
Qed.

Lemma delete_ok (c : Z) (es1 run es2 : list entry) (num : Z) :
  ziplist_ok c (es1 ++ run ++ es2) ->
  run <> [] -> zlen run <= num -> (zlen run < num -> es2 = []) ->
  10 + sum_len (es1 ++ refit (plast 0 es1) es2) + 1 < 2 ^ 32 ->
  __ziplistDelete (ziplist_of c (es1 ++ run ++ es2)) (10 + sum_len es1) num
  = Some (ziplist_of (if c <? UINT16_MAX then c - zlen run else c)
                     (es1 ++ refit (plast 0 es1) es2)).
Proof.
  intros Hok Hne Hnum Hrest Hfit.
  set (es := es1 ++ run ++ es2) in *.
  set (pA := plast 0 es1) in *.
  assert (Hk : (length es1 < length es)%nat).
  { subst es. rewrite !length_app. destruct run; [ congruence | simpl; lia ]. }
  assert (Hq : entry_off es (length es1) = 10 + sum_len es1)
    by apply entry_off_app.
  assert (Hq2 : entry_off es (length es1 + length run)
                = 10 + sum_len es1 + sum_len run).
  { subst es. rewrite app_assoc, <- length_app, entry_off_app, sum_len_app.
    lia. }
  assert (Hchain : chain_ok 0 es = true) by apply Hok.
  assert (HT : 10 + sum_len es + 1 < 2 ^ 32) by apply Hok.
  assert (Hc : 0 <= c <= UINT16_MAX) by apply Hok.
  assert (Hsum : sum_len es = sum_len es1 + sum_len run + sum_len es2)
    by (subst es; rewrite !sum_len_app; lia).
  assert (Hs1 := sum_len_nonneg es1). assert (Hs2 := sum_len_nonneg es2).
  assert (HpA : 0 <= pA <= sum_len es1).
  { subst pA. assert (H := plast_bound 0 es1). lia. }
  assert (Hchain' := Hchain). subst es.
  rewrite !chain_ok_app, !andb_true_iff in Hchain'.
  destruct Hchain' as (Hc1 & Hcr & Hc2). fold pA in Hcr, Hc2.
  set (es := es1 ++ run ++ es2) in *.
  assert (Hrun : 2 <= sum_len run) by (eapply chain_ok_sum; eauto).
  unfold __ziplistDelete.
  rewrite <- Hq.
  destruct (ok_zipEntry c es Hok (length es1) Hk)
    as (enc & lsz & l & _ & -> & _).
  cbn [p prevrawlen]. replace (entry_prev es (length es1)) with pA
    by (unfold entry_prev, es; now rewrite firstn_app_exact).
  rewrite (delete_scan_ok c es num (length run) Hok).
  2: subst es; rewrite !length_app; lia.
  2: { assert (Hl := ziplist_of_length c es). unfold ZIPLIST_HEADER_SIZE in Hl.
       assert (H := chain_ok_count _ _ Hcr). lia. }
  2: lia.
  2: { intros H. assert (E : es2 = []) by (apply Hrest; lia).
       subst es. rewrite E, !length_app. simpl. lia. }
  cbn [obind]. rewrite Hq, Hq2, Z.add_0_l.
  replace (u32 (10 + sum_len es1 + sum_len run - (10 + sum_len es1)))
    with (sum_len run)
    by (unfold u32, uint; rewrite Z.mod_small; lia).
  destruct (Z.gtb_spec (sum_len run) 0); [ | lia ].
  assert (HTL : ZIPLIST_HEADER_SIZE + sum_len (removelast es)
                = 10 + sum_len es1
                  + match es2 with
                    | [] => sum_len (removelast run)
                    | e :: r => sum_len run + tail_rel e r
                    end).
  { subst es. destruct es2 as [ | e r ].
    - rewrite app_nil_r, removelast_app, sum_len_app by exact Hne.
      unfold ZIPLIST_HEADER_SIZE. lia.
    - rewrite app_assoc, sum_len_removelast_app, sum_len_app.
      unfold ZIPLIST_HEADER_SIZE. lia. }
  assert (Hzl : ziplist_of c es
                = header (10 + sum_len es + 1)
                         (ZIPLIST_HEADER_SIZE + sum_len (removelast es)) c
                  ++ layout 0 es1 ++ layout pA run
                  ++ layout (plast pA run) es2 ++ [ZIP_END]).
  { unfold ziplist_of, es. rewrite !layout_app. fold pA.
    unfold ZIPLIST_HEADER_SIZE. list_eq. }
  destruct es2 as [ | e r ].
  - (* the run reaches the end of the list *)
    replace (10 + sum_len es1 + sum_len run)
      with (entry_off es (length es))
      by (rewrite <- Hq2; f_equal; subst es; rewrite !length_app; simpl; lia).
    rewrite (ok_end c es Hok). cbn [negb refit].
    rewrite app_nil_r in *. cbn [layout sum_len app] in *.
    rewrite Hzl. rewrite set_ZIPLIST_TAIL_OFFSET_header, ZIPLIST_BYTES_header.
    rewrite Z.mod_small by lia.
    replace (u32 (10 + sum_len es + 1 - sum_len run + 0))
      with (10 + zlen (layout 0 es1) + 1)
      by (rewrite layout_length; unfold u32, uint; rewrite Z.mod_small; lia).
    assert (Hd : exists x rest, layout pA run ++ [ZIP_END] = x :: rest).
    { destruct (layout pA run ++ [ZIP_END]) as [ | x rest ] eqn:E.
      - destruct (layout pA run); discriminate.
      - eauto. }
    destruct Hd as (x & rest & Hd). rewrite Hd.
    rewrite ziplistResize_shrink by reflexivity.
    rewrite ZIPLIST_INCR_LENGTH_header by exact Hc.
    cbn [Z.eqb negb]. unfold ziplist_of.
    rewrite layout_length.
    assert (Hrl := sum_len_removelast_plast es1). fold pA in Hrl.
    do 2 f_equal. unfold ZIPLIST_HEADER_SIZE.
    f_equal; lia.
  - (* entries remain after the run *)
    set (q2 := 10 + sum_len es1 + sum_len run) in *.
    set (pD := plast pA run) in *.
    set (A := layout 0 es1) in *. set (D := layout pA run) in *.
    set (R := layout (elen e) r) in *.
    set (lg' := negb (pA <? ZIP_BIGLEN)).
    set (e' := mk_entry lg' (body e)).
    set (nd := pls lg' - pls (large e)).
    assert (Hnd' : nd = pls lg' - pls (large e)) by reflexivity.
    assert (Hpls : (pls lg' = 1 \/ pls lg' = 5)
                   /\ (pls (large e) = 1 \/ pls (large e) = 5))
      by (destruct lg', (large e); cbn [pls]; lia).
    apply chain_ok_cons in Hc2.
    destruct Hc2 as (HpD & Hesmall & Hebody & Hcr').
    assert (HA : zlen A = sum_len es1) by apply layout_length.
    assert (HD : zlen D = sum_len run) by apply layout_length.
    assert (HR : zlen R = sum_len r) by apply layout_length.
    assert (HpDb : pD < 2 ^ 32).
    { assert (H1 := plast_bound pA run (proj1 HpA)). subst pD. lia. }
    assert (Hsr := sum_len_nonneg r). cbn [sum_len] in Hsum.
    assert (Hat : entry_at (ziplist_of c es) q2 pD e).
    { apply (entry_at_intro _ (header (10 + sum_len es + 1)
                                 (ZIPLIST_HEADER_SIZE
                                  + sum_len (removelast es)) c ++ A ++ D)
               _ _ (R ++ [ZIP_END])).
      - rewrite Hzl. cbn [layout]. list_eq.
      - rewrite !length_app, header_length. subst q2. lia. }
    rewrite (entry_at_not_end _ _ _ _ Hat) by auto. cbn [negb].
    assert (Hnd : zipPrevLenByteDiff (ziplist_of c es) q2 pA = nd).
    { unfold zipPrevLenByteDiff.
      rewrite (entry_at_prevlensize _ _ _ _ Hat) by auto.
      now rewrite zipPrevEncodeLength_size_pls. }
    rewrite Hnd. cbn [zipPrevEncodeLength fst].
    rewrite zipPrevEncodeLength_buf_field. fold lg'.
    (* the deleted bytes and the old field, up to the new field *)
    set (F := prev_field (large e) pD).
    set (g := Z.to_nat (zlen (D ++ F) - pls lg')).
    set (J := firstn g (D ++ F)).
    assert (Hrun5 : lg' = true -> 6 <= sum_len run).
    { intros Hlg. destruct run as [ | x run' ]; [ congruence | ].
      apply chain_ok_cons in Hcr. destruct Hcr as (_ & Hx & Hxb & _).
      apply body_ok_nonempty in Hxb. cbn [sum_len].
      assert (Hsx := sum_len_nonneg run').
      destruct (large x) eqn:Ex.
      - unfold elen in *. rewrite Ex in *. cbn [pls] in *. lia.
      - specialize (Hx eq_refl). subst lg'.
        destruct (Z.ltb_spec pA ZIP_BIGLEN); [ discriminate | lia ]. }
    assert (HF : zlen F = pls (large e)) by apply prev_field_length.
    assert (Hg : Z.of_nat g = sum_len run - nd).
    { subst g nd. rewrite length_app, Nat2Z.inj_add, HD, HF.
      destruct lg'; [ specialize (Hrun5 eq_refl) | ];
        destruct (large e); cbn [pls]; lia. }
    assert (HJ : zlen J = sum_len run - nd).
    { subst J. rewrite length_firstn, length_app.
      rewrite <- Hg. subst g. rewrite length_app. destruct lg'; cbn [pls]; lia. }
    assert (Hz1 : memcpy (ziplist_of c es) (q2 - nd) (prev_field lg' pA)
                  = header (10 + sum_len es + 1)
                      (ZIPLIST_HEADER_SIZE + sum_len (removelast es)) c
                    ++ A ++ J ++ entry_bytes pA e' ++ R ++ [ZIP_END]).
    { rewrite Hzl. cbn [layout]. unfold entry_bytes. cbn [large body e'].
      fold F R.
      assert (HDF : D ++ F = J ++ skipn g (D ++ F))
        by (symmetry; apply firstn_skipn).
      assert (HO : zlen (skipn g (D ++ F)) = pls lg')
        by (rewrite length_skipn, length_app; lia).
      set (O := skipn g (D ++ F)) in *.
      rewrite (memcpy_exact _ (header (10 + sum_len es + 1)
                                 (ZIPLIST_HEADER_SIZE
                                  + sum_len (removelast es)) c ++ A ++ J)
                 O (body e ++ R ++ [ZIP_END]) _
                 (prev_field lg' pA)).
      - list_eq.
      - rewrite <- !app_assoc, (app_assoc D F), HDF. list_eq.
      - rewrite !length_app, header_length. subst q2. lia.
      - apply Nat2Z.inj. now rewrite prev_field_length. }
    rewrite Hz1. clear Hz1.
    rewrite HTL. set (T := 10 + sum_len es + 1) in *.
    rewrite ZIPLIST_TAIL_OFFSET_header, set_ZIPLIST_TAIL_OFFSET_header.
    assert (Htr : 0 <= tail_rel e r <= sum_len (e :: r)).
    { unfold tail_rel. destruct r as [ | x r' ].
      - cbn [sum_len]. assert (He := elen_nonneg e). lia.
      - assert (H1 := sum_len_firstn_le (x :: r') (pred (length (x :: r')))).
        rewrite <- removelast_firstn_len in H1.
        assert (H2 := sum_len_nonneg (removelast (x :: r'))).
        assert (He := elen_nonneg e). cbn [sum_len] in *. lia. }
    cbn [sum_len] in Htr.
    rewrite Z.mod_small by lia.
    replace (10 + sum_len es1 + (sum_len run + tail_rel e r) - sum_len run)
      with (10 + sum_len es1 + tail_rel e r) by lia.
    set (TL1 := 10 + sum_len es1 + tail_rel e r).
    set (Z2 := header T TL1 c ++ A ++ J ++ entry_bytes pA e' ++ R ++ [ZIP_END]).
    assert (Hee' : elen e' = elen e + nd).
    { unfold elen. cbn [large body e']. lia. }
    assert (Hat' : entry_at Z2 (q2 - nd) pA e').
    { apply (entry_at_intro _ (header T TL1 c ++ A ++ J) _ _ (R ++ [ZIP_END])).
      - subst Z2. list_eq.
      - rewrite !length_app, header_length. subst q2. lia. }
    assert (Hsmall' : large e' = false -> pA < ZIP_BIGLEN).
    { cbn [large e']. subst lg'.
      destruct (Z.ltb_spec pA ZIP_BIGLEN); [ auto | discriminate ]. }
    destruct (entry_at_zipEntry _ _ _ _ Hat' ltac:(lia) Hsmall' Hebody)
      as (enc' & lsz' & l' & _ & -> & Hel' & _).
    cbn [headersize len].
    replace (q2 - nd + (pls (large e') + lsz' + l')) with (q2 + elen e)
      by lia.
    set (TL2 := 10 + sum_len es1 + tail_rel e' r).
    set (E' := entry_bytes pA e') in *.
    assert (HE' : zlen E' = elen e') by apply entry_bytes_length.
    assert (Hz3 : (if negb (rd Z2 (q2 + elen e) =? ZIP_END)
                   then set_ZIPLIST_TAIL_OFFSET Z2
                          (ZIPLIST_TAIL_OFFSET Z2 + nd)
                   else Z2)
                  = header T TL2 c ++ A ++ J ++ E' ++ R ++ [ZIP_END]).
    { subst Z2. rewrite ZIPLIST_TAIL_OFFSET_header,
        set_ZIPLIST_TAIL_OFFSET_header.
      rewrite (Z.mod_small TL1) by (subst TL1 T; lia).
      assert (Hpos : q2 + elen e = zlen (header T TL1 c ++ A ++ J ++ E') + 0).
      { rewrite !length_app, header_length. subst q2. lia. }
      destruct r as [ | x r' ].
      - rewrite (rd_at _ (header T TL1 c ++ A ++ J ++ E') [ZIP_END] _ 0)
          by (try exact Hpos; try lia; subst R; list_eq).
        reflexivity.
      - apply chain_ok_cons in Hcr'. destruct Hcr' as (Hx1 & Hx2 & Hx3 & _).
        rewrite (entry_at_not_end _ (q2 + elen e) (elen e) x); auto.
        + cbn [negb]. do 2 f_equal. subst TL1 TL2. unfold tail_rel. lia.
        + apply (entry_at_intro _ (header T TL1 c ++ A ++ J ++ E') _ _
                   (layout (elen x) r' ++ [ZIP_END])).
          * subst R. cbn [layout]. list_eq.
          * lia. }
    rewrite Hz3. clear Hz3. rewrite ZIPLIST_BYTES_header.
    rewrite (Z.mod_small T) by (subst T; lia).
    unfold memmove.
    rewrite (sub_exact _ (header T TL2 c ++ A ++ J) (E' ++ R) [ZIP_END])
      by (try list_eq; rewrite !length_app, ?header_length; subst q2 T; lia).
    set (X := J ++ E' ++ R ++ [ZIP_END]).
    rewrite (memcpy_in _ (header T TL2 c ++ A) X (10 + sum_len es1) 0
               (E' ++ R))
      by (try (subst X; list_eq); try lia;
          subst X; rewrite !length_app, ?header_length; cbn [length]; lia).
    cbn [Z.to_nat firstn Nat.add app].
    destruct (skipn (length (E' ++ R)) X) as [ | x K ] eqn:EK.
    { exfalso. apply (f_equal (@length Z)) in EK.
      rewrite length_skipn in EK. subst X.
      rewrite !length_app in EK. cbn [length] in EK. lia. }
    replace ((header T TL2 c ++ A) ++ (E' ++ R) ++ x :: K)
      with (header T TL2 c ++ (A ++ E' ++ R) ++ x :: K) by list_eq.
    rewrite ZIPLIST_BYTES_header, (Z.mod_small T) by (subst T; lia).
    rewrite (ziplistResize_shrink T TL2 c (A ++ E' ++ R) x K)
      by (unfold u32, uint; rewrite !length_app, Z.mod_small; subst T; lia).
    rewrite ZIPLIST_INCR_LENGTH_header by exact Hc.
    replace (c + - zlen run) with (c - zlen run) by lia.
    set (c' := if c <? UINT16_MAX then c - zlen run else c).
    assert (Hfinal : forall casc,
               header (10 + zlen A + elen e' + sum_len casc + 1)
                      (10 + zlen A + tail_rel e' casc) c'
               ++ A ++ E' ++ layout (elen e') casc ++ [ZIP_END]
               = ziplist_of c' (es1 ++ e' :: casc)).
    { intros casc. unfold ziplist_of.
      rewrite layout_app, sum_len_removelast_app, sum_len_app.
      cbn [layout sum_len]. fold pA A E'. rewrite HA.
      unfold ZIPLIST_HEADER_SIZE. f_equal; [ f_equal; lia | list_eq ]. }
    cbn [refit]. fold lg' e'.
    assert (Hcs := cascade_sum (elen e') r).
    rewrite sum_len_app in Hfit. cbn [refit sum_len] in Hfit.
    fold lg' e' in Hfit.
    unfold u32, uint. rewrite Z.mod_small by (subst T; lia).
    replace (T - sum_len run + nd)
      with (10 + zlen A + elen e' + sum_len r + 1) by (subst T; lia).
    replace TL2 with (10 + zlen A + tail_rel e' r) by (subst TL2; lia).
    replace (10 + sum_len es1) with (10 + zlen A) by lia.
    replace ((A ++ E' ++ R) ++ [ZIP_END])
      with (A ++ E' ++ layout (elen e) r ++ [ZIP_END]) by list_eq.
    destruct (Z.eqb_spec nd 0) as [ Hnd0 | Hnd0 ]; cbn [negb].
    + rewrite <- Hfinal. rewrite (cascade_id (elen e') r)
        by (rewrite Hee', Hnd0, Z.add_0_r; exact Hcr').
      replace (elen e') with (elen e) at 3 by lia. reflexivity.
    + rewrite <- Hfinal. subst E'.
      apply cascade_update_ok; auto; lia.
Qed.

(** ** The entry that an insert writes *)

Lemma decode_str_06B (n : Z) (s : list Z) :
  0 <= n <= 0x3f -> ZIP_DECODE_LENGTH ([n] ++ s) 0 = (ZIP_STR_06B, 1, n).
Proof.
  intros Hn. unfold ZIP_DECODE_LENGTH, ZIP_ENTRY_ENCODING.
  cbn [app]. rewrite rd_cons_0.
  assert (Hm : Z.land n ZIP_STR_MASK = 0).
  { rewrite byte_str_mask by lia. rewrite Z.div_small by lia. reflexivity. }
  destruct (Z.ltb_spec n ZIP_STR_MASK); [ | unfold ZIP_STR_MASK in *; lia ].
  rewrite Hm. change (0 <? ZIP_STR_MASK) with true.
  change (0 =? ZIP_STR_06B) with true. cbv iota.
  change 0x3f with (2 ^ 6 - 1). rewrite land_low by lia.
  rewrite Z.mod_small by (change (2 ^ 6) with 64; lia). reflexivity.
Qed.

Lemma decode_str_14B (n : Z) (s : list Z) :
  0x3f < n <= 0x3fff ->
  ZIP_DECODE_LENGTH ([64 + n / 256; n mod 256] ++ s) 0 = (ZIP_STR_14B, 2, n).
Proof.
  intros Hn. unfold ZIP_DECODE_LENGTH, ZIP_ENTRY_ENCODING.
  cbn [app]. rewrite rd_cons_0.
  assert (Hd : 0 <= n / 256 < 64).
  { split; [ apply Z.div_pos; lia | apply Z.div_lt_upper_bound; lia ]. }
  assert (Hm : Z.land (64 + n / 256) ZIP_STR_MASK = 64).
  { rewrite byte_str_mask by lia.
    replace (64 + n / 256) with (n / 256 + 1 * 64) by lia.
    rewrite Z.div_add, Z.div_small by lia. reflexivity. }
  destruct (Z.ltb_spec (64 + n / 256) ZIP_STR_MASK);
    [ | unfold ZIP_STR_MASK in *; lia ].
  rewrite Hm. change (64 <? ZIP_STR_MASK) with true.
  change (64 =? ZIP_STR_06B) with false.
  change (64 =? ZIP_STR_14B) with true. cbv iota.
  change (rd (64 + n / 256 :: n mod 256 :: s) (0 + 1)) with (n mod 256).
  change 64 with ZIP_STR_14B at 1.
  do 2 f_equal.
  change 0x3f with (2 ^ 6 - 1). rewrite land_low by lia.
  replace (64 + n / 256) with (n / 256 + 1 * 2 ^ 6) by (change (2 ^ 6) with 64; lia).
  rewrite Z.mod_add, Z.mod_small by (change (2 ^ 6) with 64; lia).
  rewrite Z.shiftl_mul_pow2 by lia.
  assert (Hmod := Z.mod_pos_bound n 256).
  rewrite lor_add_disjoint by (change (2 ^ 8) with 256; lia).
  change (2 ^ 8) with 256.
  rewrite (Z.div_mod n 256) at 3 by lia. lia.
Qed.

Lemma decode_str_32B (n : Z) (s : list Z) :
  0 <= n < 2 ^ 32 ->
  ZIP_DECODE_LENGTH ((128 :: rev (le_bytes 4 n)) ++ s) 0 = (ZIP_STR_32B, 5, n).
Proof.
  intros Hn. unfold ZIP_DECODE_LENGTH, ZIP_ENTRY_ENCODING.
  cbn [le_bytes rev app]. rewrite rd_cons_0.
  change (128 <? ZIP_STR_MASK) with true. cbv iota.
  change (Z.land 128 ZIP_STR_MASK) with ZIP_STR_32B.
  change (ZIP_STR_32B <? ZIP_STR_MASK) with true.
  change (ZIP_STR_32B =? ZIP_STR_06B) with false.
  change (ZIP_STR_32B =? ZIP_STR_14B) with false.
  rewrite Z.eqb_refl. cbv iota.
  set (b0 := n mod 256). set (b1 := (n / 256) mod 256).
  set (b2 := (n / 256 / 256) mod 256).
  set (b3 := (n / 256 / 256 / 256) mod 256).
  change (rd (128 :: b3 :: b2 :: b1 :: b0 :: s) (0 + 1)) with b3.
  change (rd (128 :: b3 :: b2 :: b1 :: b0 :: s) (0 + 2)) with b2.
  change (rd (128 :: b3 :: b2 :: b1 :: b0 :: s) (0 + 3)) with b1.
  change (rd (128 :: b3 :: b2 :: b1 :: b0 :: s) (0 + 4)) with b0.
  do 2 f_equal.
  assert (H0 : 0 <= b0 < 256) by (apply Z.mod_pos_bound; lia).
  assert (H1 : 0 <= b1 < 256) by (apply Z.mod_pos_bound; lia).
  assert (H2 : 0 <= b2 < 256) by (apply Z.mod_pos_bound; lia).
  assert (H3 : 0 <= b3 < 256) by (apply Z.mod_pos_bound; lia).
  rewrite !Z.shiftl_mul_pow2 by lia.
  rewrite (lor_add_disjoint b3 24 (b2 * 2 ^ 16))
    by (change (2 ^ 24) with 16777216; change (2 ^ 16) with 65536; lia).
  replace (b3 * 2 ^ 24 + b2 * 2 ^ 16) with ((b3 * 256 + b2) * 2 ^ 16)
    by (change (2 ^ 24) with 16777216; change (2 ^ 16) with 65536; lia).
  rewrite (lor_add_disjoint _ 16 (b1 * 2 ^ 8))
    by (change (2 ^ 8) with 256; change (2 ^ 16) with 65536; lia).
  replace ((b3 * 256 + b2) * 2 ^ 16 + b1 * 2 ^ 8)
    with (((b3 * 256 + b2) * 256 + b1) * 2 ^ 8)
    by (change (2 ^ 8) with 256; change (2 ^ 16) with 65536; lia).
  rewrite lor_add_disjoint by (change (2 ^ 8) with 256; lia).
  change (2 ^ 8) with 256.
  assert (Hv := le_val_le_bytes 4 n). cbn [le_bytes le_val] in Hv.
  fold b0 b1 b2 b3 in Hv.
  change (256 ^ Z.of_nat 4) with (2 ^ 32) in Hv.
  rewrite Z.mod_small in Hv by lia. lia.
Qed.

(** The integer encodings. *)
Definition int_encs : list Z :=
  [0xf1; 0xf2; 0xf3; 0xf4; 0xf5; 0xf6; 0xf7; 0xf8; 0xf9; 0xfa; 0xfb; 0xfc;
   0xfd; ZIP_INT_8B; ZIP_INT_16B; ZIP_INT_24B; ZIP_INT_32B; ZIP_INT_64B].

Lemma int_encs_not_str (enc : Z) :
  In enc int_encs ->
  ZIP_IS_STR enc = false /\ (enc <? ZIP_STR_MASK) = false.
Proof.
  intros H. cbn [int_encs In] in H.
  repeat (destruct H as [ <- | H ]; [ split; reflexivity | ]).
  contradiction.
Qed.

Lemma decode_int (enc : Z) (buf : list Z) :
  In enc int_encs ->
  ZIP_DECODE_LENGTH (enc :: buf) 0 = (enc, 1, zipIntSize enc).
Proof.
  intros H. destruct (int_encs_not_str enc H) as [_ Hm].
  unfold ZIP_DECODE_LENGTH, ZIP_ENTRY_ENCODING. rewrite rd_cons_0.
  now rewrite Hm, Hm.
Qed.

Lemma zipIntSize_nonneg (enc : Z) : 0 <= zipIntSize enc.
Proof.
  unfold zipIntSize.
  repeat match goal with
         | |- context [ ?a =? ?b ] => destruct (a =? b)
         end; lia.
Qed.

Section Insert.

Variable string2ll : list Z -> option Z.

Lemma zipTryEncoding_enc (s : list Z) (v enc : Z) :
  zipTryEncoding string2ll s = Some (v, enc) -> In enc int_encs.
Proof.
  unfold zipTryEncoding.
  destruct ((zlen s >=? 32) || (zlen s =? 0)); [ discriminate | ].
  destruct (string2ll s) as [ value | ]; [ | discriminate ].
  intros H. injection H as <- <-.
  destruct ((value >=? 0) && (value <=? 12)) eqn:E.
  - apply andb_true_iff in E. destruct E as [E1 E2].
    apply Z.geb_le in E1. apply Z.leb_le in E2.
    assert (Hc : value = 0 \/ value = 1 \/ value = 2 \/ value = 3 \/
                 value = 4 \/ value = 5 \/ value = 6 \/ value = 7 \/
                 value = 8 \/ value = 9 \/ value = 10 \/ value = 11 \/
                 value = 12) by lia.
    repeat (destruct Hc as [ -> | Hc ]; [ cbn; tauto | ]).
    subst value. cbn. tauto.
  - repeat match goal with
           | |- context [ if ?c then _ else _ ] => destruct c
           end; cbn; tauto.
Qed.

Lemma zipTryEncoding_len (s : list Z) (v enc : Z) :
  zipTryEncoding string2ll s = Some (v, enc) -> 0 < zlen s < 32.
Proof.
  unfold zipTryEncoding.
  destruct (Z.geb_spec (zlen s) 32); [ discriminate | ].
  destruct (Z.eqb_spec (zlen s) 0); [ discriminate | ].
  intros _. lia.
Qed.

(** The length header and the payload that an insert writes for [s]. *)
Definition entry_body (s : list Z) : list Z :=
  match zipTryEncoding string2ll s with
  | Some (v, enc) => enc :: zipSaveInteger_buf v enc
  | None => zipEncodeLength_buf 0 (zlen s) ++ s
  end.

(** The entry that an insert writes for [s] after an entry of length
    [prev]. *)
Definition new_entry (prev : Z) (s : list Z) : entry :=
  mk_entry (negb (prev <? ZIP_BIGLEN)) (entry_body s).

Lemma entry_body_ok (s : list Z) :
  zlen s < 2 ^ 32 -> body_ok (entry_body s) = true.
Proof.
  intros Hs. unfold entry_body, body_ok.
  destruct (zipTryEncoding string2ll s) as [ [v enc] | ] eqn:E.
  - rewrite (decode_int enc _ (zipTryEncoding_enc _ _ _ E)).
    assert (H := zipIntSize_nonneg enc).
    assert (Hl := zipSaveInteger_buf_length v enc).
    cbn [length]. apply andb_true_iff. split; [ apply Z.leb_le | apply Z.eqb_eq ];
      lia.
  - destruct (Z_le_gt_dec (zlen s) 0x3f) as [ H1 | H1 ].
    + rewrite zipEncodeLength_buf_06B, decode_str_06B by lia.
      rewrite length_app. cbn [length].
      apply andb_true_iff. split; [ apply Z.leb_le | apply Z.eqb_eq ]; lia.
    + destruct (Z_le_gt_dec (zlen s) 0x3fff) as [ H2 | H2 ].
      * rewrite zipEncodeLength_buf_14B, decode_str_14B by lia.
        rewrite length_app. cbn [length].
        apply andb_true_iff. split; [ apply Z.leb_le | apply Z.eqb_eq ]; lia.
      * rewrite zipEncodeLength_buf_32B, decode_str_32B by lia.
        rewrite length_app. cbn [length le_bytes rev app].
        apply andb_true_iff. split; [ apply Z.leb_le | apply Z.eqb_eq ]; lia.
Qed.

(** The size that [__ziplistInsert] computes for the entry. *)
Lemma entry_body_reqlen (s : list Z) :
  match zipTryEncoding string2ll s with
  | Some (v, e) =>
      zipIntSize e + zlen (zipEncodeLength_buf e (zlen s))
  | None => zlen s + zlen (zipEncodeLength_buf 0 (zlen s))
  end = zlen (entry_body s).
Proof.
  unfold entry_body.
  destruct (zipTryEncoding string2ll s) as [ [v enc] | ] eqn:E.
  - destruct (int_encs_not_str enc (zipTryEncoding_enc _ _ _ E)) as [Hs _].
    rewrite zipEncodeLength_buf_int by exact Hs.
    assert (Hl := zipSaveInteger_buf_length v enc). cbn [length]. lia.
  - rewrite length_app. lia.
Qed.

Lemma rd_after (hd A rest : list Z) (o : Z) :
  zlen hd = 10 -> o = 10 + zlen A -> rd (hd ++ A ++ rest) o = rd rest 0.
Proof.
  intros Hhd ->. apply (rd_at _ (hd ++ A) rest _ 0); [ list_eq | | lia ].
  rewrite length_app. lia.
Qed.

Lemma ziplistResize_grow' (b t c : Z) (r : list Z) (m : nat) (l : Z) :
  l = 10 + zlen r + 1 + Z.of_nat m ->
  ziplistResize (header b t c ++ r ++ [ZIP_END]) l
  = header l t c ++ r ++ firstn m (ZIP_END :: repeat 0 m) ++ [ZIP_END].
Proof.
  intros Hl. destruct m as [ | k ].
  - cbn [firstn app].
    destruct (@exists_last _ (r ++ [ZIP_END])) as (r' & x & E).
    { destruct r; discriminate. }
    apply app_inj_tail in E. destruct E as [<- <-].
    unfold ziplistResize.
    rewrite zrealloc_grow
      by (rewrite !length_app, header_length; cbn [length]; lia).
    replace (Z.to_nat (l - zlen (header b t c ++ r ++ [ZIP_END]))) with 0%nat
      by (rewrite !length_app, header_length; cbn [length]; lia).
    cbn [repeat]. rewrite app_nil_r, set_ZIPLIST_BYTES_header.
    rewrite (memcpy_exact _ (header l t c ++ r) [ZIP_END] [] _ [ZIP_END]);
      try reflexivity.
    rewrite !length_app, header_length. lia.
  - rewrite (ziplistResize_grow b t c r k l Hl).
    cbn [firstn app]. do 3 f_equal.
    replace (repeat 0 (S k)) with (repeat 0 k ++ [0])
      by (now rewrite <- repeat_cons).
    rewrite firstn_app_exact by now rewrite repeat_length.
    reflexivity.
Qed.

Lemma insert_ok (c : Z) (es1 es2 : list entry) (s : list Z) :
  ziplist_ok c (es1 ++ es2) ->
  let pA := plast 0 es1 in
  let new := new_entry pA s in
  10 + sum_len (es1 ++ new :: refit (elen new) es2) + 1 < 2 ^ 32 ->
  match es2 with
  | [] => True
  | e :: _ => large e = true -> 4 <= elen new
  end ->
  __ziplistInsert string2ll (ziplist_of c (es1 ++ es2)) (10 + sum_len es1) s
  = Some (ziplist_of (if c <? UINT16_MAX then c + 1 else c)
                     (es1 ++ new :: refit (elen new) es2)).
Proof.
  intros Hok pA new Hfit Hslip.
  set (es := es1 ++ es2) in *. set (zl := ziplist_of c es).
  set (q := 10 + sum_len es1).
  assert (Hq : entry_off es (length es1) = q) by apply entry_off_app.
  assert (Hchain : chain_ok 0 es = true) by apply Hok.
  assert (HT : 10 + sum_len es + 1 < 2 ^ 32) by apply Hok.
  assert (Hc : 0 <= c <= UINT16_MAX) by apply Hok.
  assert (Hsum : sum_len es = sum_len es1 + sum_len es2)
    by (subst es; now rewrite sum_len_app).
  assert (Hs1 := sum_len_nonneg es1). assert (Hs2 := sum_len_nonneg es2).
  assert (HpA : 0 <= pA <= sum_len es1).
  { subst pA. assert (H := plast_bound 0 es1). lia. }
  assert (Hchain' := Hchain). subst es.
  rewrite chain_ok_app, andb_true_iff in Hchain'.
  destruct Hchain' as (Hc1 & Hc2). fold pA in Hc2.
  set (es := es1 ++ es2) in *.
  assert (Hnew : elen new = pls (negb (pA <? ZIP_BIGLEN)) + zlen (entry_body s))
    by reflexivity.
  assert (Hrs := cascade_sum (elen new) es2).
  rewrite sum_len_app in Hfit. cbn [sum_len] in Hfit.
  assert (Hslen : zlen s < 2 ^ 32).
  { assert (H := entry_body_reqlen s). 
    assert (Hr : 0 <= sum_len (refit (elen new) es2)) by apply sum_len_nonneg.
    destruct (zipTryEncoding string2ll s) as [ [v e] | ] eqn:E;
      [ | destruct (negb (pA <? ZIP_BIGLEN)); cbn [pls] in Hnew; lia ].
    apply zipTryEncoding_len in E. lia. }
  assert (Hbody : body_ok (entry_body s) = true)
    by now apply entry_body_ok.
  unfold __ziplistInsert.
  (* the encoding, the value and the payload *)
  assert (Htry : exists value enc reqlen0 payload,
             match zipTryEncoding string2ll s with
             | Some (v, e) => (v, e, zipIntSize e)
             | None => (123456789, 0, zlen s)
             end = (value, enc, reqlen0)
             /\ reqlen0 + zlen (zipEncodeLength_buf enc (zlen s))
                = zlen (entry_body s)
             /\ zipEncodeLength_buf enc (zlen s) ++ payload = entry_body s
             /\ (forall z o,
                   (if ZIP_IS_STR enc then memcpy z o s
                    else zipSaveInteger z o value enc)
                   = memcpy z o payload)).
  { assert (H := entry_body_reqlen s). unfold entry_body in *.
    destruct (zipTryEncoding string2ll s) as [ [v e] | ] eqn:E.
    - exists v, e, (zipIntSize e), (zipSaveInteger_buf v e).
      destruct (int_encs_not_str e (zipTryEncoding_enc _ _ _ E)) as [Hs _].
      rewrite zipEncodeLength_buf_int in * by exact Hs.
      repeat split; auto. intros z o. now rewrite Hs.
    - exists 123456789, 0, (zlen s), s. repeat split; auto. }
  destruct Htry as (value & enc & reqlen0 & payload & -> & Hreq & Hpay & Hwr).
  cbn [zipPrevEncodeLength zipEncodeLength snd fst].
  assert (Hprev : (if negb (rd zl q =? ZIP_END)
                   then snd (ZIP_DECODE_PREVLEN zl q)
                   else
                    if negb (rd zl (ZIPLIST_ENTRY_TAIL zl) =? ZIP_END)
                    then zipRawEntryLength zl (ZIPLIST_ENTRY_TAIL zl)
                    else 0) = pA).
  { destruct es2 as [ | e r ].
    - (* at the end: the length of the tail entry *)
      subst zl es. rewrite app_nil_r in *.
      rewrite <- Hq, (ok_end c es1 Hok). cbn [negb].
      unfold ZIPLIST_ENTRY_TAIL. rewrite (ok_tail c es1 Hok).
      destruct es1 as [ | x es1' ] using rev_ind.
      + assert (He := ok_end c [] Hok). cbn [length pred] in *. rewrite He.
        reflexivity.
      + clear IHes1'. rewrite length_app, Nat.add_comm. cbn [length Nat.add pred].
        rewrite (ok_not_end c _ Hok), (ok_rawlen c _ Hok)
          by (rewrite length_app; cbn [length]; lia).
        cbn [negb]. rewrite app_nth2, Nat.sub_diag by lia. cbn [nth].
        subst pA. now rewrite plast_snoc.
    - rewrite <- Hq. subst zl.
      assert (Hk : (length es1 < length es)%nat)
        by (subst es; rewrite length_app; cbn [length]; lia).
      rewrite (ok_not_end c es Hok), (ok_prevlen c es Hok) by exact Hk.
      cbn [negb snd]. unfold entry_prev, es.
      now rewrite firstn_app_exact. }
  rewrite Hprev. rewrite zipPrevEncodeLength_size_pls.
  replace (reqlen0 + pls (negb (pA <? ZIP_BIGLEN))
           + zlen (zipEncodeLength_buf enc (zlen s)))
    with (elen new) by lia.
  set (rl := elen new) in *.
  assert (Hrl2 : 2 <= rl) by (apply elen_ge_2; exact Hbody).
  assert (Hr : 0 <= sum_len (refit rl es2)) by apply sum_len_nonneg.
  assert (Hurl : u32 rl = rl)
    by (unfold u32, uint; apply Z.mod_small; lia).
  rewrite !Hurl. rewrite zipPrevEncodeLength_buf_field.
  set (lgn := negb (rl <? ZIP_BIGLEN)).
  set (T := 10 + sum_len es + 1) in *.
  assert (HB : ZIPLIST_BYTES zl = T) by apply (ok_bytes c es Hok).
  rewrite !HB.
  set (c' := if c <? UINT16_MAX then c + 1 else c).
  set (A := layout 0 es1).
  assert (HA : zlen A = sum_len es1) by apply layout_length.
  set (N := entry_bytes pA new).
  assert (HN : zlen N = rl) by apply entry_bytes_length.
  (* writing the entry *)
  assert (Hwrite : forall hd W rest,
             zlen hd = 10 -> zlen W = rl ->
             (if ZIP_IS_STR enc
              then memcpy
                     (memcpy
                        (memcpy (hd ++ A ++ W ++ rest) q
                                (zipPrevEncodeLength_buf pA))
                        (q + pls (negb (pA <? ZIP_BIGLEN)))
                        (zipEncodeLength_buf enc (zlen s)))
                     (q + pls (negb (pA <? ZIP_BIGLEN))
                      + zlen (zipEncodeLength_buf enc (zlen s))) s
              else zipSaveInteger
                     (memcpy
                        (memcpy (hd ++ A ++ W ++ rest) q
                                (zipPrevEncodeLength_buf pA))
                        (q + pls (negb (pA <? ZIP_BIGLEN)))
                        (zipEncodeLength_buf enc (zlen s)))
                     (q + pls (negb (pA <? ZIP_BIGLEN))
                      + zlen (zipEncodeLength_buf enc (zlen s))) value enc)
             = hd ++ A ++ N ++ rest).
  { intros hd W rest Hhd HW. rewrite Hwr.
    rewrite zipPrevEncodeLength_buf_field.
    set (b1 := prev_field (negb (pA <? ZIP_BIGLEN)) pA).
    set (b2 := zipEncodeLength_buf enc (zlen s)).
    assert (Hb1 : zlen b1 = pls (negb (pA <? ZIP_BIGLEN)))
      by apply prev_field_length.
    assert (HWs : W = firstn (length b1) W
                      ++ firstn (length b2) (skipn (length b1) W)
                      ++ skipn (length b2) (skipn (length b1) W)).
    { now rewrite !firstn_skipn. }
    assert (Hl3 : zlen b1 + zlen b2 + zlen payload = zlen W).
    { rewrite HW, Hnew, <- Hpay, length_app. subst b2. lia. }
    rewrite <- Hb1.
    rewrite (memcpy_memcpy _ (hd ++ A) (firstn (length b1) W)
               (firstn (length b2) (skipn (length b1) W))
               (skipn (length b2) (skipn (length b1) W) ++ rest) q b1 b2).
    - rewrite (memcpy_exact _ ((hd ++ A) ++ b1 ++ b2)
                 (skipn (length b2) (skipn (length b1) W)) rest _ payload).
      + subst N. unfold entry_bytes. cbn [large body new new_entry].
        fold b1. rewrite <- Hpay. fold b2. list_eq.
      + list_eq.
      + rewrite !length_app. subst q. lia.
      + rewrite !length_skipn. lia.
    - rewrite HWs at 1. list_eq.
    - rewrite length_app. subst q. lia.
    - rewrite length_firstn. lia.
    - rewrite length_firstn, length_skipn. lia. }
  assert (HTLv : ZIPLIST_HEADER_SIZE + sum_len (removelast es)
                 = 10 + sum_len es1
                   + match es2 with
                     | [] => - pA
                     | e :: r => tail_rel e r
                     end).
  { unfold es. destruct es2 as [ | e r ].
    - rewrite app_nil_r. assert (H := sum_len_removelast_plast es1).
      fold pA in H. unfold ZIPLIST_HEADER_SIZE. lia.
    - rewrite sum_len_removelast_app. unfold ZIPLIST_HEADER_SIZE. lia. }
  assert (Hzl : zl = header T (ZIPLIST_HEADER_SIZE + sum_len (removelast es)) c
                     ++ A ++ layout pA es2 ++ [ZIP_END]).
  { subst zl. unfold ziplist_of, es. rewrite layout_app. fold pA A.
    subst T. unfold ZIPLIST_HEADER_SIZE. list_eq. }
  destruct es2 as [ | e r ].
  - (* the new entry becomes the tail *)
    cbn [refit sum_len layout app] in *.
    assert (He : (rd zl q =? ZIP_END) = true).
    { rewrite <- Hq.
      replace (length es1) with (length es)
        by (subst es; rewrite length_app; cbn [length]; lia).
      apply (ok_end c es Hok). }
    rewrite He. cbn [negb Z.eqb]. rewrite Z.add_0_r.
    unfold u32, uint. rewrite Z.mod_small by lia.
    rewrite Hzl.
    rewrite (ziplistResize_grow _ _ _ A (Z.to_nat (rl - 1)))
      by (subst T; lia).
    set (Z1 := header (T + rl) _ c ++ A ++ [ZIP_END]
               ++ repeat 0 (Z.to_nat (rl - 1)) ++ [ZIP_END]).
    assert (He1 : (rd Z1 q =? ZIP_END) = true).
    { subst Z1. rewrite rd_after by (rewrite ?header_length; subst q; lia).
      reflexivity. }
    rewrite He1. cbn [negb obind].
    subst Z1. rewrite set_ZIPLIST_TAIL_OFFSET_header.
    replace (A ++ [ZIP_END] ++ repeat 0 (Z.to_nat (rl - 1)) ++ [ZIP_END])
      with (A ++ ([ZIP_END] ++ repeat 0 (Z.to_nat (rl - 1))) ++ [ZIP_END])
      by list_eq.
    rewrite (Hwrite (header (T + rl) q c)
               ([ZIP_END] ++ repeat 0 (Z.to_nat (rl - 1))) [ZIP_END])
      by (rewrite ?length_app, ?repeat_length, ?header_length;
          cbn [length]; lia).
    rewrite ZIPLIST_INCR_LENGTH_header by exact Hc. fold c'.
    unfold ziplist_of. rewrite layout_app, removelast_last, sum_len_app.
    cbn [layout sum_len]. fold pA A N. rewrite app_nil_r.
    unfold ZIPLIST_HEADER_SIZE.
    f_equal. f_equal; [ f_equal; subst T q; lia | list_eq ].
  - (* an entry follows the new one *)
    set (R := layout (elen e) r) in *.
    set (F := prev_field (large e) pA).
    set (Be := body e) in *.
    set (e' := mk_entry lgn Be).
    set (nd := pls lgn - pls (large e)).
    assert (Hnd' : nd = pls lgn - pls (large e)) by reflexivity.
    assert (Hpls : (pls lgn = 1 \/ pls lgn = 5)
                   /\ (pls (large e) = 1 \/ pls (large e) = 5))
      by (destruct lgn, (large e); cbn [pls]; lia).
    apply chain_ok_cons in Hc2.
    destruct Hc2 as (HpA0 & Hesmall & Hebody & Hcr').
    assert (HR : zlen R = sum_len r) by apply layout_length.
    assert (HF : zlen F = pls (large e)) by apply prev_field_length.
    assert (Hsr := sum_len_nonneg r). cbn [sum_len] in Hsum.
    assert (Hee : elen e = pls (large e) + zlen Be) by reflexivity.
    assert (Hee' : elen e' = elen e + nd)
      by (unfold elen; cbn [large body e']; fold Be; lia).
    assert (Hguard : 0 <= rl + nd).
    { destruct (large e) eqn:El.
      - specialize (Hslip eq_refl). cbn [pls] in *. lia.
      - cbn [pls] in *. lia. }
    cbn [refit] in Hfit, Hr. fold lgn Be e' in Hfit, Hr.
    cbn [sum_len] in Hfit, Hr.
    assert (Hcs := cascade_sum (elen e') r).
    set (TL := ZIPLIST_HEADER_SIZE + sum_len (removelast es)) in *.
    assert (Htr : 0 <= tail_rel e r <= elen e + sum_len r).
    { unfold tail_rel. destruct r as [ | x r' ].
      - assert (He := elen_nonneg e). cbn [sum_len]. lia.
      - assert (H1 := sum_len_firstn_le (x :: r') (pred (length (x :: r')))).
        rewrite <- removelast_firstn_len in H1.
        assert (H2 := sum_len_nonneg (removelast (x :: r'))).
        assert (He := elen_nonneg e). cbn [sum_len] in *. lia. }
    assert (Hzl' : zl = header T TL c ++ (A ++ F ++ Be ++ R) ++ [ZIP_END]).
    { rewrite Hzl. cbn [layout]. unfold entry_bytes. subst F Be R. list_eq. }
    assert (Hat : entry_at zl q pA e).
    { apply (entry_at_intro _ (header T TL c ++ A) _ _ (R ++ [ZIP_END])).
      - rewrite Hzl'. unfold entry_bytes. subst F Be. list_eq.
      - rewrite length_app, header_length. subst q. lia. }
    rewrite (entry_at_not_end _ _ _ _ Hat) by auto. cbn [negb].
    assert (Hnd : zipPrevLenByteDiff zl q rl = nd).
    { unfold zipPrevLenByteDiff.
      rewrite (entry_at_prevlensize _ _ _ _ Hat) by auto.
      now rewrite zipPrevEncodeLength_size_pls. }
    rewrite Hnd.
    unfold u32, uint. rewrite Z.mod_small by (subst T; lia).
    (* the blob grows *)
    set (m := Z.to_nat (rl + nd)).
    set (Y := firstn m (ZIP_END :: repeat 0 m)).
    assert (HY : zlen Y = rl + nd).
    { subst Y. rewrite length_firstn. cbn [length]. rewrite repeat_length.
      subst m. lia. }
    set (T' := T + rl + nd).
    assert (Hz1 : ziplistResize zl T'
                  = header T' TL c ++ A ++ F ++ Be ++ R ++ Y ++ [ZIP_END]).
    { rewrite Hzl'. rewrite (ziplistResize_grow' _ _ _ _ m).
      - subst Y. list_eq.
      - rewrite !length_app. subst T' T m. lia. }
    rewrite Hz1. clear Hz1.
    set (Z1 := header T' TL c ++ A ++ F ++ Be ++ R ++ Y ++ [ZIP_END]).
    assert (Hat1 : entry_at Z1 q pA e).
    { apply (entry_at_intro _ (header T' TL c ++ A) _ _
               (R ++ Y ++ [ZIP_END])).
      - subst Z1. unfold entry_bytes. subst F Be. list_eq.
      - rewrite length_app, header_length. subst q. lia. }
    rewrite (entry_at_not_end _ _ _ _ Hat1) by auto. cbn [negb].
    set (X := F ++ Be ++ R ++ Y ++ [ZIP_END]).
    set (W := firstn (Z.to_nat rl) X).
    assert (HX : zlen X = pls (large e) + zlen Be + sum_len r + rl + nd + 1).
    { subst X. rewrite !length_app. cbn [length]. lia. }
    assert (HW : zlen W = rl).
    { subst W. rewrite length_firstn. lia. }
    assert (Hz3 : memcpy (memmove Z1 (q + rl) (q - nd) (T - q - 1 + nd))
                         (q + rl) (prev_field lgn rl)
                  = header T' TL c ++ (A ++ W) ++ entry_bytes rl e'
                    ++ R ++ [ZIP_END]).
    { set (PF := header T' TL c ++ A ++ F).
      set (g := Z.to_nat (q - nd)).
      set (S0 := skipn g PF).
      assert (HPF : zlen PF = q + pls (large e)).
      { subst PF. rewrite !length_app, header_length. subst q. lia. }
      assert (HS0 : zlen S0 = pls lgn).
      { subst S0. rewrite length_skipn. subst g q. lia. }
      assert (HZ1 : Z1 = firstn g PF ++ S0 ++ (Be ++ R) ++ Y ++ [ZIP_END]).
      { subst S0. rewrite app_assoc, firstn_skipn. subst Z1 PF. list_eq. }
      unfold memmove.
      rewrite (sub_exact Z1 (firstn g PF) (S0 ++ Be ++ R) (Y ++ [ZIP_END]))
        by (try (rewrite HZ1; list_eq);
            rewrite ?length_firstn, ?length_app; subst g q T; lia).
      rewrite (memcpy_in Z1 (header T' TL c ++ A) X (q + rl) rl
                 (S0 ++ Be ++ R))
        by (try (subst Z1 X; list_eq); try lia;
            rewrite ?length_app, ?header_length; subst q; lia).
      fold W.
      replace (skipn (Z.to_nat rl + length (S0 ++ Be ++ R)) X)
        with [ZIP_END].
      2: { subst X. symmetry.
           replace (F ++ Be ++ R ++ Y ++ [ZIP_END])
             with ((F ++ Be ++ R ++ Y) ++ [ZIP_END]) by list_eq.
           apply skipn_app_exact. rewrite !length_app. lia. }
      rewrite (memcpy_exact _ (header T' TL c ++ A ++ W) S0
                 (Be ++ R ++ [ZIP_END]) _ (prev_field lgn rl)).
      - unfold entry_bytes. cbn [large body e']. list_eq.
      - list_eq.
      - rewrite !length_app, header_length. subst q. lia.
      - apply Nat2Z.inj. now rewrite prev_field_length. }
    rewrite Hz3. clear Hz3.
    rewrite ZIPLIST_TAIL_OFFSET_header, set_ZIPLIST_TAIL_OFFSET_header.
    assert (HTLb : TL = 10 + sum_len es1 + tail_rel e r) by exact HTLv.
    rewrite (Z.mod_small TL) by (subst T; lia).
    set (Z4 := header T' (TL + rl) c ++ (A ++ W) ++ entry_bytes rl e'
               ++ R ++ [ZIP_END]).
    assert (Hat4 : entry_at Z4 (q + rl) rl e').
    { apply (entry_at_intro _ (header T' (TL + rl) c ++ A ++ W) _ _
               (R ++ [ZIP_END])).
      - subst Z4. list_eq.
      - rewrite !length_app, header_length. subst q. lia. }
    assert (Hsmall' : large e' = false -> rl < ZIP_BIGLEN).
    { cbn [large e']. subst lgn.
      destruct (Z.ltb_spec rl ZIP_BIGLEN); [ auto | discriminate ]. }
    destruct (entry_at_zipEntry _ _ _ _ Hat4 ltac:(lia) Hsmall' Hebody)
      as (enc' & lsz' & l' & _ & -> & Hel' & _).
    cbn [headersize len].
    replace (q + (rl + (pls (large e') + lsz') + l'))
      with (q + rl + elen e') by lia.
    set (E' := entry_bytes rl e') in *.
    assert (HE' : zlen E' = elen e') by apply entry_bytes_length.
    set (TL5 := 10 + zlen (A ++ W) + tail_rel e' r).
    assert (Hz5 : (if negb (rd Z4 (q + rl + elen e') =? ZIP_END)
                   then set_ZIPLIST_TAIL_OFFSET Z4
                          (ZIPLIST_TAIL_OFFSET Z4 + nd)
                   else Z4)
                  = header T' TL5 c ++ (A ++ W) ++ E'
                    ++ layout (elen e) r ++ [ZIP_END]).
    { subst Z4. rewrite ZIPLIST_TAIL_OFFSET_header,
        set_ZIPLIST_TAIL_OFFSET_header.
      rewrite header_tail_mod.
      assert (Hpos : q + rl + elen e'
                     = zlen (header T' (TL + rl) c ++ (A ++ W) ++ E') + 0).
      { rewrite !length_app, header_length. subst q. lia. }
      fold R. destruct r as [ | x r' ].
      - rewrite (rd_at _ (header T' (TL + rl) c ++ (A ++ W) ++ E')
                   [ZIP_END] _ 0)
          by (try exact Hpos; try lia; subst R; list_eq).
        change (rd [ZIP_END] 0 =? ZIP_END) with true. cbn [negb].
        do 2 f_equal.
        subst TL5. rewrite length_app. unfold tail_rel in *. lia.
      - apply chain_ok_cons in Hcr'. destruct Hcr' as (Hx1 & Hx2 & Hx3 & _).
        rewrite (entry_at_not_end _ (q + rl + elen e') (elen e) x); auto.
        + cbn [negb]. do 2 f_equal. subst TL5. rewrite length_app.
          unfold tail_rel in *. lia.
        + apply (entry_at_intro _ (header T' (TL + rl) c ++ (A ++ W) ++ E')
                   _ _ (layout (elen x) r' ++ [ZIP_END])).
          * subst R. cbn [layout]. list_eq.
          * lia. }
    rewrite Hz5. clear Hz5.
    set (casc := cascade (elen e') r) in *.
    set (Z6 := header (10 + zlen (A ++ W) + elen e' + sum_len casc + 1)
                      (10 + zlen (A ++ W) + tail_rel e' casc) c
               ++ (A ++ W) ++ E' ++ layout (elen e') casc ++ [ZIP_END]).
    assert (Hz6 : (if negb (nd =? 0)
                   then __ziplistCascadeUpdate
                          (header T' TL5 c ++ (A ++ W) ++ E'
                           ++ layout (elen e) r ++ [ZIP_END]) (q + rl)
                   else @Some blob (header T' TL5 c ++ (A ++ W) ++ E'
                                    ++ layout (elen e) r ++ [ZIP_END]))
                  = Some Z6).
    { assert (HAW : zlen (A ++ W) = sum_len es1 + rl)
        by (rewrite length_app; lia).
      replace (q + rl) with (10 + zlen (A ++ W)) by (subst q; lia).
      destruct (Z.eqb_spec nd 0) as [ Hnd0 | Hnd0 ]; cbn [negb].
      - subst Z6 casc. rewrite (cascade_id (elen e') r)
          by (rewrite Hee', Hnd0, Z.add_0_r; exact Hcr').
        replace (elen e') with (elen e) by lia.
        do 2 f_equal. f_equal. subst T' T. lia.
      - subst Z6 casc E'. apply cascade_update_ok; auto; try lia. }
    rewrite Hz6. clear Hz6. cbn [obind]. subst Z6.
    rewrite <- (app_assoc A W).
    rewrite (Hwrite _ W (E' ++ layout (elen e') casc ++ [ZIP_END]))
      by (rewrite ?header_length; lia).
    rewrite ZIPLIST_INCR_LENGTH_header by exact Hc. fold c'.
    cbn [refit]. fold lgn Be e' casc.
    unfold ziplist_of. rewrite layout_app, sum_len_removelast_app, sum_len_app.
    cbn [layout sum_len]. fold pA A N E'.
    unfold tail_rel at 2. rewrite sum_len_removelast_cons.
    fold (tail_rel e' casc).
    unfold ZIPLIST_HEADER_SIZE. rewrite length_app.
    f_equal. f_equal; [ f_equal; lia | list_eq ].
Qed.





End Insert.

(** ** The operations on well-formed blobs *)

Lemma refit_length (L : Z) (es : list entry) :
  length (refit L es) = length es.
Proof.
  destruct es as [ | e r ]; [ reflexivity | ].
  cbn [refit length]. now rewrite cascade_length.
Qed.

Lemma refit_sum (L : Z) (es : list entry) :
  sum_len (refit L es) <= sum_len es + 4 * zlen es.
Proof.
  destruct es as [ | e r ]; [ cbn; lia | ].
  cbn [refit sum_len length].
  assert (H := cascade_sum (elen (mk_entry (negb (L <? ZIP_BIGLEN)) (body e))) r).
  unfold elen in *. cbn [large body] in *.
  destruct (negb (L <? ZIP_BIGLEN)), (large e); cbn [pls] in *; lia.
Qed.

Lemma ziplistNew_of : ziplistNew = ziplist_of 0 [].
Proof. reflexivity. Qed.

Lemma ziplist_ok_nil : ziplist_ok 0 [].
Proof.
  repeat split; try reflexivity; unfold UINT16_MAX; cbn; lia.
Qed.

Lemma delete_preserves_ok (c : Z) (es1 run es2 : list entry) :
  ziplist_ok c (es1 ++ run ++ es2) ->
  10 + sum_len (es1 ++ refit (plast 0 es1) es2) + 1 < 2 ^ 32 ->
  ziplist_ok (if c <? UINT16_MAX then c - zlen run else c)
             (es1 ++ refit (plast 0 es1) es2).
Proof.
  intros (Hchain & Hsize & Hc & Hcount) Hfit.
  rewrite !chain_ok_app, !andb_true_iff in Hchain.
  destruct Hchain as (Hc1 & Hc2 & Hc3).
  assert (HpA : 0 <= plast 0 es1) by (apply plast_nonneg; lia).
  repeat split;
    [ rewrite chain_ok_app, Hc1; cbn [andb];
      now apply (chain_ok_refit _ (plast (plast 0 es1) run))
    | exact Hfit | .. ].
  all: destruct (Z.ltb_spec c UINT16_MAX) as [ Hlt | ]; [ | lia ].
  all: assert (Hcc := Hcount Hlt); rewrite !length_app in Hcc.
  all: rewrite ?length_app, ?refit_length; lia.
Qed.

Section Operations.

Variable string2ll : list Z -> option Z.

Lemma entry_body_bound (s : list Z) :
  zlen (entry_body string2ll s) <= zlen s + 8.
Proof.
  assert (H := entry_body_reqlen string2ll s). unfold entry_body in *.
  destruct (zipTryEncoding string2ll s) as [ [v e] | ] eqn:E.
  - assert (Hl := zipTryEncoding_len _ _ _ _ E).
    assert (He := zipTryEncoding_enc _ _ _ _ E).
    rewrite <- H. unfold int_encs in He. cbn [In] in He.
    destruct (int_encs_not_str e (zipTryEncoding_enc _ _ _ _ E)) as [Hs _].
    rewrite zipEncodeLength_buf_int by exact Hs.
    cbn [length].
    repeat (destruct He as [ <- | He ]; [ cbn; lia | ]). destruct He.
  - rewrite <- H. unfold zipEncodeLength_buf.
    change (ZIP_IS_STR 0) with true. cbv iota.
    repeat match goal with
           | |- context [ if ?c then _ else _ ] => destruct c
           end; cbn [length]; lia.
Qed.

Lemma new_entry_bound (prev : Z) (s : list Z) :
  elen (new_entry string2ll prev s) <= zlen s + 13.
Proof.
  assert (H := entry_body_bound s). unfold elen, new_entry.
  cbn [large body]. destruct (negb (prev <? ZIP_BIGLEN)); cbn [pls]; lia.
Qed.

(** The size of the blob after an insert, from the size before. *)
Lemma insert_fits (c : Z) (es1 es2 : list entry) (s : list Z) :
  ziplist_ok c (es1 ++ es2) ->
  3 * zlen (ziplist_of c (es1 ++ es2)) + zlen s < 2 ^ 32 ->
  let new := new_entry string2ll (plast 0 es1) s in
  10 + sum_len (es1 ++ new :: refit (elen new) es2) + 1 < 2 ^ 32.
Proof.
  intros (Hchain & _) Hfit new.
  rewrite ziplist_of_length in Hfit. unfold ZIPLIST_HEADER_SIZE in Hfit.
  rewrite chain_ok_app, andb_true_iff in Hchain. destruct Hchain as (_ & H2).
  apply chain_ok_count in H2.
  assert (Hn := new_entry_bound (plast 0 es1) s). fold new in Hn.
  assert (Hr := refit_sum (elen new) es2).
  assert (Hs1 := sum_len_nonneg es1).
  rewrite sum_len_app in *. cbn [sum_len]. lia.
Qed.

Lemma delete_fits (c : Z) (es1 run es2 : list entry) :
  ziplist_ok c (es1 ++ run ++ es2) ->
  3 * zlen (ziplist_of c (es1 ++ run ++ es2)) < 2 ^ 32 ->
  10 + sum_len (es1 ++ refit (plast 0 es1) es2) + 1 < 2 ^ 32.
Proof.
  intros (Hchain & _) Hfit.
  rewrite ziplist_of_length in Hfit. unfold ZIPLIST_HEADER_SIZE in Hfit.
  rewrite !chain_ok_app, !andb_true_iff in Hchain.
  destruct Hchain as (_ & _ & H2). apply chain_ok_count in H2.
  assert (Hr := refit_sum (plast 0 es1) es2).
  assert (Hs1 := sum_len_nonneg es1). assert (Hs2 := sum_len_nonneg run).
  rewrite !sum_len_app in *. lia.
Qed.

Lemma insert_preserves_ok (c : Z) (es1 es2 : list entry) (s : list Z) :
  ziplist_ok c (es1 ++ es2) ->
  let new := new_entry string2ll (plast 0 es1) s in
  10 + sum_len (es1 ++ new :: refit (elen new) es2) + 1 < 2 ^ 32 ->
  ziplist_ok (if c <? UINT16_MAX then c + 1 else c)
             (es1 ++ new :: refit (elen new) es2).
Proof.
  intros (Hchain & Hsize & Hc & Hcount) new Hfit.
  rewrite !chain_ok_app, !andb_true_iff in Hchain.
  destruct Hchain as (Hc1 & Hc2).
  assert (HpA : 0 <= plast 0 es1) by (apply plast_nonneg; lia).
  assert (Hs1 := sum_len_nonneg es1).
  assert (Hr := sum_len_nonneg (refit (elen new) es2)).
  assert (Hbody : body_ok (entry_body string2ll s) = true).
  { apply entry_body_ok. rewrite sum_len_app in Hfit. cbn [sum_len] in Hfit.
    assert (H := entry_body_reqlen string2ll s).
    destruct (zipTryEncoding string2ll s) as [ [v e] | ] eqn:E.
    - apply zipTryEncoding_len in E. lia.
    - unfold new, new_entry, elen in Hfit, Hr. cbn [large body] in Hfit, Hr.
      assert (0 <= zlen (zipEncodeLength_buf 0 (zlen s))) by lia.
      destruct (negb (plast 0 es1 <? ZIP_BIGLEN)); cbn [pls] in Hfit, Hr; lia. }
  repeat split;
    [ rewrite chain_ok_app, Hc1; cbn [andb]; apply chain_ok_cons;
      repeat split; auto
    | exact Hfit | .. ].
  - unfold new, new_entry. cbn [large].
    destruct (Z.ltb_spec (plast 0 es1) ZIP_BIGLEN); [ auto | discriminate ].
  - apply (chain_ok_refit _ (plast 0 es1)); auto. apply elen_nonneg.
  - destruct (Z.ltb_spec c UINT16_MAX); lia.
  - destruct (Z.ltb_spec c UINT16_MAX); lia.
  - destruct (Z.ltb_spec c UINT16_MAX) as [ Hlt | ]; [ | lia ].
    intros _. assert (Hcc := Hcount Hlt).
    rewrite !length_app in *. cbn [length]. rewrite refit_length. lia.
Qed.

(** The size [reqlen] of the entry that [__ziplistInsert] makes room for. *)
Definition insert_reqlen (zl : blob) (q : Z) (s : list Z) : Z :=
  let slen := Z.of_nat (length s) in
  let prevlen :=
    if negb (rd zl q =? ZIP_END) then snd (ZIP_DECODE_PREVLEN zl q)
    else
      let ptail := ZIPLIST_ENTRY_TAIL zl in
      if negb (rd zl ptail =? ZIP_END) then zipRawEntryLength zl ptail
      else 0 in
  let '(value, enc, reqlen) :=
    match zipTryEncoding string2ll s with
    | Some (v, e) => (v, e, zipIntSize e)
    | None => (123456789, 0, slen)
    end in
  let reqlen := reqlen + snd (zipPrevEncodeLength zl None prevlen) in
  reqlen + snd (zipEncodeLength zl None enc slen).

(** The inserts that [__ziplistInsert] handles: not the one where the
    entry at [q] gives up 4 bytes of its [prevlen] field and the new entry
    takes less than 4 bytes. *)
Definition insert_guarded (zl : blob) (q : Z) (s : list Z) : Prop :=
  rd zl q <> ZIP_END -> ZIP_DECODE_PREVLENSIZE zl q = 5 ->
  4 <= insert_reqlen zl q s.

Lemma insert_reqlen_ok (c : Z) (es1 es2 : list entry) (s : list Z) :
  ziplist_ok c (es1 ++ es2) ->
  insert_reqlen (ziplist_of c (es1 ++ es2)) (10 + sum_len es1) s
  = elen (new_entry string2ll (plast 0 es1) s).
Proof.
  intros Hok. set (es := es1 ++ es2) in *. set (zl := ziplist_of c es).
  set (q := 10 + sum_len es1). set (pA := plast 0 es1).
  assert (Hq : entry_off es (length es1) = q) by apply entry_off_app.
  assert (Hprev : (if negb (rd zl q =? ZIP_END)
                   then snd (ZIP_DECODE_PREVLEN zl q)
                   else
                    if negb (rd zl (ZIPLIST_ENTRY_TAIL zl) =? ZIP_END)
                    then zipRawEntryLength zl (ZIPLIST_ENTRY_TAIL zl)
                    else 0) = pA).
  { destruct es2 as [ | e r ].
    - subst zl es. rewrite app_nil_r in *.
      rewrite <- Hq, (ok_end c es1 Hok). cbn [negb].
      unfold ZIPLIST_ENTRY_TAIL. rewrite (ok_tail c es1 Hok).
      destruct es1 as [ | x es1' ] using rev_ind.
      + assert (He := ok_end c [] Hok). cbn [length pred] in *. rewrite He.
        reflexivity.
      + clear IHes1'. rewrite length_app, Nat.add_comm.
        cbn [length Nat.add pred].
        rewrite (ok_not_end c _ Hok), (ok_rawlen c _ Hok)
          by (rewrite length_app; cbn [length]; lia).
        cbn [negb]. rewrite app_nth2, Nat.sub_diag by lia. cbn [nth].
        subst pA. now rewrite plast_snoc.
    - rewrite <- Hq. subst zl.
      assert (Hk : (length es1 < length es)%nat)
        by (subst es; rewrite length_app; cbn [length]; lia).
      rewrite (ok_not_end c es Hok), (ok_prevlen c es Hok) by exact Hk.
      cbn [negb snd]. unfold entry_prev, es.
      now rewrite firstn_app_exact. }
  unfold insert_reqlen. rewrite Hprev.
  assert (H := entry_body_reqlen string2ll s).
  unfold elen, new_entry. cbn [large body]. rewrite <- H. fold pA.
  destruct (zipTryEncoding string2ll s) as [ [v e] | ];
    cbn [zipPrevEncodeLength zipEncodeLength snd];
    rewrite zipPrevEncodeLength_size_pls; lia.
Qed.

Lemma insert_guarded_ok (c : Z) (es1 es2 : list entry) (s : list Z) :
  ziplist_ok c (es1 ++ es2) ->
  insert_guarded (ziplist_of c (es1 ++ es2)) (10 + sum_len es1) s ->
  match es2 with
  | [] => True
  | e :: _ => large e = true -> 4 <= elen (new_entry string2ll (plast 0 es1) s)
  end.
Proof.
  intros Hok Hg. destruct es2 as [ | e r ]; [ exact I | ]. intros Hl.
  rewrite <- (insert_reqlen_ok c es1 (e :: r) s Hok).
  assert (Hk : (length es1 < length (es1 ++ e :: r))%nat)
    by (rewrite length_app; cbn [length]; lia).
  assert (Hat := ziplist_of_entry_at c _ _ Hk).
  assert (Hn := chain_ok_nth _ _ (proj1 Hok) Hk).
  rewrite entry_off_app in Hat.
  rewrite app_nth2, Nat.sub_diag in Hat, Hn by lia. cbn [nth] in Hat, Hn.
  apply Hg.
  - assert (H := ok_not_end c _ Hok _ Hk). rewrite entry_off_app in H.
    now apply Z.eqb_neq.
  - rewrite (entry_at_prevlensize _ _ _ _ Hat) by apply Hn.
    now rewrite Hl.
Qed.

Lemma push_tail_ok (c : Z) (es : list entry) (s : list Z) (w : Z) :
  ziplist_ok c es -> w <> ZIPLIST_HEAD ->
  let new := new_entry string2ll (plast 0 es) s in
  10 + sum_len (es ++ [new]) + 1 < 2 ^ 32 ->
  ziplistPush string2ll (ziplist_of c es) s w
  = Some (ziplist_of (if c <? UINT16_MAX then c + 1 else c) (es ++ [new])).
Proof.
  intros Hok Hw new Hfit. unfold ziplistPush.
  destruct (Z.eqb_spec w ZIPLIST_HEAD) as [ | _ ]; [ contradiction | ].
  unfold ZIPLIST_ENTRY_END. rewrite (ok_bytes c es Hok).
  replace (ZIPLIST_HEADER_SIZE + sum_len es + 1 - 1) with (10 + sum_len es)
    by (unfold ZIPLIST_HEADER_SIZE; lia).
  assert (H := insert_ok string2ll c es [] s).
  rewrite app_nil_r in H. cbn [refit] in H. now apply H.
Qed.

Lemma push_head_ok (c : Z) (es : list entry) (s : list Z) :
  ziplist_ok c es ->
  let new := new_entry string2ll 0 s in
  10 + sum_len (new :: refit (elen new) es) + 1 < 2 ^ 32 ->
  match es with
  | [] => True
  | e :: _ => large e = true -> 4 <= elen new
  end ->
  ziplistPush string2ll (ziplist_of c es) s ZIPLIST_HEAD
  = Some (ziplist_of (if c <? UINT16_MAX then c + 1 else c)
                     (new :: refit (elen new) es)).
Proof.
  intros Hok new Hfit Hg. unfold ziplistPush.
  rewrite Z.eqb_refl. unfold ZIPLIST_ENTRY_HEAD.
  exact (insert_ok string2ll c [] es s Hok Hfit Hg).
Qed.

Lemma insert_at_ok (c : Z) (es : list entry) (k : nat) (s : list Z) :
  ziplist_ok c es ->
  let es1 := firstn k es in
  let es2 := skipn k es in
  let new := new_entry string2ll (plast 0 es1) s in
  10 + sum_len (es1 ++ new :: refit (elen new) es2) + 1 < 2 ^ 32 ->
  match es2 with
  | [] => True
  | e :: _ => large e = true -> 4 <= elen new
  end ->
  ziplistInsert string2ll (ziplist_of c es) (entry_off es k) s
  = Some (ziplist_of (if c <? UINT16_MAX then c + 1 else c)
                     (es1 ++ new :: refit (elen new) es2)).
Proof.
  intros Hok es1 es2 new Hfit Hg. unfold ziplistInsert, entry_off.
  fold es1. rewrite <- (firstn_skipn k es) in Hok |- * at 1.
  fold es1 es2 in Hok |- *.
  exact (insert_ok string2ll c es1 es2 s Hok Hfit Hg).
Qed.

End Operations.

Lemma delete_run_ok (c : Z) (es : list entry) (k : nat) (num : Z) :
  ziplist_ok c es -> (k < length es)%nat -> 1 <= num ->
  let es1 := firstn k es in
  let run := firstn (Z.to_nat num) (skipn k es) in
  let es2 := skipn (Z.to_nat num) (skipn k es) in
  10 + sum_len (es1 ++ refit (plast 0 es1) es2) + 1 < 2 ^ 32 ->
  __ziplistDelete (ziplist_of c es) (entry_off es k) num
  = Some (ziplist_of (if c <? UINT16_MAX then c - zlen run else c)
                     (es1 ++ refit (plast 0 es1) es2)).
Proof.
  intros Hok Hk Hnum es1 run es2 Hfit.
  assert (Hes : es = es1 ++ run ++ es2).
  { subst es1 run es2. now rewrite !firstn_skipn. }
  assert (Hsk : length (skipn k es) = (length es - k)%nat)
    by apply length_skipn.
  unfold entry_off. fold es1. rewrite Hes in Hok |- * at 1.
  apply delete_ok; auto.
  - subst run. intros H. apply (f_equal (@length entry)) in H.
    rewrite length_firstn in H. cbn [length] in H. lia.
  - subst run. rewrite length_firstn. lia.
  - subst run es2. rewrite length_firstn. intros H.
    apply skipn_all2. lia.
Qed.

(** ** The structural invariant *)

(** The entries of a blob from [q] on, as [zipEntry] reads them, up to the
    terminator. *)
Fixpoint entries_from (fuel : nat) (zl : blob) (q : Z)
  : option (list zlentry) :=
  match fuel with
  | O => None
  | S fuel' =>
    if rd zl q =? ZIP_END then Some []
    else
      r <- entries_from fuel' zl (q + zipRawEntryLength zl q) ;;
      Some (zipEntry zl q :: r)
  end.

Definition ziplist_entries (zl : blob) : option (list zlentry) :=
  entries_from (S (length zl)) zl (ZIPLIST_ENTRY_HEAD zl).

(** The byte length of an entry. *)
Definition rawlen (e : zlentry) : Z := headersize e + len e.

Fixpoint total_len (zes : list zlentry) : Z :=
  match zes with
  | [] => 0
  | e :: r => rawlen e + total_len r
  end.

(** Each [prevlen] field holds the byte length of the entry before. *)
Fixpoint prevlen_chain (prev : Z) (zes : list zlentry) : Prop :=
  match zes with
  | [] => True
  | e :: r => prevrawlen e = prev /\ prevlen_chain (rawlen e) r
  end.

(** The tail offset is the offset of the last entry, or of the terminator
    of an empty list. *)
Definition tail_points (zl : blob) (zes : list zlentry) : Prop :=
  match rev zes with
  | [] => ZIPLIST_TAIL_OFFSET zl = ZIPLIST_HEADER_SIZE /\
          rd zl (ZIPLIST_TAIL_OFFSET zl) = ZIP_END
  | e :: _ => ZIPLIST_TAIL_OFFSET zl = p e /\
              rd zl (p e + rawlen e) = ZIP_END
  end.

(** The count field is [min(n, 0xFFFF)]. *)
Definition count_min (field n : Z) : Prop := field = Z.min n UINT16_MAX.

(** The count field is the number of entries, or is saturated. *)
Definition count_saturating (field n : Z) : Prop :=
  field = Z.min n UINT16_MAX \/ field = UINT16_MAX.

Definition structural_invariant (count_ok : Z -> Z -> Prop) (zl : blob)
  : Prop :=
  exists zes,
    ziplist_entries zl = Some zes /\
    ZIPLIST_HEADER_SIZE + total_len zes + 1 = ZIPLIST_BYTES zl /\
    tail_points zl zes /\
    prevlen_chain 0 zes /\
    count_ok (ZIPLIST_LENGTH zl) (zlen zes).

(** The entry that [zipEntry] reads at [off] from the bytes of [e]. *)
Definition zentry_of (off prev : Z) (e : entry) : zlentry :=
  let '(enc, lsz, l) := ZIP_DECODE_LENGTH (body e) 0 in
  mk_zlentry (pls (large e)) prev lsz l (pls (large e) + lsz) enc off.

Fixpoint zentries (off prev : Z) (es : list entry) : list zlentry :=
  match es with
  | [] => []
  | e :: r => zentry_of off prev e :: zentries (off + elen e) (elen e) r
  end.

Lemma entries_from_ok (es : list entry) :
  forall (fuel : nat) (pre : list Z) (prev : Z),
    (length es < fuel)%nat -> chain_ok prev es = true -> prev < 2 ^ 32 ->
    zlen pre + sum_len es < 2 ^ 32 ->
    entries_from fuel (pre ++ layout prev es ++ [ZIP_END]) (zlen pre)
    = Some (zentries (zlen pre) prev es).
Proof.
  induction es as [ | e r IH ]; intros fuel pre prev Hfuel Hchain Hprev Hfit;
    (destruct fuel as [ | fuel ]; [ simpl in Hfuel; lia | ]);
    cbn [entries_from layout zentries].
  - rewrite (rd_at _ pre [ZIP_END] _ 0) by (auto; lia). reflexivity.
  - apply chain_ok_cons in Hchain. destruct Hchain as (H0 & Hs & Hb & Hr).
    assert (Hsr := sum_len_nonneg r). cbn [sum_len] in Hfit.
    assert (He := elen_ge_2 e Hb).
    set (zl := pre ++ (entry_bytes prev e ++ layout (elen e) r) ++ [ZIP_END]).
    assert (Hat : entry_at zl (zlen pre) prev e).
    { apply (entry_at_intro _ pre _ _ (layout (elen e) r ++ [ZIP_END]));
        [ subst zl; list_eq | reflexivity ]. }
    rewrite (entry_at_not_end _ _ _ _ Hat) by auto.
    rewrite (entry_at_rawlen _ _ _ _ Hat) by (auto; lia).
    destruct (entry_at_zipEntry _ _ _ _ Hat) as (enc & lsz & l & Hd & Hz & _);
      auto; try lia.
    rewrite Hz. unfold zentry_of. rewrite Hd.
    replace zl with ((pre ++ entry_bytes prev e) ++ layout (elen e) r
                     ++ [ZIP_END]) by (subst zl; list_eq).
    replace (zlen pre + elen e) with (zlen (pre ++ entry_bytes prev e))
      by (rewrite length_app, <- (entry_bytes_length prev e); lia).
    rewrite IH; auto; try (simpl in Hfuel; lia).
    rewrite length_app. rewrite <- (entry_bytes_length prev e) in Hfit. lia.
Qed.

Lemma zentry_of_fields (off prev : Z) (e : entry) :
  body_ok (body e) = true ->
  rawlen (zentry_of off prev e) = elen e /\
  prevrawlen (zentry_of off prev e) = prev /\
  p (zentry_of off prev e) = off.
Proof.
  intros Hb. unfold zentry_of, rawlen, elen.
  destruct (body_ok_inv _ Hb) as (enc & lsz & l & -> & _ & _ & Hl).
  cbn [headersize len prevrawlen p]. repeat split; lia.
Qed.

Lemma zentries_app (off prev : Z) (a b : list entry) :
  zentries off prev (a ++ b)
  = zentries off prev a ++ zentries (off + sum_len a) (plast prev a) b.
Proof.
  revert off prev. induction a as [ | e r IH ]; intros off prev.
  - cbn [app zentries sum_len plast fold_left]. now rewrite Z.add_0_r.
  - cbn [app zentries sum_len]. rewrite IH. cbn [app]. do 3 f_equal. lia.
Qed.

Lemma zentries_length (off prev : Z) (es : list entry) :
  length (zentries off prev es) = length es.
Proof.
  revert off prev. induction es as [ | e r IH ]; intros off prev;
    [ reflexivity | ].
  cbn [zentries length]. now rewrite IH.
Qed.

Lemma zentries_total (off prev : Z) (es : list entry) :
  chain_ok prev es = true -> total_len (zentries off prev es) = sum_len es.
Proof.
  revert off prev. induction es as [ | e r IH ]; intros off prev Hc;
    [ reflexivity | ].
  apply chain_ok_cons in Hc. destruct Hc as (_ & _ & Hb & Hr).
  cbn [zentries total_len sum_len]. rewrite IH by exact Hr.
  now rewrite (proj1 (zentry_of_fields off prev e Hb)).
Qed.

Lemma zentries_chain (off prev : Z) (es : list entry) :
  chain_ok prev es = true -> prevlen_chain prev (zentries off prev es).
Proof.
  revert off prev. induction es as [ | e r IH ]; intros off prev Hc;
    [ exact I | ].
  apply chain_ok_cons in Hc. destruct Hc as (_ & _ & Hb & Hr).
  cbn [zentries prevlen_chain].
  destruct (zentry_of_fields off prev e Hb) as (H1 & H2 & _).
  split; [ exact H2 | ]. rewrite H1. now apply IH.
Qed.

Lemma ziplist_entries_ok (c : Z) (es : list entry) :
  ziplist_ok c es ->
  ziplist_entries (ziplist_of c es) = Some (zentries 10 0 es).
Proof.
  intros (Hchain & Hsize & _).
  assert (Hs := sum_len_nonneg es). unfold ZIPLIST_HEADER_SIZE in Hsize.
  unfold ziplist_entries, ZIPLIST_ENTRY_HEAD, ziplist_of.
  set (hd := header _ _ c).
  assert (Hhd : zlen hd = 10)
    by (subst hd; rewrite header_length; reflexivity).
  change ZIPLIST_HEADER_SIZE with 10. rewrite <- Hhd.
  apply entries_from_ok; auto; try lia.
  rewrite !length_app. cbn [length].
  assert (Hn := chain_ok_count _ _ Hchain).
  assert (Hl := layout_length 0 es). lia.
Qed.

(** A well-formed blob has the structure that its header tells. *)
Lemma ziplist_ok_invariant (c : Z) (es : list entry) :
  ziplist_ok c es ->
  structural_invariant count_saturating (ziplist_of c es) /\
  (c = Z.min (zlen es) UINT16_MAX ->
   structural_invariant count_min (ziplist_of c es)).
Proof.
  intros Hok.
  assert (Hchain : chain_ok 0 es = true) by apply Hok.
  assert (Hsize : ZIPLIST_HEADER_SIZE + sum_len es + 1 < 2 ^ 32) by apply Hok.
  assert (Hinv : forall count_ok : Z -> Z -> Prop,
             count_ok c (zlen es) ->
             structural_invariant count_ok (ziplist_of c es)).
  { intros count_ok Hcount. exists (zentries 10 0 es).
    assert (Hs := sum_len_nonneg es). unfold ZIPLIST_HEADER_SIZE in Hsize.
    repeat split.
    - now apply ziplist_entries_ok.
    - rewrite (ok_bytes c es Hok), zentries_total by exact Hchain.
      reflexivity.
    - unfold tail_points. rewrite (ok_tail c es Hok).
      destruct es as [ | x a ] using rev_ind.
      + cbn [zentries rev length pred]. split; [ reflexivity | ].
        apply Z.eqb_eq. exact (ok_end c [] Hok).
      + clear IHa. rewrite zentries_app, rev_app_distr. cbn [zentries rev app].
        rewrite chain_ok_app, andb_true_iff in Hchain.
        destruct Hchain as (_ & Hx). apply chain_ok_cons in Hx.
        destruct Hx as (_ & _ & Hb & _).
        destruct (zentry_of_fields (10 + sum_len a) (plast 0 a) x Hb)
          as (H1 & _ & H3).
        rewrite H1, H3. rewrite length_app, Nat.add_comm.
        cbn [length Nat.add pred]. rewrite entry_off_app.
        split; [ reflexivity | ].
        assert (He := ziplist_of_end c (a ++ [x])).
        unfold entry_off in He. rewrite firstn_all, sum_len_app in He.
        cbn [sum_len] in He. unfold ZIPLIST_HEADER_SIZE in He.
        rewrite <- He. f_equal. lia.
    - now apply zentries_chain.
    - rewrite zentries_length, (ok_length c es Hok). exact Hcount. }
  split.
  - apply Hinv. destruct Hok as (_ & _ & Hc & Hcount). unfold count_saturating.
    destruct (Z.eq_dec c UINT16_MAX) as [ | Hne ]; [ now right | left ].
    rewrite <- Hcount by lia. lia.
  - intros Hc. apply Hinv. exact Hc.
Qed.

(** ** The blobs that the operations make *)

Lemma ziplistIndex_entry (c : Z) (es : list entry) (i q : Z) :
  ziplist_ok c es ->
  ziplistIndex (ziplist_of c es) i = Some (Some q) ->
  exists k, (k < length es)%nat /\ q = entry_off es k.
Proof.
  intros Hok H. rewrite (ziplistIndex_ok c es i Hok) in H.
  destruct (Z.leb_spec (- zlen es) i); [ | discriminate ].
  destruct (Z.leb_spec i (zlen es - 1)); [ | discriminate ].
  cbn [andb] in H. injection H as <-.
  eexists. split; [ | reflexivity ].
  destruct (Z.ltb_spec i 0); lia.
Qed.

Lemma delete_zero (zl : blob) (q : Z) : __ziplistDelete zl q 0 = Some zl.
Proof.
  unfold __ziplistDelete. cbn [delete_scan]. rewrite andb_false_r.
  cbn [obind]. unfold zipEntry.
  destruct (ZIP_DECODE_PREVLEN zl q) as [a b].
  destruct (ZIP_DECODE_LENGTH zl (q + a)) as [[e l] m]. cbn [p].
  now rewrite Z.sub_diag.
Qed.

Section Reach.

Variable string2ll : list Z -> option Z.

(** The blobs that push, insert, delete and delete-range make from
    [ziplistNew], as long as the sizes are far from the 32 bit limit and
    no insert is the one that [insert_guarded] leaves out. *)
Inductive reach : blob -> Prop :=
| reach_new : reach ziplistNew
| reach_push (zl : blob) (s : list Z) (w : Z) (zl' : blob) :
    reach zl ->
    3 * zlen zl + zlen s < 2 ^ 32 ->
    insert_guarded string2ll zl
      (if w =? ZIPLIST_HEAD then ZIPLIST_ENTRY_HEAD zl
       else ZIPLIST_ENTRY_END zl) s ->
    ziplistPush string2ll zl s w = Some zl' ->
    reach zl'
| reach_insert (zl : blob) (i q : Z) (s : list Z) (zl' : blob) :
    reach zl ->
    ziplistIndex zl i = Some (Some q) ->
    3 * zlen zl + zlen s < 2 ^ 32 ->
    insert_guarded string2ll zl q s ->
    ziplistInsert string2ll zl q s = Some zl' ->
    reach zl'
| reach_delete (zl : blob) (i q : Z) (zl' : blob) (q' : Z) :
    reach zl ->
    ziplistIndex zl i = Some (Some q) ->
    3 * zlen zl < 2 ^ 32 ->
    ziplistDelete zl q = Some (zl', q') ->
    reach zl'
| reach_deleteRange (zl : blob) (index num : Z) (zl' : blob) :
    reach zl ->
    0 <= index < 2 ^ 32 -> 0 <= num < 2 ^ 32 ->
    3 * zlen zl < 2 ^ 32 ->
    ziplistDeleteRange zl index num = Some zl' ->
    reach zl'.

End Reach.

Section Steps.

Variable string2ll : list Z -> option Z.

Variables (c : Z) (es : list entry).
Hypothesis Hok : ziplist_ok c es.

Let zl : blob := ziplist_of c es.

Lemma push_repr (s : list Z) (w : Z) :
  3 * zlen zl + zlen s < 2 ^ 32 ->
  insert_guarded string2ll zl
    (if w =? ZIPLIST_HEAD then ZIPLIST_ENTRY_HEAD zl
     else ZIPLIST_ENTRY_END zl) s ->
  exists c' es',
    ziplistPush string2ll zl s w = Some (ziplist_of c' es') /\
    ziplist_ok c' es'.
Proof using Hok.
  intros Hfit Hg. subst zl.
  destruct (Z.eqb_spec w ZIPLIST_HEAD) as [ -> | Hw ].
  - assert (Hsize := insert_fits string2ll c [] es s Hok Hfit).
    assert (Hg' := insert_guarded_ok string2ll c [] es s Hok Hg).
    cbn [app plast fold_left] in Hsize, Hg'.
    rewrite (push_head_ok string2ll c es s Hok Hsize Hg').
    eexists _, _. split; [ reflexivity | ].
    exact (insert_preserves_ok string2ll c [] es s Hok Hsize).
  - assert (Hok' : ziplist_ok c (es ++ [])) by now rewrite app_nil_r.
    assert (Hsize := insert_fits string2ll c es [] s Hok').
    rewrite app_nil_r in Hsize. specialize (Hsize Hfit).
    cbn [refit] in Hsize.
    rewrite (push_tail_ok string2ll c es s w Hok Hw Hsize).
    eexists _, _. split; [ reflexivity | ].
    exact (insert_preserves_ok string2ll c es [] s Hok' Hsize).
Qed.

Lemma insert_repr (i q : Z) (s : list Z) :
  ziplistIndex zl i = Some (Some q) ->
  3 * zlen zl + zlen s < 2 ^ 32 ->
  insert_guarded string2ll zl q s ->
  exists c' es',
    ziplistInsert string2ll zl q s = Some (ziplist_of c' es') /\
    ziplist_ok c' es'.
Proof using Hok.
  intros Hidx Hfit Hg. subst zl.
  destruct (ziplistIndex_entry c es i q Hok Hidx) as (k & Hk & ->).
  assert (Hok' : ziplist_ok c (firstn k es ++ skipn k es))
    by now rewrite firstn_skipn.
  assert (Hsize := insert_fits string2ll c _ _ s Hok').
  assert (Hg' := insert_guarded_ok string2ll c _ _ s Hok').
  rewrite firstn_skipn in Hsize, Hg'.
  specialize (Hsize Hfit). specialize (Hg' Hg).
  rewrite (insert_at_ok string2ll c es k s Hok Hsize Hg').
  eexists _, _. split; [ reflexivity | ].
  exact (insert_preserves_ok string2ll c _ _ s Hok' Hsize).
Qed.

Lemma delete_num_repr (k : nat) (num : Z) :
  (k < length es)%nat -> 1 <= num ->
  3 * zlen zl < 2 ^ 32 ->
  exists c' es',
    __ziplistDelete zl (entry_off es k) num = Some (ziplist_of c' es') /\
    ziplist_ok c' es'.
Proof using Hok.
  intros Hk Hnum Hfit. subst zl.
  assert (Hes : es = firstn k es ++ firstn (Z.to_nat num) (skipn k es)
                     ++ skipn (Z.to_nat num) (skipn k es))
    by now rewrite !firstn_skipn.
  assert (Hok' := Hok). rewrite Hes in Hok'.
  assert (Hfit' := Hfit). rewrite Hes in Hfit'.
  assert (Hsize := delete_fits c _ _ _ Hok' Hfit').
  rewrite (delete_run_ok c es k num Hok Hk) by (auto; lia).
  eexists _, _. split; [ reflexivity | ].
  exact (delete_preserves_ok c _ _ _ Hok' Hsize).
Qed.

Lemma delete_repr (i q : Z) :
  ziplistIndex zl i = Some (Some q) ->
  3 * zlen zl < 2 ^ 32 ->
  exists c' es',
    ziplistDelete zl q = Some (ziplist_of c' es', q) /\
    ziplist_ok c' es'.
Proof using Hok.
  intros Hidx Hfit.
  destruct (ziplistIndex_entry c es i q Hok Hidx) as (k & Hk & ->).
  destruct (delete_num_repr k 1 Hk) as (c' & es' & Hd & Hok'); auto; try lia.
  unfold ziplistDelete. rewrite Hd. cbn [obind].
  exists c', es'. split; [ reflexivity | exact Hok' ].
Qed.

Lemma deleteRange_repr (index num : Z) :
  0 <= num ->
  3 * zlen zl < 2 ^ 32 ->
  exists c' es',
    ziplistDeleteRange zl index num = Some (ziplist_of c' es') /\
    ziplist_ok c' es'.
Proof using Hok.
  intros Hn Hfit. unfold ziplistDeleteRange.
  assert (Hidx := ziplistIndex_ok c es (sint 32 index) Hok). fold zl in Hidx.
  destruct ((- zlen es <=? sint 32 index) && (sint 32 index <=? zlen es - 1));
    rewrite Hidx; unfold obind;
    [ | exists c, es; split; [ reflexivity | exact Hok ] ].
  destruct (ziplistIndex_entry c es _ _ Hok Hidx) as (k & Hk & Hq).
  rewrite Hq. clear Hq Hidx.
  destruct (Z.eq_dec num 0) as [ -> | Hnum ].
  { rewrite delete_zero. exists c, es. split; [ reflexivity | exact Hok ]. }
  apply delete_num_repr; auto. lia.
Qed.

End Steps.

(** Every reachable blob is the layout of a well-formed list of entries. *)
Lemma reach_repr (string2ll : list Z -> option Z) (zl : blob) :
  reach string2ll zl ->
  exists c es, zl = ziplist_of c es /\ ziplist_ok c es.
Proof.
  induction 1 as
    [ | zl s w zl' _ IH Hfit Hg Hpush
      | zl i q s zl' _ IH Hidx Hfit Hg Hins
      | zl i q zl' q' _ IH Hidx Hfit Hdel
      | zl index num zl' _ IH Hi Hn Hfit Hdel ].
  - exists 0, []. split; [ apply ziplistNew_of | apply ziplist_ok_nil ].
  - destruct IH as (c & es & -> & Hok).
    destruct (push_repr string2ll c es Hok s w Hfit Hg) as (c' & es' & H & Hok').
    rewrite H in Hpush. injection Hpush as <-. exists c', es'. split; [ reflexivity | exact Hok' ].
  - destruct IH as (c & es & -> & Hok).
    destruct (insert_repr string2ll c es Hok i q s Hidx Hfit Hg)
      as (c' & es' & H & Hok').
    rewrite H in Hins. injection Hins as <-. exists c', es'. split; [ reflexivity | exact Hok' ].
  - destruct IH as (c & es & -> & Hok).
    destruct (delete_repr c es Hok i q Hidx Hfit) as (c' & es' & H & Hok').
    rewrite H in Hdel. injection Hdel as <- _. exists c', es'. split; [ reflexivity | exact Hok' ].
  - destruct IH as (c & es & -> & Hok).
    destruct (deleteRange_repr c es Hok index num (proj1 Hn) Hfit)
      as (c' & es' & H & Hok').
    rewrite H in Hdel. injection Hdel as <-. exists c', es'. split; [ reflexivity | exact Hok' ].
Qed.

(** The guarded operations return on a reachable blob. *)
Definition operations_return (string2ll : list Z -> option Z) (zl : blob)
  : Prop :=
  (forall s w,
      3 * zlen zl + zlen s < 2 ^ 32 ->
      insert_guarded string2ll zl
        (if w =? ZIPLIST_HEAD then ZIPLIST_ENTRY_HEAD zl
         else ZIPLIST_ENTRY_END zl) s ->
      exists zl', ziplistPush string2ll zl s w = Some zl') /\
  (forall i q s,
      ziplistIndex zl i = Some (Some q) ->
      3 * zlen zl + zlen s < 2 ^ 32 ->
      insert_guarded string2ll zl q s ->
      exists zl', ziplistInsert string2ll zl q s = Some zl') /\
  (forall i q,
      ziplistIndex zl i = Some (Some q) ->
      3 * zlen zl < 2 ^ 32 ->
      exists zl', ziplistDelete zl q = Some (zl', q)) /\
  (forall index num,
      0 <= index < 2 ^ 32 -> 0 <= num < 2 ^ 32 ->
      3 * zlen zl < 2 ^ 32 ->
      exists zl', ziplistDeleteRange zl index num = Some zl').

(** C1, amended: every blob that push, insert, delete and delete-range make
    from [ziplistNew], while the sizes stay far from the 32 bit limit and
    no insert puts an entry of less than 4 bytes in front of an entry whose
    5 byte [prevlen] field it shrinks, has the structure that its header
    tells: the entry lengths, the header and the terminator add up to the
    bytes field; the tail offset is the offset of the last entry, or of the
    terminator of the empty list; each [prevlen] field is the length of the
    entry before; the count field is the number of entries, or is 0xFFFF.
    The guarded operations return on such a blob. *)
Theorem reach_structural_invariant (string2ll : list Z -> option Z)
    (zl : blob) :
  reach string2ll zl ->
  structural_invariant count_saturating zl /\ operations_return string2ll zl.
Proof.
  intros H. destruct (reach_repr _ _ H) as (c & es & -> & Hok). split.
  - now apply ziplist_ok_invariant.
  - repeat split.
    + intros s w Hfit Hg.
      destruct (push_repr string2ll c es Hok s w Hfit Hg) as (c' & es' & E & _).
      eauto.
    + intros i q s Hidx Hfit Hg.
      destruct (insert_repr string2ll c es Hok i q s Hidx Hfit Hg)
        as (c' & es' & E & _).
      eauto.
    + intros i q Hidx Hfit.
      destruct (delete_repr c es Hok i q Hidx Hfit) as (c' & es' & E & _).
      eauto.
    + intros index num _ Hn Hfit.
      destruct (deleteRange_repr c es Hok index num (proj1 Hn) Hfit)
        as (c' & es' & E & _).
      eauto.
Qed.

(** *** Lists of equal entries *)

(** A string of 32 bytes, which no insert tries to read as an integer, and
    its entry after a short entry. *)
Definition filler : list Z := repeat 120 32.

Definition filler_entry : entry := mk_entry false (32 :: filler).

Lemma sum_len_repeat (e : entry) (n : nat) :
  sum_len (repeat e n) = Z.of_nat n * elen e.
Proof.
  induction n as [ | n IH ]; [ reflexivity | ].
  cbn [repeat sum_len]. rewrite IH. lia.
Qed.

Lemma chain_ok_filler (n : nat) (prev : Z) :
  0 <= prev < ZIP_BIGLEN -> chain_ok prev (repeat filler_entry n) = true.
Proof.
  revert prev. induction n as [ | n IH ]; intros prev Hp; [ reflexivity | ].
  cbn [repeat]. apply chain_ok_cons. repeat split; try lia.
  apply IH. vm_compute. split; [ discriminate | reflexivity ].
Qed.

Lemma plast_filler (n : nat) :
  plast 0 (repeat filler_entry n) = if Nat.eqb n 0 then 0 else 34.
Proof.
  destruct n as [ | n ]; [ reflexivity | ].
  cbn [Nat.eqb repeat]. rewrite repeat_cons. apply plast_snoc.
Qed.

Lemma ziplist_ok_filler (c : Z) (n : nat) :
  Z.of_nat n <= 2 ^ 24 -> 0 <= c <= UINT16_MAX ->
  (c < UINT16_MAX -> c = Z.of_nat n) ->
  ziplist_ok c (repeat filler_entry n).
Proof.
  intros Hn Hc Hcount. repeat split; try apply Hc.
  - apply chain_ok_filler. unfold ZIP_BIGLEN. lia.
  - rewrite sum_len_repeat. change (elen filler_entry) with 34.
    unfold ZIPLIST_HEADER_SIZE. lia.
  - rewrite repeat_length. exact Hcount.
Qed.

Lemma new_entry_filler (string2ll : list Z -> option Z) (n : nat) :
  new_entry string2ll (plast 0 (repeat filler_entry n)) filler = filler_entry.
Proof.
  rewrite plast_filler. destruct (Nat.eqb n 0); reflexivity.
Qed.

(** Pushing [filler] at the tail [n] times. *)
Lemma reach_filler (string2ll : list Z -> option Z) (n : nat) :
  Z.of_nat n <= UINT16_MAX + 1 ->
  reach string2ll (ziplist_of (Z.min (Z.of_nat n) UINT16_MAX)
                              (repeat filler_entry n)).
Proof.
  induction n as [ | n IH ]; intros Hn.
  - exact (reach_new string2ll).
  - assert (Hn' : Z.of_nat n <= UINT16_MAX) by lia.
    specialize (IH ltac:(lia)).
    rewrite Z.min_l in IH by lia.
    assert (Hok : ziplist_ok (Z.of_nat n) (repeat filler_entry n))
      by (apply ziplist_ok_filler; unfold UINT16_MAX in *; lia).
    apply (reach_push string2ll _ filler ZIPLIST_TAIL _ IH).
    + rewrite ziplist_of_length, sum_len_repeat.
      change (elen filler_entry) with 34. change (zlen filler) with 32.
      unfold ZIPLIST_HEADER_SIZE, UINT16_MAX in *. lia.
    + change (ZIPLIST_TAIL =? ZIPLIST_HEAD) with false. cbv iota.
      intros Hne _. exfalso. apply Hne.
      unfold ZIPLIST_ENTRY_END. rewrite (ok_bytes _ _ Hok).
      assert (He := ziplist_of_end (Z.of_nat n) (repeat filler_entry n)).
      unfold entry_off in He. rewrite firstn_all in He. rewrite <- He.
      f_equal. lia.
    + rewrite (push_tail_ok string2ll _ _ filler ZIPLIST_TAIL Hok)
        by (try discriminate; rewrite new_entry_filler, sum_len_app,
            sum_len_repeat; change (elen filler_entry) with 34;
            cbn [sum_len]; change (elen filler_entry) with 34;
            unfold UINT16_MAX in *; lia).
      rewrite new_entry_filler, <- repeat_cons. cbn [repeat]. do 2 f_equal.
      destruct (Z.ltb_spec (Z.of_nat n) UINT16_MAX); lia.
Qed.

(** Deleting the last entry. *)
Lemma delete_tail_ok (c : Z) (es : list entry) (x : entry) :
  ziplist_ok c (es ++ [x]) ->
  let zl := ziplist_of c (es ++ [x]) in
  ziplistIndex zl (-1) = Some (Some (10 + sum_len es)) /\
  ziplistDelete zl (10 + sum_len es)
  = Some (ziplist_of (if c <? UINT16_MAX then c - 1 else c) es,
          10 + sum_len es).
Proof.
  intros Hok zl. split.
  - subst zl. rewrite (ziplistIndex_ok _ _ (-1) Hok).
    rewrite length_app. cbn [length].
    destruct (Z.leb_spec (- Z.of_nat (length es + 1)) (-1)); [ | lia ].
    destruct (Z.leb_spec (-1) (Z.of_nat (length es + 1) - 1)); [ | lia ].
    cbn [andb]. change (-1 <? 0) with true. cbv iota.
    replace (Z.to_nat (Z.of_nat (length es + 1) + -1)) with (length es) by lia.
    now rewrite entry_off_app.
  - unfold ziplistDelete. subst zl.
    assert (Hs : 10 + sum_len (es ++ refit (plast 0 es) []) + 1 < 2 ^ 32).
    { destruct Hok as (Hch & Hsz & _). cbn [refit]. rewrite app_nil_r.
      rewrite sum_len_app in Hsz. cbn [sum_len] in Hsz.
      rewrite chain_ok_app, andb_true_iff in Hch. destruct Hch as (_ & Hx).
      apply chain_ok_cons in Hx. destruct Hx as (_ & _ & Hb & _).
      apply elen_ge_2 in Hb. unfold ZIPLIST_HEADER_SIZE in Hsz. lia. }
    assert (H := delete_ok c es [x] [] 1). cbn [app] in H.
    rewrite H; auto; try discriminate; try (cbn [length]; lia).
    cbn [refit obind]. now rewrite app_nil_r.
Qed.

(** After 65535 pushes and one delete the count field is 0xFFFF and the
    list has 65534 entries. *)
Lemma stale_count (string2ll : list Z -> option Z) (n : nat) :
  Z.of_nat n = UINT16_MAX - 1 ->
  let zl := ziplist_of UINT16_MAX (repeat filler_entry n) in
  reach string2ll zl /\ ~ structural_invariant count_min zl.
Proof.
  intros Hn zl. split.
  - assert (Hr := reach_filler string2ll (S n)).
    rewrite Z.min_r in Hr by lia. specialize (Hr ltac:(lia)).
    cbn [repeat] in Hr. rewrite repeat_cons in Hr.
    assert (Hok : ziplist_ok UINT16_MAX (repeat filler_entry n ++ [filler_entry])).
    { rewrite <- repeat_cons. apply (ziplist_ok_filler _ (S n));
        unfold UINT16_MAX in *; lia. }
    destruct (delete_tail_ok _ _ _ Hok) as (Hidx & Hdel).
    eapply (reach_delete string2ll _ (-1) _ _ _ Hr Hidx); [ | exact Hdel ].
    rewrite ziplist_of_length, sum_len_app, sum_len_repeat.
    cbn [sum_len]. change (elen filler_entry) with 34.
    unfold ZIPLIST_HEADER_SIZE, UINT16_MAX in *. lia.
  - intros (zes & Hent & _ & _ & _ & Hcount).
    assert (Hok : ziplist_ok UINT16_MAX (repeat filler_entry n))
      by (apply ziplist_ok_filler; unfold UINT16_MAX in *; lia).
    subst zl. rewrite (ziplist_entries_ok _ _ Hok) in Hent.
    injection Hent as <-.
    rewrite (ok_length _ _ Hok), zentries_length, repeat_length in Hcount.
    unfold count_min in Hcount. lia.
Qed.

(** C1 fails as stated: after 65535 pushes at the tail and one delete the
    count field is 0xFFFF and the list has 65534 entries, so that the count
    field is not [min(n, 0xFFFF)]. *)
Lemma count_field_stale :
  let zl := ziplist_of UINT16_MAX
                       (repeat filler_entry (Z.to_nat (UINT16_MAX - 1))) in
  reach string2ll_spec zl /\ ~ structural_invariant count_min zl.
Proof.
  apply stale_count. rewrite Z2Nat.id; [ reflexivity | ].
  unfold UINT16_MAX. lia.
Qed.

Lemma reach_structural_invariant_witness :
  reach string2ll_spec (ziplist_of 2 (repeat filler_entry 2)) /\
  structural_invariant count_saturating (ziplist_of 2 (repeat filler_entry 2)).
Proof.
  assert (H : reach string2ll_spec (ziplist_of 2 (repeat filler_entry 2))).
  { apply (reach_filler string2ll_spec 2). unfold UINT16_MAX. lia. }
  split; [ exact H | ].
  apply (reach_structural_invariant string2ll_spec _ H).
Defined.

(** ** Push at the tail, then delete the tail *)

Lemma push_delete_tail_ok (string2ll : list Z -> option Z) (c : Z)
    (es : list entry) (s : list Z) :
  ziplist_ok c es ->
  zlen (ziplist_of c es) + zlen s + 13 < 2 ^ 32 ->
  let zl := ziplist_of c es in
  let c1 := if c <? UINT16_MAX then c + 1 else c in
  let c2 := if c1 <? UINT16_MAX then c1 - 1 else c1 in
  let q := 10 + sum_len es in
  exists zl1,
    ziplistPush string2ll zl s ZIPLIST_TAIL = Some zl1 /\
    ziplistIndex zl1 (-1) = Some (Some q) /\
    ziplistDelete zl1 q = Some (ziplist_of c2 es, q).
Proof.
  intros Hok Hfit zl c1 c2 q.
  set (new := new_entry string2ll (plast 0 es) s).
  assert (Hsize : 10 + sum_len (es ++ [new]) + 1 < 2 ^ 32).
  { rewrite ziplist_of_length in Hfit. unfold ZIPLIST_HEADER_SIZE in Hfit.
    assert (Hn := new_entry_bound string2ll (plast 0 es) s). fold new in Hn.
    rewrite sum_len_app. cbn [sum_len]. lia. }
  assert (Hok' : ziplist_ok c (es ++ [])) by now rewrite app_nil_r.
  assert (Hok1 := insert_preserves_ok string2ll c es [] s Hok' Hsize).
  cbn [refit] in Hok1. fold new c1 in Hok1.
  exists (ziplist_of c1 (es ++ [new])). split.
  - subst zl. rewrite (push_tail_ok string2ll c es s ZIPLIST_TAIL Hok);
      [ reflexivity | discriminate | exact Hsize ].
  - exact (delete_tail_ok c1 es new Hok1).
Qed.

(** C5, amended: on a list whose count field is not 0xFFFE and whose size
    leaves room for the entry, pushing [s] at the tail and then deleting the
    tail entry gives back the blob, byte for byte. *)
Theorem push_delete_tail (string2ll : list Z -> option Z) (c : Z)
    (es : list entry) (s : list Z) :
  ziplist_ok c es ->
  c <> UINT16_MAX - 1 ->
  zlen (ziplist_of c es) + zlen s + 13 < 2 ^ 32 ->
  let zl := ziplist_of c es in
  exists zl1 q,
    ziplistPush string2ll zl s ZIPLIST_TAIL = Some zl1 /\
    ziplistIndex zl1 (-1) = Some (Some q) /\
    ziplistDelete zl1 q = Some (zl, q).
Proof.
  intros Hok Hc Hfit zl.
  destruct (push_delete_tail_ok string2ll c es s Hok Hfit)
    as (zl1 & Hpush & Hidx & Hdel).
  exists zl1, (10 + sum_len es). repeat split; auto.
  rewrite Hdel. subst zl. do 3 f_equal.
  assert (Hcb : 0 <= c <= UINT16_MAX) by apply Hok.
  destruct (Z.ltb_spec c UINT16_MAX);
    [ destruct (Z.ltb_spec (c + 1) UINT16_MAX) | 
      destruct (Z.ltb_spec c UINT16_MAX) ]; lia.
Qed.

Lemma push_delete_tail_witness :
  ziplist_ok 2 two_entries /\
  exists zl1 q,
    ziplistPush string2ll_spec (ziplist_of 2 two_entries) [49; 48; 50; 52]
                ZIPLIST_TAIL = Some zl1 /\
    ziplistIndex zl1 (-1) = Some (Some q) /\
    ziplistDelete zl1 q = Some (ziplist_of 2 two_entries, q).
Proof.
  split; [ exact two_entries_ok | ].
  apply (push_delete_tail string2ll_spec 2 two_entries [49; 48; 50; 52]
           two_entries_ok).
  - discriminate.
  - vm_compute. reflexivity.
Defined.

(** C5 fails as stated: on the list of 65534 entries, whose count field is
    0xFFFE, the push takes the count field to 0xFFFF, where the delete
    leaves it; the blob is not the one before the push. *)
Lemma push_delete_tail_count :
  let n := Z.to_nat (UINT16_MAX - 1) in
  let zl := ziplist_of (UINT16_MAX - 1) (repeat filler_entry n) in
  let zl2 := ziplist_of UINT16_MAX (repeat filler_entry n) in
  reach string2ll_spec zl /\
  (exists zl1 q,
     ziplistPush string2ll_spec zl filler ZIPLIST_TAIL = Some zl1 /\
     ziplistIndex zl1 (-1) = Some (Some q) /\
     ziplistDelete zl1 q = Some (zl2, q)) /\
  ZIPLIST_LENGTH zl = UINT16_MAX - 1 /\
  ZIPLIST_LENGTH zl2 = UINT16_MAX /\
  zl2 <> zl.
Proof.
  intros n zl zl2.
  assert (Hn : Z.of_nat n = UINT16_MAX - 1)
    by (subst n; rewrite Z2Nat.id; unfold UINT16_MAX; lia).
  assert (Hok : ziplist_ok (UINT16_MAX - 1) (repeat filler_entry n))
    by (apply ziplist_ok_filler; unfold UINT16_MAX in *; lia).
  assert (Hok2 : ziplist_ok UINT16_MAX (repeat filler_entry n))
    by (apply ziplist_ok_filler; unfold UINT16_MAX in *; lia).
  assert (Hl : ZIPLIST_LENGTH zl = UINT16_MAX - 1) by apply (ok_length _ _ Hok).
  assert (Hl2 : ZIPLIST_LENGTH zl2 = UINT16_MAX) by apply (ok_length _ _ Hok2).
  split; [ | split; [ | split; [ exact Hl | split; [ exact Hl2 | ] ] ] ].
  - assert (Hr := reach_filler string2ll_spec n).
    rewrite Z.min_l in Hr by lia. rewrite Hn in Hr. apply Hr. lia.
  - destruct (push_delete_tail_ok string2ll_spec _ _ filler Hok)
      as (zl1 & Hpush & Hidx & Hdel).
    + rewrite ziplist_of_length, sum_len_repeat.
      change (elen filler_entry) with 34. change (zlen filler) with 32.
      unfold ZIPLIST_HEADER_SIZE, UINT16_MAX in *. lia.
    + exists zl1, (10 + sum_len (repeat filler_entry n)).
      split; [ exact Hpush | split; [ exact Hidx | exact Hdel ] ].
  - intros E. rewrite E, Hl in Hl2. unfold UINT16_MAX in Hl2. lia.
Qed.

(** ** The width of a [prevlen] field across insert and delete *)

Lemma cascade_absorb (L L' : Z) (es : list entry) :
  L <= L' -> cascade L (cascade L' es) = cascade L' es.
Proof.
  intros HL. destruct es as [ | x r ]; [ reflexivity | ].
  cbn [cascade]. destruct (large x) eqn:Hx.
  - cbn [cascade]. now rewrite Hx.
  - destruct (Z.ltb_spec L' ZIP_BIGLEN).
    + cbn [cascade]. rewrite Hx.
      destruct (Z.ltb_spec L ZIP_BIGLEN); [ reflexivity | lia ].
    + reflexivity.
Qed.

Lemma prevlensize_at (c : Z) (a : list entry) (e : entry) (b : list entry) :
  ziplist_ok c (a ++ e :: b) ->
  ZIP_DECODE_PREVLENSIZE (ziplist_of c (a ++ e :: b)) (10 + sum_len a)
  = pls (large e).
Proof.
  intros Hok.
  assert (Hk : (length a < length (a ++ e :: b))%nat)
    by (rewrite length_app; cbn [length]; lia).
  assert (Hat := ziplist_of_entry_at c _ _ Hk).
  assert (Hn := chain_ok_nth _ _ (proj1 Hok) Hk).
  rewrite entry_off_app in Hat.
  rewrite app_nth2, Nat.sub_diag in Hat, Hn by lia. cbn [nth] in Hat, Hn.
  apply (entry_at_prevlensize _ _ _ _ Hat). apply Hn.
Qed.

(** Insert an entry of 254 bytes or more in front of an entry with a 1 byte
    [prevlen] field, then delete it: the field goes to 5 bytes and comes
    back to 1 byte; the entries further on keep what the cascade of the
    insert gave them. *)
Lemma insert_delete_ok (string2ll : list Z -> option Z) (c : Z)
    (es1 : list entry) (e : entry) (r : list entry) (s : list Z) :
  ziplist_ok c (es1 ++ e :: r) ->
  large e = false ->
  let new := new_entry string2ll (plast 0 es1) s in
  ZIP_BIGLEN <= elen new ->
  10 + sum_len (es1 ++ new :: refit (elen new) (e :: r)) + 1 < 2 ^ 32 ->
  let zl := ziplist_of c (es1 ++ e :: r) in
  let q := 10 + sum_len es1 in
  let c1 := if c <? UINT16_MAX then c + 1 else c in
  let c2 := if c1 <? UINT16_MAX then c1 - 1 else c1 in
  exists zl2,
    ZIP_DECODE_PREVLENSIZE zl q = 1 /\
    ziplistInsert string2ll zl q s = Some zl2 /\
    ZIP_DECODE_PREVLENSIZE zl2 (q + elen new) = 5 /\
    ziplistDelete zl2 q
    = Some (ziplist_of c2 (es1 ++ e :: cascade (elen e + 4) r), q) /\
    ZIP_DECODE_PREVLENSIZE
      (ziplist_of c2 (es1 ++ e :: cascade (elen e + 4) r)) q = 1.
Proof.
  intros Hok Hle new Hbig Hsize zl q c1 c2.
  assert (Hchain : chain_ok 0 (es1 ++ e :: r) = true) by apply Hok.
  rewrite chain_ok_app, andb_true_iff in Hchain.
  destruct Hchain as (Hc1 & Hce). apply chain_ok_cons in Hce.
  destruct Hce as (HpA & Hsmall & Hbe & Hcr). specialize (Hsmall Hle).
  set (e' := mk_entry true (body e)).
  assert (He' : elen e' = elen e + 4)
    by (unfold elen, e'; cbn [large body]; rewrite Hle; cbn [pls]; lia).
  assert (Hrefit : refit (elen new) (e :: r) = e' :: cascade (elen e + 4) r).
  { cbn [refit]. destruct (Z.ltb_spec (elen new) ZIP_BIGLEN); [ lia | ].
    cbn [negb]. fold e'. now rewrite He'. }
  rewrite Hrefit in Hsize.
  assert (Hok2 := insert_preserves_ok string2ll c es1 (e :: r) s Hok).
  cbv zeta in Hok2. fold new in Hok2. rewrite Hrefit in Hok2.
  specialize (Hok2 Hsize). fold c1 in Hok2.
  assert (Hins := insert_ok string2ll c es1 (e :: r) s Hok).
  cbv zeta in Hins. fold new in Hins. rewrite Hrefit in Hins.
  specialize (Hins Hsize ltac:(intros H; congruence)). fold c1 zl q in Hins.
  assert (Hback : refit (plast 0 es1) (e' :: cascade (elen e + 4) r)
                  = e :: cascade (elen e + 4) r).
  { cbn [refit body]. destruct (Z.ltb_spec (plast 0 es1) ZIP_BIGLEN); [ | lia ].
    cbn [negb]. unfold e'. destruct e as [lg b]. cbn [large body] in *.
    subst lg. f_equal. apply cascade_absorb. lia. }
  assert (Hsize3 : 10 + sum_len (es1 ++ refit (plast 0 es1)
                                   (e' :: cascade (elen e + 4) r)) + 1
                   < 2 ^ 32).
  { rewrite Hback. rewrite !sum_len_app in *. cbn [sum_len] in *.
    assert (Hn := elen_nonneg new). lia. }
  assert (Hok2' : ziplist_ok c1 (es1 ++ [new] ++ e' :: cascade (elen e + 4) r))
    by exact Hok2.
  assert (Hok3 := delete_preserves_ok c1 es1 [new] _ Hok2' Hsize3).
  assert (Hdel := delete_ok c1 es1 [new] (e' :: cascade (elen e + 4) r) 1
                    Hok2' ltac:(discriminate) ltac:(cbn [length]; lia)
                    ltac:(cbn [length]; lia) Hsize3).
  rewrite Hback in Hok3, Hdel.
  change (zlen [new]) with 1 in Hok3, Hdel. fold c2 q in Hok3, Hdel.
  exists (ziplist_of c1 (es1 ++ new :: e' :: cascade (elen e + 4) r)).
  repeat split.
  - subst zl q. rewrite (prevlensize_at c es1 e r Hok), Hle. reflexivity.
  - exact Hins.
  - assert (H := prevlensize_at c1 (es1 ++ [new]) e'
                   (cascade (elen e + 4) r)).
    rewrite <- app_assoc in H. specialize (H Hok2).
    rewrite sum_len_app in H. cbn [sum_len] in H.
    change (pls (large e')) with 5 in H. rewrite <- H. subst q.
    f_equal. lia.
  - unfold ziplistDelete. cbn [app] in Hdel. rewrite Hdel. reflexivity.
  - subst q. rewrite (prevlensize_at c2 es1 e _ Hok3), Hle. reflexivity.
Qed.

(** The cascade at an entry [cur] whose successor [x] has a 5 byte
    [prevlen] field that holds another length: the field stays 5 bytes wide
    and takes the length of [cur], whatever its size; nothing else moves. *)
Lemma cascade_keeps_large (P : list Z) (cur x : entry) (r : list entry)
    (pv Lold T TL c : Z) :
  body_ok (body cur) = true ->
  (large cur = false -> pv < ZIP_BIGLEN) -> 0 <= pv < 2 ^ 32 ->
  large x = true -> chain_ok Lold (x :: r) = true -> Lold < 2 ^ 32 ->
  T = 10 + zlen P + elen cur + sum_len (x :: r) + 1 -> T < 2 ^ 32 ->
  TL = 10 + zlen P + tail_rel cur (x :: r) ->
  let before := header T TL c ++ P ++ entry_bytes pv cur
                ++ ((ZIP_BIGLEN :: le_bytes 4 Lold) ++ body x)
                ++ layout (elen x) r ++ [ZIP_END] in
  let after := header T TL c ++ P ++ entry_bytes pv cur
               ++ ((ZIP_BIGLEN :: le_bytes 4 (elen cur)) ++ body x)
               ++ layout (elen x) r ++ [ZIP_END] in
  __ziplistCascadeUpdate before (10 + zlen P) = Some after /\
  ZIP_DECODE_PREVLEN after (10 + zlen P + elen cur) = (5, elen cur).
Proof.
  intros Hb Hs Hpv Hx Hchain HLold HT Hfit HTL before after.
  assert (Hcas : cascade (elen cur) (x :: r) = x :: r)
    by (cbn [cascade]; now rewrite Hx).
  assert (Hlay : forall L, layout L (x :: r) ++ [ZIP_END]
                           = ((ZIP_BIGLEN :: le_bytes 4 L) ++ body x)
                             ++ layout (elen x) r ++ [ZIP_END]).
  { intros L. cbn [layout]. unfold entry_bytes, prev_field. rewrite Hx.
    list_eq. }
  split.
  - assert (H := cascade_update_ok (x :: r) P cur pv Lold T TL c Hb Hs Hpv
                   Hchain HLold HT).
    rewrite Hcas, <- HT, <- HTL in H. specialize (H Hfit eq_refl).
    rewrite !Hlay in H. exact H.
  - assert (He := elen_ge_2 cur Hb).
    assert (Hat : entry_at after (10 + zlen P + elen cur) (elen cur) x).
    { apply (entry_at_intro _ (header T TL c ++ P ++ entry_bytes pv cur) _ _
               (layout (elen x) r ++ [ZIP_END])).
      - subst after. unfold entry_bytes at 3, prev_field. rewrite Hx. list_eq.
      - rewrite !length_app, header_length, <- (entry_bytes_length pv cur).
        lia. }
    rewrite (entry_at_prevlen _ _ _ _ Hat), Hx; try reflexivity.
    + assert (Hsr := sum_len_nonneg (x :: r)). lia.
    + rewrite Hx. discriminate.
Qed.

(** C3, amended: in the cascade a successor with a 5 byte [prevlen] field
    keeps the 5 bytes and takes the new length, small or not, in the large
    encoding.  Insert and delete write the field of the entry right after
    the new or deleted entry at its smallest width: inserting an entry that
    takes this field from 1 to 5 bytes and then deleting it brings the field
    back to 1 byte; only the entries further on, which the cascade enlarged,
    stay enlarged. *)
Theorem cascade_keeps_delete_refits :
  (forall (P : list Z) (cur x : entry) (r : list entry) (pv Lold T TL c : Z),
      body_ok (body cur) = true ->
      (large cur = false -> pv < ZIP_BIGLEN) -> 0 <= pv < 2 ^ 32 ->
      large x = true -> chain_ok Lold (x :: r) = true -> Lold < 2 ^ 32 ->
      T = 10 + zlen P + elen cur + sum_len (x :: r) + 1 -> T < 2 ^ 32 ->
      TL = 10 + zlen P + tail_rel cur (x :: r) ->
      let before := header T TL c ++ P ++ entry_bytes pv cur
                    ++ ((ZIP_BIGLEN :: le_bytes 4 Lold) ++ body x)
                    ++ layout (elen x) r ++ [ZIP_END] in
      let after := header T TL c ++ P ++ entry_bytes pv cur
                   ++ ((ZIP_BIGLEN :: le_bytes 4 (elen cur)) ++ body x)
                   ++ layout (elen x) r ++ [ZIP_END] in
      __ziplistCascadeUpdate before (10 + zlen P) = Some after /\
      ZIP_DECODE_PREVLEN after (10 + zlen P + elen cur) = (5, elen cur)) /\
  (forall (string2ll : list Z -> option Z) (c : Z) (es1 : list entry)
          (e : entry) (r : list entry) (s : list Z),
      ziplist_ok c (es1 ++ e :: r) ->
      large e = false ->
      let new := new_entry string2ll (plast 0 es1) s in
      ZIP_BIGLEN <= elen new ->
      10 + sum_len (es1 ++ new :: refit (elen new) (e :: r)) + 1 < 2 ^ 32 ->
      let zl := ziplist_of c (es1 ++ e :: r) in
      let q := 10 + sum_len es1 in
      let c1 := if c <? UINT16_MAX then c + 1 else c in
      let c2 := if c1 <? UINT16_MAX then c1 - 1 else c1 in
      exists zl2,
        ZIP_DECODE_PREVLENSIZE zl q = 1 /\
        ziplistInsert string2ll zl q s = Some zl2 /\
        ZIP_DECODE_PREVLENSIZE zl2 (q + elen new) = 5 /\
        ziplistDelete zl2 q
        = Some (ziplist_of c2 (es1 ++ e :: cascade (elen e + 4) r), q) /\
        ZIP_DECODE_PREVLENSIZE
          (ziplist_of c2 (es1 ++ e :: cascade (elen e + 4) r)) q = 1).
Proof.
  split.
  - intros. now apply cascade_keeps_large.
  - intros. now apply insert_delete_ok.
Qed.

Lemma cascade_keeps_delete_refits_witness :
  (let cur := mk_entry false [1; 97] in
   let x := mk_entry true [1; 98] in
   __ziplistCascadeUpdate
     (header 21 13 2 ++ [] ++ entry_bytes 0 cur
      ++ ((ZIP_BIGLEN :: le_bytes 4 300) ++ body x) ++ layout (elen x) []
      ++ [ZIP_END]) (10 + zlen (@nil Z))
   = Some (header 21 13 2 ++ [] ++ entry_bytes 0 cur
           ++ ((ZIP_BIGLEN :: le_bytes 4 (elen cur)) ++ body x)
           ++ layout (elen x) [] ++ [ZIP_END])) /\
  (let e := mk_entry false [1; 97] in
   let s := repeat 120 252 in
   exists zl2,
     ZIP_DECODE_PREVLENSIZE (ziplist_of 1 [e]) 10 = 1 /\
     ziplistInsert string2ll_spec (ziplist_of 1 [e]) 10 s = Some zl2 /\
     ZIP_DECODE_PREVLENSIZE zl2 265 = 5 /\
     ziplistDelete zl2 10 = Some (ziplist_of 1 [e], 10)).
Proof.
  split.
  - intros cur x.
    apply (proj1 cascade_keeps_delete_refits [] cur x [] 0 300 21 13 2);
      try reflexivity; try lia.
  - intros e s.
    destruct (proj2 cascade_keeps_delete_refits string2ll_spec 1 [] e [] s)
      as (zl2 & H1 & H2 & H3 & H4 & _).
    + repeat split; try reflexivity; try (intros _; reflexivity);
        unfold UINT16_MAX; lia.
    + reflexivity.
    + vm_compute. discriminate.
    + vm_compute. reflexivity.
    + exists zl2. repeat split; assumption.
Defined.

(** C3 fails as stated: push "a" on the empty list, insert 252 bytes in
    front of it, which takes its [prevlen] field from 1 to 5 bytes, and
    delete the inserted entry: the field is 1 byte wide again, and the blob
    is the one before the insert. *)
Lemma insert_delete_shrinks_prevlen :
  exists a1 a2,
    ziplistPush string2ll_spec ziplistNew [97] ZIPLIST_TAIL = Some a1 /\
    ziplistIndex a1 0 = Some (Some 10) /\
    ZIP_DECODE_PREVLENSIZE a1 10 = 1 /\
    ziplistInsert string2ll_spec a1 10 (repeat 120 252) = Some a2 /\
    ziplistIndex a2 0 = Some (Some 10) /\
    ziplistIndex a2 1 = Some (Some 265) /\
    ZIP_DECODE_PREVLENSIZE a2 265 = 5 /\
    exists a3,
      ziplistDelete a2 10 = Some (a3, 10) /\
      ziplistIndex a3 0 = Some (Some 10) /\
      ZIP_DECODE_PREVLENSIZE a3 10 = 1 /\
      ZIP_DECODE_PREVLENSIZE a3 10 <> 5 /\
      a3 = a1.
Proof.
  eexists. eexists.
  split; [ vm_compute; reflexivity | ].
  split; [ vm_compute; reflexivity | ].
  split; [ vm_compute; reflexivity | ].
  split; [ vm_compute; reflexivity | ].
  split; [ vm_compute; reflexivity | ].
  split; [ vm_compute; reflexivity | ].
  split; [ vm_compute; reflexivity | ].
  eexists.
  split; [ vm_compute; reflexivity | ].
  split; [ vm_compute; reflexivity | ].
  split; [ vm_compute; reflexivity | ].
  split; [ vm_compute; discriminate | ].
  vm_compute; reflexivity.
Qed.

(** ** [ziplistCompare] on integer entries *)

Lemma zipLoadInteger_at (zl pre rest : list Z) (v enc : Z) :
  zl = pre ++ zipSaveInteger_buf v enc ++ rest -> int_enc_range enc v ->
  zipLoadInteger zl (zlen pre) enc = Some v.
Proof.
  intros Hzl Hr.
  assert (Hs : zipSaveInteger zl (zlen pre) v enc = zl).
  { unfold zipSaveInteger.
    rewrite (memcpy_exact zl pre (zipSaveInteger_buf v enc) rest); auto. }
  rewrite <- Hs at 1. apply zipLoadInteger_saved; auto; try lia.
  rewrite Hzl, !length_app, <- (zipSaveInteger_buf_length v enc). lia.
Qed.





(** ** A scenario: four pushes, then reads by index *)

(** [__ziplistInsert] calls [string2ll] on the new value only. *)
Lemma ziplistPush_ext (f g : list Z -> option Z) (zl : blob) (s : list Z)
    (w : Z) :
  f s = g s -> ziplistPush f zl s w = ziplistPush g zl s w.
Proof.
  intros H. unfold ziplistPush, __ziplistInsert, zipTryEncoding.
  now rewrite H.
Qed.

(** The value at index [i]: [ziplistIndex], then [ziplistGet]. *)
Definition index_get (zl : blob) (i : Z) : option (option zvalue) :=
  q <- ziplistIndex zl i ;; ziplistGet zl q.

(** C4: push "foo" and "quux" at the tail of the empty list, "hello" at the
    head and "1024" at the tail; the entries at the indexes 0, 1, 2 and 3
    are the strings "hello", "foo" and "quux" and the integer 1024.  The
    parser [string2ll] is any function that reads "1024" as 1024 and
    takes none of the three words for an integer. *)
Theorem push_index_get (string2ll : list Z -> option Z) :
  let foo := [102; 111; 111] in
  let quux := [113; 117; 117; 120] in
  let hello := [104; 101; 108; 108; 111] in
  let s1024 := [49; 48; 50; 52] in
  string2ll foo = None -> string2ll quux = None ->
  string2ll hello = None -> string2ll s1024 = Some 1024 ->
  exists zl1 zl2 zl3 zl,
    ziplistPush string2ll ziplistNew foo ZIPLIST_TAIL = Some zl1 /\
    ziplistPush string2ll zl1 quux ZIPLIST_TAIL = Some zl2 /\
    ziplistPush string2ll zl2 hello ZIPLIST_HEAD = Some zl3 /\
    ziplistPush string2ll zl3 s1024 ZIPLIST_TAIL = Some zl /\
    index_get zl 0 = Some (Some (VStr hello)) /\
    index_get zl 1 = Some (Some (VStr foo)) /\
    index_get zl 2 = Some (Some (VStr quux)) /\
    index_get zl 3 = Some (Some (VInt 1024)).
Proof.
  intros foo quux hello s1024 Hfoo Hquux Hhello H1024.
  eexists. eexists. eexists. eexists.
  split.
  { rewrite (ziplistPush_ext string2ll string2ll_spec)
      by (rewrite Hfoo; reflexivity).
    vm_compute. reflexivity. }
  split.
  { rewrite (ziplistPush_ext string2ll string2ll_spec)
      by (rewrite Hquux; reflexivity).
    vm_compute. reflexivity. }
  split.
  { rewrite (ziplistPush_ext string2ll string2ll_spec)
      by (rewrite Hhello; reflexivity).
    vm_compute. reflexivity. }
  split.
  { rewrite (ziplistPush_ext string2ll string2ll_spec)
      by (rewrite H1024; reflexivity).
    vm_compute. reflexivity. }
  repeat split; vm_compute; reflexivity.
Qed.

Lemma push_index_get_witness :
  exists zl,
    (zl1 <- ziplistPush string2ll_spec ziplistNew [102; 111; 111]
                        ZIPLIST_TAIL ;;
     zl2 <- ziplistPush string2ll_spec zl1 [113; 117; 117; 120]
                        ZIPLIST_TAIL ;;
     zl3 <- ziplistPush string2ll_spec zl2 [104; 101; 108; 108; 111]
                        ZIPLIST_HEAD ;;
     ziplistPush string2ll_spec zl3 [49; 48; 50; 52] ZIPLIST_TAIL) = Some zl /\
    index_get zl 3 = Some (Some (VInt 1024)).
Proof.
  destruct (push_index_get string2ll_spec eq_refl eq_refl eq_refl eq_refl)
    as (zl1 & zl2 & zl3 & zl & H1 & H2 & H3 & H4 & _ & _ & _ & H8).
  exists zl. rewrite H1. cbn [obind]. rewrite H2. cbn [obind].
  rewrite H3. cbn [obind]. rewrite H4. split; [ reflexivity | exact H8 ].
Defined.

(** ** The stored form of a pushed value *)

(** The kinds of entries of the format, and the stored form of a value as
    the spec tells it: length 0 or 32 and more is a string; else a value
    that reads as an integer takes the first integer kind that holds it in
    the order imm4, i8, i16, i24, i32, i64; else it is a string; a string
    takes the smallest length header. *)
Inductive int_kind : Type := Imm4 | I8 | I16 | I24 | I32 | I64.

Inductive str_kind : Type := Str6 | Str14 | Str32.

Inductive stored : Type :=
| StoredStr (k : str_kind) (s : list Z)
| StoredInt (k : int_kind) (v : Z).

Definition spec_int_kind (v : Z) : int_kind :=
  if (0 <=? v) && (v <=? 12) then Imm4
  else if (- 2 ^ 7 <=? v) && (v <? 2 ^ 7) then I8
  else if (- 2 ^ 15 <=? v) && (v <? 2 ^ 15) then I16
  else if (- 2 ^ 23 <=? v) && (v <? 2 ^ 23) then I24
  else if (- 2 ^ 31 <=? v) && (v <? 2 ^ 31) then I32
  else I64.

Definition spec_str_kind (n : Z) : str_kind :=
  if n <=? 63 then Str6 else if n <=? 16383 then Str14 else Str32.

Definition spec_stored (string2ll : list Z -> option Z) (s : list Z)
  : stored :=
  let n := zlen s in
  if (n =? 0) || (32 <=? n) then StoredStr (spec_str_kind n) s
  else
    match string2ll s with
    | Some v => StoredInt (spec_int_kind v) v
    | None => StoredStr (spec_str_kind n) s
    end.

(** The bytes of a stored form, by the table of the format: the header
    byte or bytes, then the payload. *)
Definition stored_bytes (x : stored) : list Z :=
  match x with
  | StoredStr Str6 s => [zlen s] ++ s
  | StoredStr Str14 s => [0x40 + zlen s / 256; zlen s mod 256] ++ s
  | StoredStr Str32 s => (0x80 :: rev (le_bytes 4 (zlen s))) ++ s
  | StoredInt Imm4 v => [0xf0 + (v + 1)]
  | StoredInt I8 v => 0xfe :: le_bytes 1 v
  | StoredInt I16 v => 0xc0 :: le_bytes 2 v
  | StoredInt I24 v => 0xf0 :: le_bytes 3 v
  | StoredInt I32 v => 0xd0 :: le_bytes 4 v
  | StoredInt I64 v => 0xe0 :: le_bytes 8 v
  end.

Lemma le_bytes_sint (n : nat) (bits v : Z) :
  bits = 8 * Z.of_nat n -> le_bytes n (sint bits v) = le_bytes n v.
Proof.
  intros Hb.
  assert (Hp : 2 ^ bits = 256 ^ Z.of_nat n).
  { subst bits. change 256 with (2 ^ 8). rewrite <- Z.pow_mul_r by lia.
    reflexivity. }
  rewrite <- (le_bytes_mod n (sint bits v)), <- (le_bytes_mod n v).
  f_equal. unfold sint. rewrite Hp.
  destruct (v mod 256 ^ Z.of_nat n <? 2 ^ (bits - 1)).
  - apply Z.mod_mod. apply Z.pow_nonzero; lia.
  - rewrite Zminus_mod, Z.mod_same, Z.sub_0_r, !Z.mod_mod;
      try reflexivity; apply Z.pow_nonzero; lia.
Qed.

Lemma zipSaveInteger_buf_24B (v : Z) :
  zipSaveInteger_buf v ZIP_INT_24B = le_bytes 3 v.
Proof.
  change (zipSaveInteger_buf v ZIP_INT_24B)
    with (skipn 1 (le_bytes 4 (sint 32 (Z.shiftl v 8)))).
  rewrite (le_bytes_sint 4 32) by reflexivity.
  rewrite Z.shiftl_mul_pow2 by lia. change (2 ^ 8) with 256.
  cbn [le_bytes skipn]. now rewrite Z.div_mul by lia.
Qed.

Lemma entry_body_stored (string2ll : list Z -> option Z) (s : list Z) :
  zlen s < 2 ^ 32 ->
  entry_body string2ll s = stored_bytes (spec_stored string2ll s).
Proof.
  intros Hs. unfold entry_body, spec_stored, zipTryEncoding.
  assert (Hstr : zipEncodeLength_buf 0 (zlen s) ++ s
                 = stored_bytes (StoredStr (spec_str_kind (zlen s)) s)).
  { unfold spec_str_kind.
    destruct (Z.leb_spec (zlen s) 63).
    - rewrite zipEncodeLength_buf_06B by lia. reflexivity.
    - destruct (Z.leb_spec (zlen s) 16383).
      + rewrite zipEncodeLength_buf_14B by lia. reflexivity.
      + rewrite zipEncodeLength_buf_32B by lia. reflexivity. }
  destruct (Z.geb_spec (zlen s) 32), (Z.eqb_spec (zlen s) 0),
    (Z.leb_spec 32 (zlen s)); try lia; cbn [orb]; try exact Hstr.
  destruct (string2ll s) as [ v | ]; [ | exact Hstr ].
  unfold spec_int_kind, INT8_MIN, INT8_MAX, INT16_MIN, INT16_MAX,
    INT24_MIN, INT24_MAX, INT32_MIN, INT32_MAX.
  change (2 ^ 7) with 128. change (2 ^ 15) with 32768.
  change (2 ^ 23) with 8388608. change (2 ^ 31) with 2147483648.
  repeat match goal with
         | |- context [ ?a >=? ?b ] =>
             destruct (Z.geb_spec a b); try (exfalso; lia)
         | |- context [ ?a <=? ?b ] =>
             destruct (Z.leb_spec a b); try (exfalso; lia)
         | |- context [ ?a <? ?b ] =>
             destruct (Z.ltb_spec a b); try (exfalso; lia)
         end; cbn [andb stored_bytes].
  all: try (change (zipSaveInteger_buf v ZIP_INT_8B)
              with (le_bytes 1 (sint 8 v));
            now rewrite (le_bytes_sint 1 8)).
  all: try (change (zipSaveInteger_buf v ZIP_INT_16B)
              with (le_bytes 2 (sint 16 v));
            now rewrite (le_bytes_sint 2 16)).
  all: try (now rewrite zipSaveInteger_buf_24B).
  all: try (change (zipSaveInteger_buf v ZIP_INT_32B)
              with (le_bytes 4 (sint 32 v));
            now rewrite (le_bytes_sint 4 32)).
  all: try (change (zipSaveInteger_buf v ZIP_INT_64B)
              with (le_bytes 8 (sint 64 v));
            now rewrite (le_bytes_sint 8 64)).
  assert (Hc : v = 0 \/ v = 1 \/ v = 2 \/ v = 3 \/ v = 4 \/ v = 5 \/ v = 6 \/
               v = 7 \/ v = 8 \/ v = 9 \/ v = 10 \/ v = 11 \/ v = 12) by lia.
  repeat (destruct Hc as [ -> | Hc ]; [ reflexivity | ]).
  subst v. reflexivity.
Qed.

(** * Reading the list *)

(** ** Values *)

Lemma sub_mid (pre b rest : list Z) (i n : Z) :
  0 <= i -> 0 <= n -> i + n <= zlen b ->
  sub (pre ++ b ++ rest) (zlen pre + i) n = sub b i n.
Proof.
  intros Hi Hn Hl. rewrite sub_app_r by exact Hi. unfold sub.
  rewrite skipn_app, firstn_app, length_skipn.
  replace (Z.to_nat n - (length b - Z.to_nat i))%nat with 0%nat by lia.
  cbn [firstn]. now rewrite app_nil_r.
Qed.

Lemma zipLoadInteger_mid (pre b rest : list Z) (i enc : Z) :
  0 <= i -> i + zipIntSize enc <= zlen b ->
  zipLoadInteger (pre ++ b ++ rest) (zlen pre + i) enc = zipLoadInteger b i enc.
Proof.
  intros Hi Hl. unfold zipLoadInteger, zipIntSize in *.
  destruct (enc =? ZIP_INT_8B); [ now rewrite rd_mid by lia | ].
  destruct (enc =? ZIP_INT_16B); [ now rewrite sub_mid by lia | ].
  destruct (enc =? ZIP_INT_32B) eqn:E32.
  - destruct (enc =? ZIP_INT_24B) eqn:E24.
    + apply Z.eqb_eq in E32, E24. rewrite E32 in E24. discriminate.
    + now rewrite sub_mid by lia.
  - destruct (enc =? ZIP_INT_24B); [ now rewrite sub_mid by lia | ].
    destruct (enc =? ZIP_INT_64B); [ now rewrite sub_mid by lia | ].
    reflexivity.
Qed.

(** The type byte of the entry whose length header and payload are the
    bytes [b] is one of the format: a string header, or one of the integer
    encodings, which are those that [zipLoadInteger] reads. *)
Definition type_ok (b : list Z) : bool :=
  let enc := ZIP_ENTRY_ENCODING b 0 in
  ZIP_IS_STR enc || existsb (Z.eqb enc) int_encs.

Definition types_ok (es : list entry) : bool :=
  forallb (fun e => type_ok (body e)) es.

(** The value that [ziplistGet] reads from an entry whose length header
    and payload are the bytes [b].  It is used for bodies with [type_ok]
    only; on another one [ziplistGet] does not return, and the value here
    is of no account. *)
Definition body_value (b : list Z) : zvalue :=
  let '(enc, lsz, l) := ZIP_DECODE_LENGTH b 0 in
  if ZIP_IS_STR enc then VStr (sub b lsz l)
  else match zipLoadInteger b lsz enc with
       | Some sval => VInt sval
       | None => VInt 0
       end.

Lemma zipLoadInteger_encs (zl : blob) (q enc : Z) :
  In enc int_encs -> exists v, zipLoadInteger zl q enc = Some v.
Proof.
  intros H. cbn [int_encs In] in H.
  repeat (destruct H as [ <- | H ]; [ eexists; reflexivity | ]).
  contradiction.
Qed.

Lemma decode_encoding (b : list Z) (enc lsz l : Z) :
  ZIP_DECODE_LENGTH b 0 = (enc, lsz, l) -> enc = ZIP_ENTRY_ENCODING b 0.
Proof.
  unfold ZIP_DECODE_LENGTH. set (e0 := ZIP_ENTRY_ENCODING b 0).
  destruct (e0 <? ZIP_STR_MASK); [ | intros H; now injection H ].
  destruct (e0 =? ZIP_STR_06B); [ intros H; now injection H | ].
  destruct (e0 =? ZIP_STR_14B); [ intros H; now injection H | ].
  destruct (e0 =? ZIP_STR_32B); intros H; now injection H.
Qed.

Lemma type_ok_decode (b : list Z) (enc lsz l : Z) :
  ZIP_DECODE_LENGTH b 0 = (enc, lsz, l) ->
  ZIP_IS_STR enc || existsb (Z.eqb enc) int_encs = true ->
  type_ok b = true.
Proof.
  intros Hd He. apply decode_encoding in Hd. unfold type_ok.
  now rewrite <- Hd.
Qed.

Lemma type_ok_load (b zl : list Z) (q enc lsz l : Z) :
  type_ok b = true -> ZIP_DECODE_LENGTH b 0 = (enc, lsz, l) ->
  ZIP_IS_STR enc = false ->
  exists v, zipLoadInteger zl q enc = Some v.
Proof.
  intros Ht Hd Hs. apply decode_encoding in Hd. unfold type_ok in Ht.
  rewrite <- Hd, Hs in Ht. cbn [orb] in Ht.
  apply existsb_exists in Ht. destruct Ht as (x & Hin & Hx).
  apply Z.eqb_eq in Hx. subst x. now apply zipLoadInteger_encs.
Qed.

Lemma types_ok_nth (es : list entry) (k : nat) :
  types_ok es = true -> (k < length es)%nat ->
  type_ok (body (nth k es dummy)) = true.
Proof.
  intros Ht Hk. unfold types_ok in Ht. rewrite forallb_forall in Ht.
  apply Ht, nth_In, Hk.
Qed.

Lemma types_ok_app (es1 es2 : list entry) :
  types_ok (es1 ++ es2) = types_ok es1 && types_ok es2.
Proof. apply forallb_app. Qed.

Lemma body_ok_int_size (b : list Z) (enc lsz l : Z) :
  body_ok b = true -> ZIP_DECODE_LENGTH b 0 = (enc, lsz, l) ->
  ZIP_IS_STR enc = false -> zipIntSize enc <= l.
Proof.
  intros Hb Hd Hs. destruct (body_ok_inv b Hb) as (e' & s' & l' & Hd' & H1 & _).
  rewrite Hd in Hd'. injection Hd' as <- <- <-.
  unfold ZIP_DECODE_LENGTH in Hd.
  set (e0 := ZIP_ENTRY_ENCODING b 0) in *.
  destruct (e0 <? ZIP_STR_MASK) eqn:E0.
  - destruct (e0 =? ZIP_STR_06B) eqn:E1.
    { injection Hd as <- _ _. apply Z.eqb_eq in E1. rewrite E1 in Hs.
      discriminate. }
    destruct (e0 =? ZIP_STR_14B) eqn:E2.
    { injection Hd as <- _ _. apply Z.eqb_eq in E2. rewrite E2 in Hs.
      discriminate. }
    destruct (e0 =? ZIP_STR_32B) eqn:E3.
    { injection Hd as <- _ _. apply Z.eqb_eq in E3. rewrite E3 in Hs.
      discriminate. }
    injection Hd as _ <- _. lia.
  - injection Hd as <- _ <-. lia.
Qed.

Lemma ziplistGet_ok (c : Z) (es : list entry) (k : nat) :
  ziplist_ok c es -> (k < length es)%nat ->
  type_ok (body (nth k es dummy)) = true ->
  ziplistGet (ziplist_of c es) (Some (entry_off es k))
  = Some (Some (body_value (body (nth k es dummy)))).
Proof.
  intros Hok Hk Hty. unfold ziplistGet. rewrite (ok_not_end c es Hok k Hk).
  destruct (ok_zipEntry c es Hok k Hk)
    as (enc & lsz & l & Hd & Hz & Hlen & Hlsz & Hl).
  rewrite Hz. cbn [encoding headersize len].
  unfold body_value. rewrite Hd.
  destruct (ziplist_of_entry_at c es k Hk) as (pre & rest & Hzl & Hoff).
  set (e := nth k es dummy) in *.
  assert (Hb : body_ok (body e) = true) by apply (chain_ok_nth _ _ (proj1 Hok) Hk).
  unfold entry_bytes in Hzl.
  set (pf := prev_field (large e) (entry_prev es k)) in *.
  assert (Hpf : zlen pf = pls (large e)) by apply prev_field_length.
  assert (Hzl' : ziplist_of c es = (pre ++ pf) ++ body e ++ rest)
    by (rewrite Hzl; list_eq).
  assert (Hpos : entry_off es k + (pls (large e) + lsz)
                 = zlen (pre ++ pf) + lsz)
    by (rewrite length_app; lia).
  assert (Hbl : lsz + l = zlen (body e)) by (unfold elen in Hlen; lia).
  rewrite Hpos, Hzl'.
  destruct (ZIP_IS_STR enc) eqn:Hs.
  - now rewrite sub_mid by lia.
  - rewrite zipLoadInteger_mid;
      [ | lia | assert (H := body_ok_int_size _ _ _ _ Hb Hd Hs); lia ].
    destruct (type_ok_load _ (body e) lsz _ _ _ Hty Hd Hs) as (v & Hv).
    rewrite Hv. reflexivity.
Qed.

(** ** Moving between entries *)

(** The blobs that are the layout of a well-formed list of entries; every
    blob that the guarded operations make is one. *)
Definition well_formed (zl : blob) : Prop :=
  exists c es, zl = ziplist_of c es /\ ziplist_ok c es.

Lemma reach_well_formed (string2ll : list Z -> option Z) (zl : blob) :
  reach string2ll zl -> well_formed zl.
Proof. apply reach_repr. Qed.

Lemma entry_off_0 (es : list entry) : entry_off es 0 = ZIPLIST_HEADER_SIZE.
Proof. unfold entry_off. cbn [firstn sum_len]. lia. Qed.

Lemma entry_off_head (c : Z) (es : list entry) (k : nat) :
  ziplist_ok c es -> (k < length es)%nat -> (0 < k)%nat ->
  ZIPLIST_HEADER_SIZE < entry_off es k.
Proof.
  intros Hok Hk H0. destruct k as [ | j ]; [ lia | ].
  rewrite entry_off_S by lia.
  assert (Hb : body_ok (body (nth j es dummy)) = true)
    by (apply (chain_ok_nth _ _ (proj1 Hok)); lia).
  apply elen_ge_2 in Hb.
  assert (Hs := sum_len_nonneg (firstn j es)). unfold entry_off. lia.
Qed.

Lemma ziplistNext_ok (c : Z) (es : list entry) (k : nat) :
  ziplist_ok c es -> (k < length es)%nat ->
  ziplistNext (ziplist_of c es) (entry_off es k)
  = if (S k <? length es)%nat then Some (entry_off es (S k)) else None.
Proof.
  intros Hok Hk. unfold ziplistNext.
  rewrite (ok_not_end c es Hok k Hk), (ok_rawlen c es Hok k Hk).
  rewrite <- entry_off_S by exact Hk.
  destruct (Nat.ltb_spec (S k) (length es)) as [ Hlt | Hge ].
  - now rewrite (ok_not_end c es Hok (S k) Hlt).
  - replace (S k) with (length es) by lia. now rewrite (ok_end c es Hok).
Qed.

Lemma ziplistNext_end (c : Z) (es : list entry) :
  ziplist_ok c es ->
  ziplistNext (ziplist_of c es) (entry_off es (length es)) = None.
Proof. intros Hok. unfold ziplistNext. now rewrite (ok_end c es Hok). Qed.

Lemma ziplistPrev_ok (c : Z) (es : list entry) (k : nat) :
  ziplist_ok c es -> (k < length es)%nat ->
  ziplistPrev (ziplist_of c es) (entry_off es k)
  = match k with
    | O => None
    | S j => Some (entry_off es j)
    end.
Proof.
  intros Hok Hk. unfold ziplistPrev.
  rewrite (ok_not_end c es Hok k Hk). unfold ZIPLIST_ENTRY_HEAD.
  destruct k as [ | j ].
  - rewrite entry_off_0, Z.eqb_refl. reflexivity.
  - assert (H := entry_off_head c es (S j) Hok Hk ltac:(lia)).
    destruct (Z.eqb_spec (entry_off es (S j)) ZIPLIST_HEADER_SIZE); [ lia | ].
    rewrite (ok_prevlen c es Hok (S j) Hk). cbn [snd].
    rewrite entry_prev_S, entry_off_S by lia. f_equal. lia.
Qed.

Lemma ziplistPrev_end (c : Z) (es : list entry) :
  ziplist_ok c es ->
  ziplistPrev (ziplist_of c es) (entry_off es (length es))
  = match length es with
    | O => None
    | S j => Some (entry_off es j)
    end.
Proof.
  intros Hok. unfold ziplistPrev. rewrite (ok_end c es Hok).
  unfold ZIPLIST_ENTRY_TAIL. rewrite (ok_tail c es Hok).
  destruct (length es) as [ | j ] eqn:En.
  - cbn [pred]. assert (H := ok_end c es Hok). rewrite En in H.
    now rewrite H.
  - cbn [pred]. now rewrite (ok_not_end c es Hok j) by lia.
Qed.

(** X1: Moving by [ziplistNext] and [ziplistPrev] is moving by one index,
    on every well-formed blob [zl]: from the entry at index [i >= 0],
    [ziplistNext] gives what [ziplistIndex] gives at [i + 1], the entry or
    NULL after the last one; from the entry at index [i >= 1],
    [ziplistPrev] gives the entry at [i - 1], and NULL from the head.
    From the terminator, whether the list is empty or not, [ziplistPrev]
    gives what [ziplistIndex] gives at -1, the tail entry or NULL on an
    empty list, and [ziplistNext] gives NULL; the list is empty exactly
    when [ziplistIndex] gives NULL at 0, the terminator then is the head
    position, and [ziplistPrev] and [ziplistNext] both give NULL there. *)
Theorem ziplistNext_Prev_index (zl : blob) :
  well_formed zl ->
  (forall i q : Z,
      0 <= i -> ziplistIndex zl i = Some (Some q) ->
      ziplistIndex zl (i + 1) = Some (ziplistNext zl q) /\
      (1 <= i -> ziplistIndex zl (i - 1) = Some (ziplistPrev zl q)) /\
      (i = 0 -> ziplistPrev zl q = None)) /\
  ziplistIndex zl (-1) = Some (ziplistPrev zl (ZIPLIST_ENTRY_END zl)) /\
  ziplistNext zl (ZIPLIST_ENTRY_END zl) = None /\
  (ziplistIndex zl 0 = Some None ->
   ZIPLIST_ENTRY_END zl = ZIPLIST_ENTRY_HEAD zl /\
   ziplistPrev zl (ZIPLIST_ENTRY_HEAD zl) = None /\
   ziplistNext zl (ZIPLIST_ENTRY_HEAD zl) = None /\
   forall i : Z, ziplistIndex zl i = Some None) /\
  (forall q : Z,
      ziplistIndex zl 0 = Some (Some q) ->
      q = ZIPLIST_ENTRY_HEAD zl /\ q <> ZIPLIST_ENTRY_END zl).
Proof.
  intros (c & es & -> & Hok).
  assert (Hend : ZIPLIST_ENTRY_END (ziplist_of c es)
                 = entry_off es (length es)).
  { unfold ZIPLIST_ENTRY_END, entry_off.
    rewrite (ok_bytes c es Hok), firstn_all. lia. }
  split; [ | split; [ | split; [ | split ] ] ].
  - intros i q Hi Hidx.
    assert (Hidx' := Hidx). rewrite (ziplistIndex_ok c es i Hok) in Hidx'.
    destruct (Z.leb_spec (- zlen es) i); [ | discriminate ].
    destruct (Z.leb_spec i (zlen es - 1)); [ | discriminate ].
    cbn [andb] in Hidx'. destruct (Z.ltb_spec i 0); [ lia | ].
    injection Hidx' as <-.
    assert (Hk : (Z.to_nat i < length es)%nat) by lia.
    split; [ | split ].
    + rewrite (ziplistIndex_ok c es (i + 1) Hok), (ziplistNext_ok c es _ Hok Hk).
      destruct (Z.leb_spec (- zlen es) (i + 1)); [ | lia ].
      destruct (Z.ltb_spec (i + 1) 0); [ lia | ]. cbn [andb].
      destruct (Z.leb_spec (i + 1) (zlen es - 1)),
        (Nat.ltb_spec (S (Z.to_nat i)) (length es)); try lia; try reflexivity.
      do 3 f_equal. lia.
    + intros Hi1.
      rewrite (ziplistIndex_ok c es (i - 1) Hok), (ziplistPrev_ok c es _ Hok Hk).
      destruct (Z.leb_spec (- zlen es) (i - 1)); [ | lia ].
      destruct (Z.leb_spec (i - 1) (zlen es - 1)); [ | lia ].
      destruct (Z.ltb_spec (i - 1) 0); [ lia | ]. cbn [andb].
      destruct (Z.to_nat i) as [ | j ] eqn:Ej; [ lia | ].
      do 3 f_equal. lia.
    + intros ->. now rewrite (ziplistPrev_ok c es _ Hok Hk).
  - rewrite Hend, (ziplistPrev_end c es Hok), (ziplistIndex_ok c es (-1) Hok).
    destruct (Z.leb_spec (- zlen es) (-1)) as [ H1 | H1 ];
      destruct (Z.leb_spec (-1) (zlen es - 1)) as [ H2 | H2 ]; cbn [andb];
      destruct (length es) as [ | j ] eqn:En; try lia; try reflexivity.
    change (-1 <? 0) with true. cbv iota. do 3 f_equal. lia.
  - rewrite Hend. now apply ziplistNext_end.
  - intros Hidx. rewrite (ziplistIndex_ok c es 0 Hok) in Hidx.
    assert (Hn : length es = 0%nat).
    { destruct (Z.leb_spec (- zlen es) 0); [ | lia ].
      destruct (Z.leb_spec 0 (zlen es - 1)); [ | lia ].
      cbn [andb] in Hidx. discriminate. }
    assert (Hh : ZIPLIST_ENTRY_END (ziplist_of c es)
                 = ZIPLIST_ENTRY_HEAD (ziplist_of c es)).
    { rewrite Hend, Hn. apply entry_off_0. }
    split; [ exact Hh | ].
    rewrite <- Hh, Hend.
    split; [ | split ].
    + rewrite (ziplistPrev_end c es Hok), Hn. reflexivity.
    + now apply ziplistNext_end.
    + intros i. rewrite (ziplistIndex_ok c es i Hok).
      destruct (Z.leb_spec (- zlen es) i); [ | reflexivity ].
      destruct (Z.leb_spec i (zlen es - 1)); [ lia | reflexivity ].
  - intros q Hidx. rewrite (ziplistIndex_ok c es 0 Hok) in Hidx.
    destruct (Z.leb_spec (- zlen es) 0); [ | discriminate ].
    destruct (Z.leb_spec 0 (zlen es - 1)); [ | discriminate ].
    cbn [andb] in Hidx. change (0 <? 0) with false in Hidx.
    injection Hidx as <-. cbn [Z.to_nat].
    split; [ apply entry_off_0 | ].
    rewrite Hend, entry_off_0.
    assert (Hk : (0 < length es)%nat) by lia.
    unfold entry_off. rewrite firstn_all.
    destruct es as [ | e r ]; [ cbn in Hk; lia | ].
    assert (Hb : body_ok (body e) = true)
      by (apply (chain_ok_nth (e :: r) 0%nat (proj1 Hok) Hk)).
    apply elen_ge_2 in Hb. cbn [sum_len].
    assert (Hs := sum_len_nonneg r). unfold ZIPLIST_HEADER_SIZE. lia.
Qed.

Lemma two_entries_well_formed : well_formed (ziplist_of 2 two_entries).
Proof. exists 2, two_entries. split; [ reflexivity | exact two_entries_ok ]. Qed.

Lemma ziplistNext_Prev_index_witness :
  well_formed ziplistNew /\
  ziplistIndex ziplistNew (-1)
  = Some (ziplistPrev ziplistNew (ZIPLIST_ENTRY_END ziplistNew)) /\
  ziplistIndex (ziplist_of 2 two_entries) 1
  = Some (ziplistNext (ziplist_of 2 two_entries) 10).
Proof.
  assert (Hnew : well_formed ziplistNew).
  { exists 0, []. split; [ apply ziplistNew_of | apply ziplist_ok_nil ]. }
  split; [ exact Hnew | ].
  split.
  - exact (proj1 (proj2 (ziplistNext_Prev_index ziplistNew Hnew))).
  - apply (proj1 (ziplistNext_Prev_index (ziplist_of 2 two_entries)
                    two_entries_well_formed) 0 10).
    + lia.
    + reflexivity.
Defined.

(** ** The values of a list *)

(** The values of the list, read from the head on with [ziplistGet] and
    [ziplistNext], the way the callers iterate: the loop goes on as long
    as [ziplistGet] gives 1.  [None] is a walk that does not end or that
    stops in the failed assertion of [zipLoadInteger]. *)
Fixpoint values_from (fuel : nat) (zl : blob) (q : option Z)
  : option (list zvalue) :=
  match fuel with
  | O => None
  | S fuel' =>
    g <- ziplistGet zl q ;;
    match g, q with
    | Some v, Some p =>
      r <- values_from fuel' zl (ziplistNext zl p) ;; Some (v :: r)
    | _, _ => Some []
    end
  end.

Definition ziplist_values (zl : blob) : option (list zvalue) :=
  q <- ziplistIndex zl 0 ;; values_from (S (length zl)) zl q.

Definition entry_values (es : list entry) : list zvalue :=
  map (fun e => body_value (body e)) es.

Lemma skipn_nth_cons (es : list entry) (k : nat) :
  (k < length es)%nat -> skipn k es = nth k es dummy :: skipn (S k) es.
Proof.
  revert k. induction es as [ | e r IH ]; intros k Hk; [ simpl in Hk; lia | ].
  destruct k as [ | k ]; [ reflexivity | ].
  cbn [skipn nth]. apply IH. simpl in Hk. lia.
Qed.

Lemma values_from_ok (c : Z) (es : list entry) (m : nat) :
  ziplist_ok c es -> types_ok es = true ->
  forall (k fuel : nat),
    (k + m = length es)%nat -> (m < fuel)%nat ->
    values_from fuel (ziplist_of c es)
      (if (k <? length es)%nat then Some (entry_off es k) else None)
    = Some (entry_values (skipn k es)).
Proof.
  intros Hok Hty. induction m as [ | m IH ]; intros k fuel Hkm Hfuel;
    (destruct fuel as [ | fuel ]; [ lia | ]); cbn [values_from].
  - destruct (Nat.ltb_spec k (length es)); [ lia | ].
    cbn [ziplistGet obind]. rewrite skipn_all2 by lia. reflexivity.
  - destruct (Nat.ltb_spec k (length es)) as [ Hk | ]; [ | lia ].
    rewrite (ziplistGet_ok c es k Hok Hk (types_ok_nth es k Hty Hk)).
    cbn [obind]. rewrite (ziplistNext_ok c es k Hok Hk).
    rewrite IH by lia. cbn [obind].
    now rewrite (skipn_nth_cons es k Hk).
Qed.

Lemma ziplist_values_ok (c : Z) (es : list entry) :
  ziplist_ok c es -> types_ok es = true ->
  ziplist_values (ziplist_of c es) = Some (entry_values es).
Proof.
  intros Hok Hty. unfold ziplist_values. rewrite (ziplistIndex_ok c es 0 Hok).
  cbn [obind].
  assert (Hn := ok_count_bound c es Hok).
  assert (Hlen := ziplist_of_length c es).
  assert (Hs := sum_len_nonneg es). unfold ZIPLIST_HEADER_SIZE in Hlen.
  assert (H := values_from_ok c es (length es) Hok Hty 0
                 (S (length (ziplist_of c es))) eq_refl ltac:(lia)).
  cbn [skipn] in H. rewrite <- H. f_equal.
  change (0 <? 0) with false. cbv iota. cbn [Z.to_nat].
  destruct (Nat.ltb_spec 0 (length es)),
    (Z.leb_spec (- zlen es) 0), (Z.leb_spec 0 (zlen es - 1));
    try lia; reflexivity.
Qed.

Lemma entry_values_cascade (L : Z) (es : list entry) :
  entry_values (cascade L es) = entry_values es.
Proof.
  revert L. induction es as [ | e r IH ]; intros L; [ reflexivity | ].
  cbn [cascade]. destruct (large e); [ reflexivity | ].
  destruct (L <? ZIP_BIGLEN); [ reflexivity | ].
  unfold entry_values in *. cbn [map body]. now rewrite IH.
Qed.

Lemma entry_values_refit (L : Z) (es : list entry) :
  entry_values (refit L es) = entry_values es.
Proof.
  destruct es as [ | e r ]; [ reflexivity | ].
  cbn [refit]. unfold entry_values. cbn [map body].
  f_equal. apply entry_values_cascade.
Qed.

Lemma entry_values_app (a b : list entry) :
  entry_values (a ++ b) = entry_values a ++ entry_values b.
Proof. apply map_app. Qed.

(** The cascade and the refit rewrite [prevlen] fields only: the type bytes
    stay. *)
Lemma types_ok_cascade (L : Z) (es : list entry) :
  types_ok (cascade L es) = types_ok es.
Proof.
  revert L. induction es as [ | e r IH ]; intros L; [ reflexivity | ].
  cbn [cascade]. destruct (large e); [ reflexivity | ].
  destruct (L <? ZIP_BIGLEN); [ reflexivity | ].
  unfold types_ok in *. cbn [forallb body]. now rewrite IH.
Qed.

Lemma types_ok_refit (L : Z) (es : list entry) :
  types_ok (refit L es) = types_ok es.
Proof.
  destruct es as [ | e r ]; [ reflexivity | ].
  cbn [refit]. unfold types_ok. cbn [forallb body].
  f_equal. apply types_ok_cascade.
Qed.

Lemma types_ok_firstn (k : nat) (es : list entry) :
  types_ok es = true -> types_ok (firstn k es) = true.
Proof.
  intros H. rewrite <- (firstn_skipn k es), types_ok_app in H.
  now apply andb_true_iff in H.
Qed.

Lemma types_ok_skipn (k : nat) (es : list entry) :
  types_ok es = true -> types_ok (skipn k es) = true.
Proof.
  intros H. rewrite <- (firstn_skipn k es), types_ok_app in H.
  now apply andb_true_iff in H.
Qed.

Lemma sub_all (s : list Z) : sub s 0 (zlen s) = s.
Proof.
  unfold sub. cbn [Z.to_nat skipn]. rewrite Nat2Z.id. apply firstn_all.
Qed.

Lemma sub_after (hdr s : list Z) (n : Z) :
  n = zlen hdr -> sub (hdr ++ s) n (zlen s) = s.
Proof.
  intros ->. replace (zlen hdr) with (zlen hdr + 0) by lia.
  rewrite sub_app_r by lia. apply sub_all.
Qed.

Section Values.

Variable string2ll : list Z -> option Z.

(** [string2ll] gives a [long long]. *)
Hypothesis string2ll_range :
  forall s v, string2ll s = Some v -> INT64_MIN <= v <= INT64_MAX.

(** The value that an insert of [s] stores: the integer that
    [zipTryEncoding] reads from it, or else the bytes. *)
Definition pushed_value (s : list Z) : zvalue :=
  match zipTryEncoding string2ll s with
  | Some (v, _) => VInt v
  | None => VStr s
  end.

(** The encoding that [zipTryEncoding] picks holds the value. *)
Lemma zipTryEncoding_range (s : list Z) (v enc : Z) :
  zipTryEncoding string2ll s = Some (v, enc) -> int_enc_range enc v.
Proof using string2ll_range.
  unfold zipTryEncoding.
  destruct ((zlen s >=? 32) || (zlen s =? 0)); [ discriminate | ].
  destruct (string2ll s) as [ w | ] eqn:E; [ | discriminate ].
  apply string2ll_range in E. intros H. injection H as <- <-.
  unfold int_enc_range, INT8_MIN, INT8_MAX, INT16_MIN, INT16_MAX,
    INT24_MIN, INT24_MAX, INT32_MIN, INT32_MAX in *.
  repeat match goal with
         | |- context [ ?a >=? ?b ] =>
             destruct (Z.geb_spec a b); try (exfalso; lia)
         | |- context [ ?a <=? ?b ] =>
             destruct (Z.leb_spec a b); try (exfalso; lia)
         end; cbn [andb]; intuition lia.
Qed.

Lemma body_value_entry_body (s : list Z) :
  zlen s < 2 ^ 32 ->
  body_value (entry_body string2ll s) = pushed_value s.
Proof using string2ll_range.
  intros Hs. unfold body_value, entry_body, pushed_value.
  destruct (zipTryEncoding string2ll s) as [ [v enc] | ] eqn:E.
  - assert (Hr := zipTryEncoding_range _ _ _ E).
    assert (Henc := zipTryEncoding_enc _ _ _ _ E).
    rewrite (decode_int enc _ Henc).
    destruct (int_encs_not_str enc Henc) as (-> & _).
    assert (Hl : zipLoadInteger (enc :: zipSaveInteger_buf v enc) 1 enc
                 = Some v).
    { apply (zipLoadInteger_at _ [enc] []); auto.
      cbn [app]. now rewrite app_nil_r. }
    now rewrite Hl.
  - destruct (Z_le_gt_dec (zlen s) 0x3f) as [ H1 | H1 ].
    + rewrite zipEncodeLength_buf_06B, decode_str_06B by lia.
      change (ZIP_IS_STR ZIP_STR_06B) with true. cbv iota.
      now rewrite sub_after.
    + destruct (Z_le_gt_dec (zlen s) 0x3fff) as [ H2 | H2 ].
      * rewrite zipEncodeLength_buf_14B, decode_str_14B by lia.
        change (ZIP_IS_STR ZIP_STR_14B) with true. cbv iota.
        now rewrite sub_after.
      * rewrite zipEncodeLength_buf_32B, decode_str_32B by lia.
        change (ZIP_IS_STR ZIP_STR_32B) with true. cbv iota.
        rewrite sub_after; [ reflexivity | ].
        cbn [length]. now rewrite length_rev, le_bytes_length.
Qed.

(** The type byte that an insert writes is one of the format. *)
Lemma type_ok_entry_body (s : list Z) :
  zlen s < 2 ^ 32 -> type_ok (entry_body string2ll s) = true.
Proof.
  intros Hs. unfold entry_body.
  destruct (zipTryEncoding string2ll s) as [ [v enc] | ] eqn:E.
  - assert (Henc := zipTryEncoding_enc _ _ _ _ E).
    apply (type_ok_decode _ _ _ _ (decode_int enc _ Henc)).
    apply orb_true_iff. right. apply existsb_exists.
    exists enc. split; [ exact Henc | apply Z.eqb_refl ].
  - destruct (Z_le_gt_dec (zlen s) 0x3f) as [ H1 | H1 ].
    + rewrite zipEncodeLength_buf_06B by lia.
      apply (type_ok_decode _ _ _ _ (decode_str_06B (zlen s) s ltac:(lia))).
      reflexivity.
    + destruct (Z_le_gt_dec (zlen s) 0x3fff) as [ H2 | H2 ].
      * rewrite zipEncodeLength_buf_14B by lia.
        apply (type_ok_decode _ _ _ _ (decode_str_14B (zlen s) s ltac:(lia))).
        reflexivity.
      * rewrite zipEncodeLength_buf_32B by lia.
        apply (type_ok_decode _ _ _ _ (decode_str_32B (zlen s) s ltac:(lia))).
        reflexivity.
Qed.

End Values.

(** ** The operations on the values *)

Lemma insert_explicit (string2ll : list Z -> option Z) (c : Z)
    (es : list entry) (k : nat) (s : list Z) :
  ziplist_ok c es ->
  3 * zlen (ziplist_of c es) + zlen s < 2 ^ 32 ->
  insert_guarded string2ll (ziplist_of c es) (entry_off es k) s ->
  let new := new_entry string2ll (plast 0 (firstn k es)) s in
  let es' := firstn k es ++ new :: refit (elen new) (skipn k es) in
  let c' := if c <? UINT16_MAX then c + 1 else c in
  __ziplistInsert string2ll (ziplist_of c es) (entry_off es k) s
  = Some (ziplist_of c' es') /\
  ziplist_ok c' es'.
Proof.
  intros Hok Hfit Hg new es' c'.
  assert (Hok' : ziplist_ok c (firstn k es ++ skipn k es))
    by now rewrite firstn_skipn.
  assert (Hsize := insert_fits string2ll c _ _ s Hok').
  assert (Hg' := insert_guarded_ok string2ll c _ _ s Hok').
  rewrite firstn_skipn in Hsize, Hg'.
  specialize (Hsize Hfit). specialize (Hg' Hg).
  split.
  - exact (insert_at_ok string2ll c es k s Hok Hsize Hg').
  - exact (insert_preserves_ok string2ll c _ _ s Hok' Hsize).
Qed.

Lemma delete_explicit (c : Z) (es : list entry) (k : nat) (num : Z) :
  ziplist_ok c es -> (k < length es)%nat -> 1 <= num ->
  3 * zlen (ziplist_of c es) < 2 ^ 32 ->
  let es1 := firstn k es in
  let run := firstn (Z.to_nat num) (skipn k es) in
  let es2 := skipn (Z.to_nat num) (skipn k es) in
  let es' := es1 ++ refit (plast 0 es1) es2 in
  let c' := if c <? UINT16_MAX then c - zlen run else c in
  __ziplistDelete (ziplist_of c es) (entry_off es k) num
  = Some (ziplist_of c' es') /\
  ziplist_ok c' es'.
Proof.
  intros Hok Hk Hnum Hfit es1 run es2 es' c'.
  assert (Hes : es = es1 ++ run ++ es2)
    by (subst es1 run es2; now rewrite !firstn_skipn).
  assert (Hok' := Hok). rewrite Hes in Hok'.
  assert (Hfit' := Hfit). rewrite Hes in Hfit'.
  assert (Hsize := delete_fits c _ _ _ Hok' Hfit').
  split.
  - exact (delete_run_ok c es k num Hok Hk Hnum Hsize).
  - exact (delete_preserves_ok c _ _ _ Hok' Hsize).
Qed.

Lemma entry_values_length (es : list entry) :
  length (entry_values es) = length es.
Proof. apply length_map. Qed.

Lemma entry_values_firstn (k : nat) (es : list entry) :
  entry_values (firstn k es) = firstn k (entry_values es).
Proof. unfold entry_values. now rewrite firstn_map. Qed.

Lemma entry_values_skipn (k : nat) (es : list entry) :
  entry_values (skipn k es) = skipn k (entry_values es).
Proof. unfold entry_values. now rewrite skipn_map. Qed.

Lemma ZIPLIST_ENTRY_END_off (c : Z) (es : list entry) :
  ziplist_ok c es ->
  ZIPLIST_ENTRY_END (ziplist_of c es) = entry_off es (length es).
Proof.
  intros Hok. unfold ZIPLIST_ENTRY_END, entry_off.
  rewrite (ok_bytes c es Hok), firstn_all. lia.
Qed.

Lemma string2ll_spec_range (s : list Z) (v : Z) :
  string2ll_spec s = Some v -> INT64_MIN <= v <= INT64_MAX.
Proof.
  unfold string2ll_spec.
  destruct (match s with 45 :: r => (true, r) | _ => (false, s) end)
    as [neg ds].
  destruct ds as [ | d ds' ]; [ discriminate | ].
  destruct (digits_val 0 (d :: ds')) as [ w | ]; [ | discriminate ].
  cbn [obind]. set (x := if neg then - w else w).
  destruct (Z.leb_spec INT64_MIN x), (Z.leb_spec x INT64_MAX);
    cbn [andb]; try discriminate.
  intros Hv. injection Hv as <-. lia.
Qed.

(** The blobs that are the layout of a well-formed list of entries whose
    type bytes are of the format: those on which reading a value never
    meets the failed assertion of [zipLoadInteger].  Every blob that the
    guarded operations make from [ziplistNew] is one
    ([reach_well_typed]). *)
Definition well_typed (zl : blob) : Prop :=
  exists c es, zl = ziplist_of c es /\ ziplist_ok c es /\ types_ok es = true.

Lemma well_typed_well_formed (zl : blob) : well_typed zl -> well_formed zl.
Proof.
  intros (c & es & Hzl & Hok & _). exists c, es.
  split; [ exact Hzl | exact Hok ].
Qed.

Lemma delete_types (es : list entry) (k n : nat) (L : Z) :
  types_ok es = true ->
  types_ok (firstn k es ++ refit L (skipn n (skipn k es))) = true.
Proof.
  intros H. rewrite types_ok_app, types_ok_refit.
  apply andb_true_iff. split.
  - now apply types_ok_firstn.
  - now apply types_ok_skipn, types_ok_skipn.
Qed.

Lemma insert_types (string2ll : list Z -> option Z) (es : list entry)
    (k : nat) (s : list Z) :
  types_ok es = true -> zlen s < 2 ^ 32 ->
  let new := new_entry string2ll (plast 0 (firstn k es)) s in
  types_ok (firstn k es ++ new :: refit (elen new) (skipn k es)) = true.
Proof.
  intros H Hs new. rewrite types_ok_app.
  apply andb_true_iff. split; [ now apply types_ok_firstn | ].
  unfold types_ok at 1. cbn [forallb].
  fold (types_ok (refit (elen new) (skipn k es))).
  rewrite types_ok_refit.
  apply andb_true_iff. split; [ | now apply types_ok_skipn ].
  unfold new, new_entry. cbn [body]. now apply type_ok_entry_body.
Qed.

Lemma two_entries_well_typed : well_typed (ziplist_of 2 two_entries).
Proof.
  exists 2, two_entries.
  split; [ reflexivity | split; [ exact two_entries_ok | reflexivity ] ].
Qed.

Section ValueOperations.

Variable string2ll : list Z -> option Z.

Hypothesis string2ll_range :
  forall s v, string2ll s = Some v -> INT64_MIN <= v <= INT64_MAX.

Lemma insert_values (c : Z) (es : list entry) (k : nat) (s : list Z) :
  zlen s < 2 ^ 32 -> (k <= length es)%nat ->
  let new := new_entry string2ll (plast 0 (firstn k es)) s in
  let es' := firstn k es ++ new :: refit (elen new) (skipn k es) in
  entry_values es'
  = firstn k (entry_values es)
    ++ pushed_value string2ll s :: skipn k (entry_values es).
Proof using string2ll_range.
  intros Hs Hk new es'. subst es'.
  rewrite entry_values_app, entry_values_firstn. f_equal.
  unfold entry_values at 1. cbn [map]. fold (entry_values (refit (elen new) (skipn k es))).
  rewrite entry_values_refit, entry_values_skipn. f_equal.
  unfold new, new_entry. cbn [body].
  now apply body_value_entry_body.
Qed.

(** X2: Let [zl] be the layout of a well-formed list of entries with type
    bytes of the format ([well_typed]), [s] a value with
    [3 * |zl| + |s| < 2^32], and the push not the insert that
    [insert_guarded] leaves out (an entry of less than 4 bytes in front of
    an entry with a 5 byte [prevlen] field); [string2ll] is any parser
    that gives a [long long].  Then the push returns, and puts the value in
    front of the values of the list, at the head, or behind them, at the
    tail; the result is [well_typed] again. *)
Theorem ziplistPush_values (zl : blob) (s : list Z) (w : Z) :
  well_typed zl ->
  3 * zlen zl + zlen s < 2 ^ 32 ->
  insert_guarded string2ll zl
    (if w =? ZIPLIST_HEAD then ZIPLIST_ENTRY_HEAD zl
     else ZIPLIST_ENTRY_END zl) s ->
  exists zl' vs,
    ziplistPush string2ll zl s w = Some zl' /\
    well_typed zl' /\
    ziplist_values zl = Some vs /\
    ziplist_values zl'
    = Some (if w =? ZIPLIST_HEAD then pushed_value string2ll s :: vs
            else vs ++ [pushed_value string2ll s]).
Proof using string2ll_range.
  intros (c & es & -> & Hok & Hty) Hfit Hg.
  assert (Hs : zlen s < 2 ^ 32) by lia.
  unfold ziplistPush.
  set (k := if w =? ZIPLIST_HEAD then 0%nat else length es).
  assert (Hq : (if w =? ZIPLIST_HEAD
                then ZIPLIST_ENTRY_HEAD (ziplist_of c es)
                else ZIPLIST_ENTRY_END (ziplist_of c es))
               = entry_off es k).
  { subst k. destruct (w =? ZIPLIST_HEAD).
    - unfold ZIPLIST_ENTRY_HEAD. now rewrite entry_off_0.
    - now apply ZIPLIST_ENTRY_END_off. }
  rewrite Hq in Hg |- *.
  assert (Hk : (k <= length es)%nat)
    by (subst k; destruct (w =? ZIPLIST_HEAD); lia).
  destruct (insert_explicit string2ll c es k s Hok Hfit Hg) as (Hins & Hok').
  assert (Hty' := insert_types string2ll es k s Hty Hs).
  eexists _, (entry_values es).
  split; [ exact Hins | ].
  split; [ eexists _, _; split; [ reflexivity | split; [ exact Hok' | exact Hty' ] ] | ].
  split; [ exact (ziplist_values_ok _ _ Hok Hty) | ].
  rewrite (ziplist_values_ok _ _ Hok' Hty'), (insert_values c es k s Hs Hk).
  f_equal. subst k. destruct (w =? ZIPLIST_HEAD).
  - reflexivity.
  - rewrite <- entry_values_length, firstn_all, skipn_all. reflexivity.
Qed.

(** X3: Let [zl] be the layout of a well-formed list of entries with type
    bytes of the format ([well_typed]), [q] the entry that [ziplistIndex]
    gives for the index [i], [s] a value with [3 * |zl| + |s| < 2^32],
    and the insert not the one that [insert_guarded] leaves out (an entry
    of less than 4 bytes in front of an entry with a 5 byte [prevlen]
    field, which this version of [__ziplistInsert] does not handle);
    [string2ll] is any parser that gives a [long long].  Then the insert
    returns, and puts the value in front of that entry; the pointer is then
    the pointer of the new entry, where [ziplistGet] reads the value; the
    result is [well_typed] again. *)
Theorem ziplistInsert_values (zl : blob) (i q : Z) (s : list Z) :
  well_typed zl ->
  ziplistIndex zl i = Some (Some q) ->
  3 * zlen zl + zlen s < 2 ^ 32 ->
  insert_guarded string2ll zl q s ->
  exists zl' vs,
    ziplistInsert string2ll zl q s = Some zl' /\
    well_typed zl' /\
    ziplist_values zl = Some vs /\
    (let k := Z.to_nat (if i <? 0 then zlen vs + i else i) in
     ziplist_values zl'
     = Some (firstn k vs ++ pushed_value string2ll s :: skipn k vs)) /\
    ziplistGet zl' (Some q) = Some (Some (pushed_value string2ll s)).
Proof using string2ll_range.
  intros (c & es & -> & Hok & Hty) Hidx Hfit Hg.
  assert (Hs : zlen s < 2 ^ 32) by lia.
  rewrite (ziplistIndex_ok c es i Hok) in Hidx.
  destruct (Z.leb_spec (- zlen es) i); [ | discriminate ].
  destruct (Z.leb_spec i (zlen es - 1)); [ | discriminate ].
  cbn [andb] in Hidx. injection Hidx as <-.
  set (k := Z.to_nat (if i <? 0 then zlen es + i else i)) in *.
  assert (Hk : (k < length es)%nat)
    by (subst k; destruct (Z.ltb_spec i 0); lia).
  destruct (insert_explicit string2ll c es k s Hok Hfit Hg) as (Hins & Hok').
  assert (Hty' := insert_types string2ll es k s Hty Hs).
  eexists _, (entry_values es).
  split; [ exact Hins | ].
  split; [ eexists _, _; split; [ reflexivity | split; [ exact Hok' | exact Hty' ] ] | ].
  split; [ exact (ziplist_values_ok _ _ Hok Hty) | ].
  split.
  - rewrite entry_values_length. fold k. cbv zeta.
    rewrite (ziplist_values_ok _ _ Hok' Hty'), (insert_values c es k s Hs); auto.
    lia.
  - set (new := new_entry string2ll (plast 0 (firstn k es)) s) in *.
    set (es' := firstn k es ++ new :: refit (elen new) (skipn k es)) in *.
    assert (Hlen : length (firstn k es) = k) by (rewrite length_firstn; lia).
    assert (Hoff : entry_off es' k = entry_off es k).
    { replace (entry_off es' k) with (entry_off es' (length (firstn k es)))
        by now rewrite Hlen.
      unfold es'. rewrite entry_off_app. reflexivity. }
    assert (Hk' : (k < length es')%nat)
      by (unfold es'; rewrite length_app; cbn [length]; lia).
    rewrite <- Hoff,
      (ziplistGet_ok _ es' k Hok' Hk' (types_ok_nth es' k Hty' Hk')).
    unfold es'. rewrite app_nth2, Hlen, Nat.sub_diag by lia. cbn [nth].
    unfold new, new_entry. cbn [body].
    now rewrite body_value_entry_body.
Qed.

End ValueOperations.

Lemma ziplistGet_values (c : Z) (es : list entry) (k : nat) :
  ziplist_ok c es -> types_ok es = true -> (k <= length es)%nat ->
  ziplistGet (ziplist_of c es) (Some (entry_off es k))
  = Some (nth_error (entry_values es) k).
Proof.
  intros Hok Hty Hk. destruct (Nat.eq_dec k (length es)) as [ -> | Hne ].
  - unfold ziplistGet. rewrite (ok_end c es Hok). f_equal.
    symmetry. apply nth_error_None. rewrite entry_values_length. lia.
  - rewrite ziplistGet_ok by (auto; try lia; apply types_ok_nth; auto; lia).
    f_equal. unfold entry_values. rewrite nth_error_map.
    rewrite (nth_error_nth' es dummy) by lia. reflexivity.
Qed.

Lemma delete_values (es : list entry) (k n : nat) (L : Z) :
  entry_values (firstn k es ++ refit L (skipn n (skipn k es)))
  = firstn k (entry_values es) ++ skipn (k + n) (entry_values es).
Proof.
  rewrite entry_values_app, entry_values_refit, entry_values_firstn.
  rewrite skipn_skipn, entry_values_skipn. do 2 f_equal. lia.
Qed.

(** X4: Let [zl] be the layout of a well-formed list of entries with type
    bytes of the format ([well_typed]), with [3 * |zl| < 2^32], and [q]
    the entry that [ziplistIndex] gives for the index [i].  Then the
    delete at [q] returns, and takes that value out of the list; the
    pointer, which [ziplistDelete] gives back at the same offset, is then
    the pointer of the entry that followed, or of the terminator:
    [ziplistGet] reads the next value there, or gives 0 at the terminator,
    so that a caller can go on from it; the result is [well_typed]
    again. *)
Theorem ziplistDelete_values (zl : blob) (i q : Z) :
  well_typed zl ->
  ziplistIndex zl i = Some (Some q) ->
  3 * zlen zl < 2 ^ 32 ->
  exists zl' vs,
    ziplistDelete zl q = Some (zl', q) /\
    well_typed zl' /\
    ziplist_values zl = Some vs /\
    (let k := Z.to_nat (if i <? 0 then zlen vs + i else i) in
     ziplist_values zl' = Some (firstn k vs ++ skipn (S k) vs) /\
     ziplistGet zl' (Some q) = Some (nth_error vs (S k))).
Proof.
  intros (c & es & -> & Hok & Hty) Hidx Hfit.
  rewrite (ziplistIndex_ok c es i Hok) in Hidx.
  destruct (Z.leb_spec (- zlen es) i); [ | discriminate ].
  destruct (Z.leb_spec i (zlen es - 1)); [ | discriminate ].
  cbn [andb] in Hidx. injection Hidx as <-.
  set (k := Z.to_nat (if i <? 0 then zlen es + i else i)) in *.
  assert (Hk : (k < length es)%nat)
    by (subst k; destruct (Z.ltb_spec i 0); lia).
  destruct (delete_explicit c es k 1 Hok Hk ltac:(lia) Hfit) as (Hdel & Hok').
  assert (Hty' := delete_types es k 1 (plast 0 (firstn k es)) Hty).
  change (Z.to_nat 1) with 1%nat in Hdel, Hok'.
  set (es' := firstn k es ++ refit (plast 0 (firstn k es))
                              (skipn 1 (skipn k es))) in *.
  assert (Hv : entry_values es'
               = firstn k (entry_values es) ++ skipn (k + 1) (entry_values es))
    by apply delete_values.
  replace (k + 1)%nat with (S k) in Hv by lia.
  eexists _, (entry_values es).
  split; [ unfold ziplistDelete; rewrite Hdel; reflexivity | ].
  split; [ eexists _, _; split; [ reflexivity | split; [ exact Hok' | exact Hty' ] ] | ].
  split; [ exact (ziplist_values_ok _ _ Hok Hty) | ].
  rewrite entry_values_length. fold k. cbv zeta. split.
  - now rewrite (ziplist_values_ok _ _ Hok' Hty'), Hv.
  - assert (Hlen : length (firstn k es) = k)
      by (rewrite length_firstn; lia).
    assert (Hoff : entry_off es' k = entry_off es k).
    { replace (entry_off es' k) with (entry_off es' (length (firstn k es)))
        by now rewrite Hlen.
      unfold es'. rewrite entry_off_app. reflexivity. }
    assert (Hk' : (k <= length es')%nat)
      by (unfold es'; rewrite length_app; lia).
    rewrite <- Hoff, (ziplistGet_values _ es' k Hok' Hty' Hk'), Hv. f_equal.
    rewrite nth_error_app2
      by (rewrite length_firstn, entry_values_length; lia).
    rewrite length_firstn, entry_values_length, nth_error_skipn.
    f_equal. lia.
Qed.

Lemma ziplistDelete_values_witness :
  well_typed (ziplist_of 2 two_entries) /\
  exists zl' vs,
    ziplistDelete (ziplist_of 2 two_entries) 10 = Some (zl', 10) /\
    well_typed zl' /\
    ziplist_values (ziplist_of 2 two_entries) = Some vs /\
    (let k := Z.to_nat (if 0 <? 0 then zlen vs + 0 else 0) in
     ziplist_values zl' = Some (firstn k vs ++ skipn (S k) vs) /\
     ziplistGet zl' (Some 10) = Some (nth_error vs (S k))).
Proof.
  split; [ exact two_entries_well_typed | ].
  apply (ziplistDelete_values (ziplist_of 2 two_entries) 0 10
           two_entries_well_typed).
  - reflexivity.
  - vm_compute. reflexivity.
Defined.

(** X5: Let [zl] be the layout of a well-formed list of entries with type
    bytes of the format ([well_typed]), with [3 * |zl| < 2^32], and
    [0 <= num].  Then a delete of [num] entries from the index [index] on,
    which [ziplistIndex] takes as an [int], returns, and takes the values
    at the indexes [index .. index + num - 1] out, as many of them as the
    list has; an index out of range, or [num = 0], leaves the blob as it
    is; the result is [well_typed] again. *)
Theorem ziplistDeleteRange_values (zl : blob) (index num : Z) :
  well_typed zl ->
  0 <= num ->
  3 * zlen zl < 2 ^ 32 ->
  exists zl' vs,
    ziplistDeleteRange zl index num = Some zl' /\
    well_typed zl' /\
    ziplist_values zl = Some vs /\
    (let i := sint 32 index in
     if (- zlen vs <=? i) && (i <=? zlen vs - 1)
     then
       let k := Z.to_nat (if i <? 0 then zlen vs + i else i) in
       ziplist_values zl'
       = Some (firstn k vs ++ skipn (k + Z.to_nat num) vs) /\
       (num = 0 -> zl' = zl)
     else zl' = zl).
Proof.
  intros (c & es & -> & Hok & Hty) Hnum Hfit. unfold ziplistDeleteRange.
  rewrite (ziplistIndex_ok c es (sint 32 index) Hok).
  set (i := sint 32 index).
  destruct ((- zlen es <=? i) && (i <=? zlen es - 1)) eqn:Hin; cbn [obind].
  - apply andb_true_iff in Hin. destruct Hin as (H1 & H2).
    apply Z.leb_le in H1, H2.
    set (k := Z.to_nat (if i <? 0 then zlen es + i else i)) in *.
    assert (Hk : (k < length es)%nat)
      by (subst k; destruct (Z.ltb_spec i 0); lia).
    destruct (Z.eq_dec num 0) as [ -> | Hne ].
    + rewrite delete_zero. exists (ziplist_of c es), (entry_values es).
      split; [ reflexivity | ].
      split; [ exists c, es; split; [ reflexivity | split; [ exact Hok | exact Hty ] ] | ].
      split; [ exact (ziplist_values_ok _ _ Hok Hty) | ].
      rewrite entry_values_length. fold i.
      destruct (Z.leb_spec (- zlen es) i), (Z.leb_spec i (zlen es - 1));
        try lia; cbn [andb]. fold k.
      split; [ | reflexivity ].
      rewrite (ziplist_values_ok _ _ Hok Hty). cbn [Z.to_nat].
      now rewrite Nat.add_0_r, firstn_skipn.
    + destruct (delete_explicit c es k num Hok Hk ltac:(lia) Hfit)
        as (Hdel & Hok').
      assert (Hty' := delete_types es k (Z.to_nat num)
                        (plast 0 (firstn k es)) Hty).
      eexists _, (entry_values es).
      split; [ exact Hdel | ].
      split; [ eexists _, _; split; [ reflexivity | split; [ exact Hok' | exact Hty' ] ] | ].
      split; [ exact (ziplist_values_ok _ _ Hok Hty) | ].
      rewrite entry_values_length. fold i.
      destruct (Z.leb_spec (- zlen es) i), (Z.leb_spec i (zlen es - 1));
        try lia; cbn [andb]. fold k.
      split; [ | intros; lia ].
      now rewrite (ziplist_values_ok _ _ Hok' Hty'), delete_values.
  - exists (ziplist_of c es), (entry_values es).
    split; [ reflexivity | ].
    split; [ exists c, es; split; [ reflexivity | split; [ exact Hok | exact Hty ] ] | ].
    split; [ exact (ziplist_values_ok _ _ Hok Hty) | ].
    rewrite entry_values_length. fold i. now rewrite Hin.
Qed.

Lemma ziplistPush_values_witness :
  well_typed (ziplist_of 2 two_entries) /\
  exists zl' vs,
    ziplistPush string2ll_spec (ziplist_of 2 two_entries) [49; 48; 50; 52]
                ZIPLIST_TAIL = Some zl' /\
    well_typed zl' /\
    ziplist_values (ziplist_of 2 two_entries) = Some vs /\
    ziplist_values zl'
    = Some (vs ++ [pushed_value string2ll_spec [49; 48; 50; 52]]).
Proof.
  split; [ exact two_entries_well_typed | ].
  apply (ziplistPush_values string2ll_spec string2ll_spec_range
           (ziplist_of 2 two_entries) [49; 48; 50; 52] ZIPLIST_TAIL
           two_entries_well_typed).
  - vm_compute. reflexivity.
  - intros Hne _. exfalso. apply Hne. vm_compute. reflexivity.
Defined.

Lemma ziplistInsert_values_witness :
  well_typed (ziplist_of 2 two_entries) /\
  exists zl' vs,
    ziplistInsert string2ll_spec (ziplist_of 2 two_entries) 14 [104; 105]
    = Some zl' /\
    well_typed zl' /\
    ziplist_values (ziplist_of 2 two_entries) = Some vs /\
    (let k := Z.to_nat (if -1 <? 0 then zlen vs + -1 else -1) in
     ziplist_values zl'
     = Some (firstn k vs ++ pushed_value string2ll_spec [104; 105]
             :: skipn k vs)) /\
    ziplistGet zl' (Some 14)
    = Some (Some (pushed_value string2ll_spec [104; 105])).
Proof.
  split; [ exact two_entries_well_typed | ].
  apply (ziplistInsert_values string2ll_spec string2ll_spec_range
           (ziplist_of 2 two_entries) (-1) 14 [104; 105]
           two_entries_well_typed).
  - vm_compute. reflexivity.
  - vm_compute. reflexivity.
  - intros _ H5. vm_compute in H5. discriminate H5.
Defined.

Lemma ziplistDeleteRange_values_witness :
  well_typed (ziplist_of 2 two_entries) /\
  exists zl' vs,
    ziplistDeleteRange (ziplist_of 2 two_entries) 1 5 = Some zl' /\
    well_typed zl' /\
    ziplist_values (ziplist_of 2 two_entries) = Some vs /\
    (let i := sint 32 1 in
     if (- zlen vs <=? i) && (i <=? zlen vs - 1)
     then
       let k := Z.to_nat (if i <? 0 then zlen vs + i else i) in
       ziplist_values zl' = Some (firstn k vs ++ skipn (k + Z.to_nat 5) vs) /\
       (5 = 0 -> zl' = ziplist_of 2 two_entries)
     else zl' = ziplist_of 2 two_entries).
Proof.
  split; [ exact two_entries_well_typed | ].
  apply (ziplistDeleteRange_values (ziplist_of 2 two_entries) 1 5
           two_entries_well_typed).
  - lia.
  - vm_compute. reflexivity.
Defined.

(** ** The reachable blobs *)

Section Typed.

Variable string2ll : list Z -> option Z.

Lemma insert_typed (c : Z) (es : list entry) (k : nat) (s : list Z)
    (zl' : blob) :
  ziplist_ok c es -> types_ok es = true ->
  3 * zlen (ziplist_of c es) + zlen s < 2 ^ 32 ->
  insert_guarded string2ll (ziplist_of c es) (entry_off es k) s ->
  __ziplistInsert string2ll (ziplist_of c es) (entry_off es k) s = Some zl' ->
  well_typed zl'.
Proof.
  intros Hok Hty Hfit Hg Hins.
  assert (Hs : zlen s < 2 ^ 32) by lia.
  destruct (insert_explicit string2ll c es k s Hok Hfit Hg) as (Hi & Hok').
  rewrite Hi in Hins. injection Hins as <-.
  eexists _, _.
  split; [ reflexivity | ].
  split; [ exact Hok' | exact (insert_types string2ll es k s Hty Hs) ].
Qed.

Lemma delete_typed (c : Z) (es : list entry) (k : nat) (num : Z)
    (zl' : blob) :
  ziplist_ok c es -> types_ok es = true ->
  (k < length es)%nat -> 1 <= num ->
  3 * zlen (ziplist_of c es) < 2 ^ 32 ->
  __ziplistDelete (ziplist_of c es) (entry_off es k) num = Some zl' ->
  well_typed zl'.
Proof.
  intros Hok Hty Hk Hnum Hfit Hdel.
  destruct (delete_explicit c es k num Hok Hk Hnum Hfit) as (Hd & Hok').
  rewrite Hd in Hdel. injection Hdel as <-.
  eexists _, _.
  split; [ reflexivity | ].
  split; [ exact Hok' | ].
  exact (delete_types es k (Z.to_nat num) (plast 0 (firstn k es)) Hty).
Qed.

(** Every blob that the guarded operations make from [ziplistNew] is
    [well_typed]. *)
Lemma reach_well_typed (zl : blob) : reach string2ll zl -> well_typed zl.
Proof.
  induction 1 as
    [ | zl s w zl' _ IH Hfit Hg Hpush
      | zl i q s zl' _ IH Hidx Hfit Hg Hins
      | zl i q zl' q' _ IH Hidx Hfit Hdel
      | zl index num zl' _ IH Hi Hn Hfit Hdel ].
  - exists 0, [].
    split; [ apply ziplistNew_of | ].
    split; [ apply ziplist_ok_nil | reflexivity ].
  - destruct IH as (c & es & -> & Hok & Hty).
    unfold ziplistPush in Hpush.
    set (k := if w =? ZIPLIST_HEAD then 0%nat else length es).
    assert (Hq : (if w =? ZIPLIST_HEAD
                  then ZIPLIST_ENTRY_HEAD (ziplist_of c es)
                  else ZIPLIST_ENTRY_END (ziplist_of c es))
                 = entry_off es k).
    { subst k. destruct (w =? ZIPLIST_HEAD).
      - unfold ZIPLIST_ENTRY_HEAD. now rewrite entry_off_0.
      - now apply ZIPLIST_ENTRY_END_off. }
    rewrite Hq in Hg, Hpush.
    exact (insert_typed c es k s zl' Hok Hty Hfit Hg Hpush).
  - destruct IH as (c & es & -> & Hok & Hty).
    destruct (ziplistIndex_entry c es i q Hok Hidx) as (k & Hk & ->).
    exact (insert_typed c es k s zl' Hok Hty Hfit Hg Hins).
  - destruct IH as (c & es & -> & Hok & Hty).
    destruct (ziplistIndex_entry c es i q Hok Hidx) as (k & Hk & ->).
    unfold ziplistDelete in Hdel.
    destruct (__ziplistDelete (ziplist_of c es) (entry_off es k) 1)
      as [ zl1 | ] eqn:Hd; [ | discriminate Hdel ].
    cbn [obind] in Hdel. injection Hdel as <- _.
    exact (delete_typed c es k 1 zl1 Hok Hty Hk ltac:(lia) Hfit Hd).
  - destruct IH as (c & es & -> & Hok & Hty).
    unfold ziplistDeleteRange in Hdel.
    destruct (ziplistIndex (ziplist_of c es) (sint 32 index))
      as [ [ q | ] | ] eqn:Hidx; [ | | discriminate Hdel ].
    + cbn [obind] in Hdel.
      destruct (ziplistIndex_entry c es _ q Hok Hidx) as (k & Hk & ->).
      destruct (Z.eq_dec num 0) as [ -> | Hne ].
      * rewrite delete_zero in Hdel. injection Hdel as <-.
        exists c, es. split; [ reflexivity | split; [ exact Hok | exact Hty ] ].
      * exact (delete_typed c es k num zl' Hok Hty Hk ltac:(lia) Hfit Hdel).
    + cbn [obind] in Hdel. injection Hdel as <-.
      exists c, es. split; [ reflexivity | split; [ exact Hok | exact Hty ] ].
Qed.

End Typed.

(** * [ziplistFind] *)

Definition UCHAR_MAX : Z := 255.

Section Find.

Variable string2ll : list Z -> option Z.

(** The loop of [ziplistFind(p, vstr, vlen, skip)]; [Some None] is the
    NULL result, [None] a loop that does not end or that stops in the
    failed assertion of [zipLoadInteger]. *)
Fixpoint find_loop (fuel : nat) (zl : blob) (q0 : Z) (vstr : list Z)
    (skip skipcnt vencoding vll : Z) : option (option Z) :=
  match fuel with
  | O => None
  | S fuel' =>
    if negb (rd zl q0 =? ZIP_END) then
      let vlen := Z.of_nat (length vstr) in
      let prevlensize := ZIP_DECODE_PREVLENSIZE zl q0 in
      let '(encoding, lensize, len) :=
        ZIP_DECODE_LENGTH zl (q0 + prevlensize) in
      let q := q0 + prevlensize + lensize in
      if skipcnt =? 0 then
        if ZIP_IS_STR encoding then
          if (len =? vlen)
             && (if list_eq_dec Z.eq_dec (sub zl q vlen) vstr
                 then true else false)
          then Some (Some q0)
          else find_loop fuel' zl (q + len) vstr skip (sint 32 skip)
                         vencoding vll
        else
          let '(vencoding, vll) :=
            if vencoding =? 0 then
              match zipTryEncoding string2ll vstr with
              | Some (v, e) => (e, v)
              | None => (UCHAR_MAX, vll)
              end
            else (vencoding, vll) in
          if negb (vencoding =? UCHAR_MAX) then
            ll <- zipLoadInteger zl q encoding ;;
            if ll =? vll then Some (Some q0)
            else find_loop fuel' zl (q + len) vstr skip (sint 32 skip)
                           vencoding vll
          else find_loop fuel' zl (q + len) vstr skip (sint 32 skip)
                         vencoding vll
      else
        find_loop fuel' zl (q + len) vstr skip (skipcnt - 1) vencoding vll
    else Some None
  end.

Definition ziplistFind (zl : blob) (q0 : Z) (vstr : list Z) (skip : Z)
  : option (option Z) :=
  find_loop (S (length zl)) zl q0 vstr skip 0 0 0.

End Find.

Section FindProof.

Variable string2ll : list Z -> option Z.
Variables (c : Z) (es : list entry).
Hypothesis Hok : ziplist_ok c es.
Hypothesis Hty : types_ok es = true.
Variable s : list Z.
Variable sk : nat.
Hypothesis Hsk : Z.of_nat sk < 2 ^ 31.

(** The cached reading of the searched value as an integer. *)
Definition find_cached (vencoding vll : Z) : Prop :=
  vencoding = 0 \/
  match zipTryEncoding string2ll s with
  | Some (v, e) => vencoding = e /\ vll = v
  | None => vencoding = UCHAR_MAX
  end.

(** The entries that the search from entry [k] with the skip counter [cnt]
    looks at are number [k + cnt], then every [sk + 1]-th: the result is
    the first of them that [ziplistCompare] takes for equal. *)
Definition find_result (k cnt : nat) (r : option Z) : Prop :=
  match r with
  | Some q =>
    exists j : nat,
      (k + cnt + j * (sk + 1) < length es)%nat /\
      q = entry_off es (k + cnt + j * (sk + 1)) /\
      ziplistCompare string2ll (ziplist_of c es) q s = Some true /\
      forall j' : nat,
        (j' < j)%nat ->
        ziplistCompare string2ll (ziplist_of c es)
          (entry_off es (k + cnt + j' * (sk + 1))) s = Some false
  | None =>
    forall j : nat,
      (k + cnt + j * (sk + 1) < length es)%nat ->
      ziplistCompare string2ll (ziplist_of c es)
        (entry_off es (k + cnt + j * (sk + 1))) s = Some false
  end.

Lemma zipTryEncoding_enc_bounds (v e : Z) :
  zipTryEncoding string2ll s = Some (v, e) -> e <> 0 /\ e <> UCHAR_MAX.
Proof.
  intros H. apply zipTryEncoding_enc in H. unfold int_encs in H.
  cbn [In] in H. unfold UCHAR_MAX.
  repeat (destruct H as [ <- | H ]; [ split; discriminate | ]).
  destruct H.
Qed.

Lemma find_loop_ok (m : nat) :
  forall (k fuel cnt : nat) (venc vll : Z),
    (k + m = length es)%nat -> (m < fuel)%nat ->
    find_cached venc vll ->
    exists r,
      find_loop string2ll fuel (ziplist_of c es) (entry_off es k) s (Z.of_nat sk)
                (Z.of_nat cnt) venc vll = Some r /\
      find_result k cnt r.
Proof using Hok Hty Hsk.
  induction m as [ | m IH ]; intros k fuel cnt venc vll Hkm Hfuel Hcache;
    (destruct fuel as [ | fuel ]; [ lia | ]); cbn [find_loop].
  - replace k with (length es) by lia. 
    rewrite (ok_end c es Hok). cbn [negb].
    exists None. split; [ reflexivity | ]. intros j Hj. lia.
  - assert (Hk : (k < length es)%nat) by lia.
    assert (Hne := ok_not_end c es Hok k Hk).
    rewrite Hne. cbn [negb].
    destruct (ok_zipEntry c es Hok k Hk)
      as (enc & lsz & l & Hd & Hz & Hlen & Hlsz & Hl).
    assert (Hat := ziplist_of_entry_at c es k Hk).
    assert (Hn := chain_ok_nth _ _ (proj1 Hok) Hk).
    destruct Hn as (Hp0 & Hpsmall & Hbody).
    set (e := nth k es dummy) in *.
    rewrite (entry_at_prevlensize _ _ _ _ Hat Hpsmall).
    rewrite (entry_at_decode_length _ _ _ _ Hat Hbody), Hd.
    replace (entry_off es k + pls (large e) + lsz + l)
      with (entry_off es (S k)) by (rewrite entry_off_S by exact Hk; fold e; lia).
    assert (Hs32 : sint 32 (Z.of_nat sk) = Z.of_nat sk)
      by (apply sint_small; [ lia | change (2 ^ (32 - 1)) with (2 ^ 31); lia ]).
    rewrite Hs32.
    (* what [ziplistCompare] does at this entry *)
    assert (Hcases :
      (ZIP_IS_STR enc = true /\
       ziplistCompare string2ll (ziplist_of c es) (entry_off es k) s
       = Some ((l =? zlen s)
               && (if list_eq_dec Z.eq_dec
                        (sub (ziplist_of c es)
                             (entry_off es k + pls (large e) + lsz)
                             (zlen s)) s
                   then true else false))) \/
      (ZIP_IS_STR enc = false /\
       exists v,
         zipLoadInteger (ziplist_of c es)
           (entry_off es k + pls (large e) + lsz) enc = Some v /\
         ziplistCompare string2ll (ziplist_of c es) (entry_off es k) s
         = Some match zipTryEncoding string2ll s with
                | Some (sval, _) => v =? sval
                | None => false
                end)).
    { unfold ziplistCompare. rewrite Hne, Hz.
      cbn [encoding len headersize]. rewrite Z.add_assoc.
      destruct (ZIP_IS_STR enc) eqn:Hs; [ left | right ];
        (split; [ reflexivity | ]).
      - destruct (l =? zlen s); [ | reflexivity ]. cbn [andb].
        destruct (list_eq_dec Z.eq_dec _ s); reflexivity.
      - destruct (type_ok_load (body e) (ziplist_of c es)
                    (entry_off es k + pls (large e) + lsz) enc lsz l
                    (types_ok_nth es k Hty Hk) Hd Hs) as (v & Hv).
        exists v. split; [ exact Hv | ]. rewrite Hv.
        destruct (zipTryEncoding string2ll s) as [ [sval e0] | ];
          reflexivity. }
    assert (Hnext : forall venc' vll',
               find_cached venc' vll' ->
               exists r,
                 find_loop string2ll fuel (ziplist_of c es) (entry_off es (S k)) s
                           (Z.of_nat sk) (Z.of_nat sk) venc' vll' = Some r /\
                 (ziplistCompare string2ll (ziplist_of c es) (entry_off es k) s
                  = Some false ->
                  find_result k 0 r)).
    { intros venc' vll' Hc'.
      destruct (IH (S k) fuel sk venc' vll' ltac:(lia) ltac:(lia) Hc')
        as (r & Hr & Hres).
      exists r. split; [ exact Hr | ]. intros Hfalse.
      destruct r as [ q | ]; cbn [find_result] in *.
      - destruct Hres as (j & Hj & Hq & Hc & Hbefore).
        exists (S j). repeat split.
        + lia.
        + rewrite Hq. f_equal. lia.
        + exact Hc.
        + intros j' Hj'. destruct j' as [ | j' ].
          * replace (k + 0 + 0 * (sk + 1))%nat with k by lia. exact Hfalse.
          * specialize (Hbefore j' ltac:(lia)).
            replace (k + 0 + S j' * (sk + 1))%nat
              with (S k + sk + j' * (sk + 1))%nat by lia.
            exact Hbefore.
      - intros j Hj. destruct j as [ | j ].
        + replace (k + 0 + 0 * (sk + 1))%nat with k by lia. exact Hfalse.
        + replace (k + 0 + S j * (sk + 1))%nat
            with (S k + sk + j * (sk + 1))%nat in * by lia.
          now apply Hres. }
    destruct cnt as [ | cnt ].
    + change (Z.of_nat 0 =? 0) with true. cbv iota.
      assert (Hhere : ziplistCompare string2ll (ziplist_of c es) (entry_off es k) s
                      = Some true ->
                      find_result k 0 (Some (entry_off es k))).
      { intros Ht. exists 0%nat.
        replace (k + 0 + 0 * (sk + 1))%nat with k by lia.
        repeat split; auto. intros j' Hj'. lia. }
      destruct Hcases as [ (Hstr & Hcm) | (Hstr & zval & Hv & Hcm) ];
        rewrite Hstr.
      * match goal with
        | |- context [ if ?b then Some (Some _) else _ ] =>
            destruct b eqn:Eb
        end; try rewrite Eb in Hcm.
        -- eexists. split; [ reflexivity | apply Hhere; exact Hcm ].
        -- destruct (Hnext venc vll Hcache) as (r & Hr & Hres).
           exists r. split; [ exact Hr | apply Hres; exact Hcm ].
      * set (st := if venc =? 0
                   then match zipTryEncoding string2ll s with
                        | Some (v, e0) => (e0, v)
                        | None => (UCHAR_MAX, vll)
                        end
                   else (venc, vll)).
        assert (Hst : match zipTryEncoding string2ll s with
                      | Some (v, e0) => st = (e0, v)
                      | None => fst st = UCHAR_MAX
                      end).
        { subst st. destruct Hcache as [ -> | Hc ].
          - cbn [Z.eqb]. destruct (zipTryEncoding string2ll s) as [ [v e0] | ];
              reflexivity.
          - destruct (zipTryEncoding string2ll s) as [ [v e0] | ] eqn:E.
            + destruct Hc as (-> & ->).
              destruct (zipTryEncoding_enc_bounds _ _ E) as (H0 & _).
              destruct (Z.eqb_spec e0 0); [ contradiction | reflexivity ].
            + subst venc. reflexivity. }
        destruct st as [venc' vll'].
        assert (Hc' : find_cached venc' vll').
        { right. destruct (zipTryEncoding string2ll s) as [ [v e0] | ].
          - injection Hst as -> ->. split; reflexivity.
          - exact Hst. }
        assert (Hb : negb (venc' =? UCHAR_MAX) && (zval =? vll')
                     = match zipTryEncoding string2ll s with
                       | Some (sval, _) => zval =? sval
                       | None => false
                       end).
        { destruct (zipTryEncoding string2ll s) as [ [v0 e0] | ] eqn:E.
          - injection Hst as -> ->.
            destruct (zipTryEncoding_enc_bounds _ _ E) as (_ & H255).
            destruct (Z.eqb_spec e0 UCHAR_MAX); [ contradiction | ].
            reflexivity.
          - cbn [fst] in Hst. subst venc'. rewrite Z.eqb_refl. reflexivity. }
        rewrite <- Hb in Hcm.
        destruct (negb (venc' =? UCHAR_MAX)) eqn:E1.
        -- rewrite Hv. cbn [obind].
           destruct (zval =? vll') eqn:E2.
           ++ eexists. split; [ reflexivity | apply Hhere; exact Hcm ].
           ++ destruct (Hnext venc' vll' Hc') as (r & Hr & Hres).
              exists r. split; [ exact Hr | apply Hres; exact Hcm ].
        -- destruct (Hnext venc' vll' Hc') as (r & Hr & Hres).
           exists r. split; [ exact Hr | apply Hres; exact Hcm ].
    + destruct (Z.eqb_spec (Z.of_nat (S cnt)) 0); [ lia | ].
      replace (Z.of_nat (S cnt) - 1) with (Z.of_nat cnt) by lia.
      destruct (IH (S k) fuel cnt venc vll ltac:(lia) ltac:(lia) Hcache)
        as (r & Hr & Hres).
      exists r. split; [ exact Hr | ].
      destruct r as [ q | ]; cbn [find_result] in *.
      * destruct Hres as (j & Hj & Hq & Hc & Hbefore).
        exists j. repeat split.
        -- lia.
        -- rewrite Hq. f_equal. lia.
        -- exact Hc.
        -- intros j' Hj'. specialize (Hbefore j' Hj').
           replace (k + S cnt + j' * (sk + 1))%nat
             with (S k + cnt + j' * (sk + 1))%nat by lia.
           exact Hbefore.
      * intros j Hj.
        replace (k + S cnt + j * (sk + 1))%nat
          with (S k + cnt + j * (sk + 1))%nat in * by lia.
        now apply Hres.
Qed.

End FindProof.

(** X6: On a blob that is the layout of a well-formed list of entries with
    type bytes of the format ([well_typed]), [ziplistFind] from the entry
    of index [i >= 0] with [0 <= skip < 2^31] entries skipped between two
    comparisons returns, and gives the first of the entries of index [i],
    [i + (skip+1)], [i + 2(skip+1)], ... that [ziplistCompare] takes for
    equal to the value, or NULL when there is none; [ziplistCompare]
    returns on each of the entries looked at. *)
Theorem ziplistFind_first (string2ll : list Z -> option Z) (zl : blob)
    (i q : Z) (s : list Z) (skip : Z) :
  well_typed zl -> 0 <= i ->
  ziplistIndex zl i = Some (Some q) ->
  0 <= skip < 2 ^ 31 ->
  exists r,
    ziplistFind string2ll zl q s skip = Some r /\
    match r with
    | Some q' =>
      exists j,
        0 <= j /\
        ziplistIndex zl (i + j * (skip + 1)) = Some (Some q') /\
        ziplistCompare string2ll zl q' s = Some true /\
        forall j' q'',
          0 <= j' < j ->
          ziplistIndex zl (i + j' * (skip + 1)) = Some (Some q'') ->
          ziplistCompare string2ll zl q'' s = Some false
    | None =>
      forall j q'',
        0 <= j ->
        ziplistIndex zl (i + j * (skip + 1)) = Some (Some q'') ->
        ziplistCompare string2ll zl q'' s = Some false
    end.
Proof.
  intros (c & es & -> & Hok & Hty) Hi Hidx Hskip.
  assert (Hidx' := Hidx). rewrite (ziplistIndex_ok c es i Hok) in Hidx'.
  destruct (Z.leb_spec (- zlen es) i); [ | discriminate ].
  destruct (Z.leb_spec i (zlen es - 1)); [ | discriminate ].
  cbn [andb] in Hidx'. destruct (Z.ltb_spec i 0); [ lia | ].
  injection Hidx' as <-.
  set (k := Z.to_nat i). set (sk := Z.to_nat skip).
  assert (Hsk : Z.of_nat sk < 2 ^ 31) by (subst sk; lia).
  assert (Hn := ok_count_bound c es Hok).
  assert (Hlen := ziplist_of_length c es).
  assert (Hs := sum_len_nonneg es). unfold ZIPLIST_HEADER_SIZE in Hlen.
  destruct (find_loop_ok string2ll c es Hok Hty s sk Hsk (length es - k) k
              (S (length (ziplist_of c es))) 0 0 0)
    as (r & Hr & Hres); try (subst k; lia).
  { now left. }
  exists r. split.
  { unfold ziplistFind. replace skip with (Z.of_nat sk) by (subst sk; lia).
    exact Hr. }
  assert (Hpos : forall j : Z,
             0 <= j -> i + j * (skip + 1) <= zlen es - 1 ->
             ziplistIndex (ziplist_of c es) (i + j * (skip + 1))
             = Some (Some (entry_off es
                             (k + 0 + Z.to_nat j * (sk + 1))%nat))).
  { intros j Hj Hin. rewrite (ziplistIndex_ok c es _ Hok).
    assert (0 <= j * (skip + 1)) by (apply Z.mul_nonneg_nonneg; lia).
    destruct (Z.leb_spec (- zlen es) (i + j * (skip + 1))); [ | lia ].
    destruct (Z.leb_spec (i + j * (skip + 1)) (zlen es - 1)); [ | lia ].
    destruct (Z.ltb_spec (i + j * (skip + 1)) 0); [ lia | ].
    cbn [andb]. do 3 f_equal. subst k sk.
    rewrite Nat.add_0_r, Z2Nat.inj_add, Z2Nat.inj_mul, Z2Nat.inj_add by lia.
    reflexivity. }
  assert (Hout : forall (j q'' : Z),
             0 <= j ->
             ziplistIndex (ziplist_of c es) (i + j * (skip + 1))
             = Some (Some q'') ->
             i + j * (skip + 1) <= zlen es - 1).
  { intros j q'' Hj Hx. rewrite (ziplistIndex_ok c es _ Hok) in Hx.
    destruct (Z.leb_spec (i + j * (skip + 1)) (zlen es - 1)); [ lia | ].
    rewrite andb_false_r in Hx. discriminate. }
  assert (Hnat : forall j : nat,
             Z.of_nat (k + 0 + j * (sk + 1))
             = i + Z.of_nat j * (skip + 1)).
  { intros j. subst k sk.
    rewrite Nat.add_0_r, Nat2Z.inj_add, Nat2Z.inj_mul, Nat2Z.inj_add,
      !Z2Nat.id by lia.
    reflexivity. }
  destruct r as [ q' | ]; cbn [find_result] in Hres.
  - destruct Hres as (j & Hj & Hq & Hc & Hbefore).
    exists (Z.of_nat j). split; [ lia | ].
    assert (Hjn := Hnat j).
    split; [ | split; [ exact Hc | ] ].
    + rewrite Hpos by lia. rewrite Nat2Z.id. now rewrite Hq.
    + intros j' q'' Hj' Hidx''.
      assert (Hin := Hout j' q'' ltac:(lia) Hidx'').
      rewrite Hpos in Hidx'' by lia. injection Hidx'' as <-.
      apply Hbefore. lia.
  - intros j q'' Hj Hidx''.
    assert (Hin := Hout j q'' Hj Hidx'').
    rewrite Hpos in Hidx'' by lia. injection Hidx'' as <-.
    apply Hres. assert (Hjn := Hnat (Z.to_nat j)).
    rewrite Z2Nat.id in Hjn by lia. lia.
Qed.

Lemma ziplistFind_first_witness :
  well_typed (ziplist_of 2 two_entries) /\
  exists r,
    ziplistFind string2ll_spec (ziplist_of 2 two_entries) 10 [49] 0 = Some r /\
    match r with
    | Some q' =>
      exists j,
        0 <= j /\
        ziplistIndex (ziplist_of 2 two_entries) (0 + j * (0 + 1))
        = Some (Some q') /\
        ziplistCompare string2ll_spec (ziplist_of 2 two_entries) q' [49]
        = Some true /\
        forall j' q'',
          0 <= j' < j ->
          ziplistIndex (ziplist_of 2 two_entries) (0 + j' * (0 + 1))
          = Some (Some q'') ->
          ziplistCompare string2ll_spec (ziplist_of 2 two_entries) q'' [49]
          = Some false
    | None =>
      forall j q'',
        0 <= j ->
        ziplistIndex (ziplist_of 2 two_entries) (0 + j * (0 + 1))
        = Some (Some q'') ->
        ziplistCompare string2ll_spec (ziplist_of 2 two_entries) q'' [49]
        = Some false
    end.
Proof.
  split; [ exact two_entries_well_typed | ].
  apply (ziplistFind_first string2ll_spec (ziplist_of 2 two_entries) 0 10
           [49] 0 two_entries_well_typed).
  - lia.
  - reflexivity.
  - lia.
Defined.

(** * Comparing, counting *)

Lemma ziplistCompare_ok (string2ll : list Z -> option Z) (c : Z)
    (es : list entry) (k : nat) (s : list Z) :
  ziplist_ok c es -> (k < length es)%nat ->
  type_ok (body (nth k es dummy)) = true ->
  ziplistCompare string2ll (ziplist_of c es) (entry_off es k) s
  = Some match body_value (body (nth k es dummy)) with
         | VStr t => if list_eq_dec Z.eq_dec t s then true else false
         | VInt v =>
           match zipTryEncoding string2ll s with
           | Some (w, _) => v =? w
           | None => false
           end
         end.
Proof.
  intros Hok Hk Hty. unfold ziplistCompare. rewrite (ok_not_end c es Hok k Hk).
  destruct (ok_zipEntry c es Hok k Hk)
    as (enc & lsz & l & Hd & Hz & Hlen & Hlsz & Hl).
  rewrite Hz. cbn [encoding headersize len].
  unfold body_value. rewrite Hd.
  destruct (ziplist_of_entry_at c es k Hk) as (pre & rest & Hzl & Hoff).
  set (e := nth k es dummy) in *.
  assert (Hb : body_ok (body e) = true)
    by apply (chain_ok_nth _ _ (proj1 Hok) Hk).
  unfold entry_bytes in Hzl.
  set (pf := prev_field (large e) (entry_prev es k)) in *.
  assert (Hpf : zlen pf = pls (large e)) by apply prev_field_length.
  assert (Hzl' : ziplist_of c es = (pre ++ pf) ++ body e ++ rest)
    by (rewrite Hzl; list_eq).
  assert (Hpos : entry_off es k + (pls (large e) + lsz)
                 = zlen (pre ++ pf) + lsz)
    by (rewrite length_app; lia).
  assert (Hbl : lsz + l = zlen (body e)) by (unfold elen in Hlen; lia).
  rewrite Hpos, Hzl'.
  destruct (ZIP_IS_STR enc) eqn:Hs.
  - destruct (Z.eqb_spec l (zlen s)) as [ Heq | Hne ].
    + rewrite <- Heq. rewrite sub_mid by lia.
      destruct (list_eq_dec Z.eq_dec (sub (body e) lsz l) s); reflexivity.
    + destruct (list_eq_dec Z.eq_dec (sub (body e) lsz l) s) as [ E | ];
        [ | reflexivity ].
      exfalso. apply Hne. rewrite <- E. symmetry. apply sub_length; lia.
  - rewrite zipLoadInteger_mid;
      [ | lia | assert (H := body_ok_int_size _ _ _ _ Hb Hd Hs); lia ].
    destruct (type_ok_load _ (body e) lsz _ _ _ Hty Hd Hs) as (v & Hv).
    rewrite Hv.
    destruct (zipTryEncoding string2ll s) as [ [w e0] | ]; reflexivity.
Qed.

(** X7: [ziplistCompare] at an entry agrees with [ziplistGet], on a blob
    that is the layout of a well-formed list of entries with type bytes of
    the format ([well_typed]): at the entry of any index, [ziplistGet]
    returns a value and [ziplistCompare] returns; where the value is a
    string, the comparison is true for exactly these bytes; where it is an
    integer, the comparison is true exactly when [zipTryEncoding] reads the
    same integer from the bytes. *)
Theorem ziplistCompare_get (string2ll : list Z -> option Z) (zl : blob)
    (i q : Z) (s : list Z) :
  well_typed zl ->
  ziplistIndex zl i = Some (Some q) ->
  exists v,
    ziplistGet zl (Some q) = Some (Some v) /\
    ziplistCompare string2ll zl q s
    = Some match v with
           | VStr t => if list_eq_dec Z.eq_dec t s then true else false
           | VInt n =>
             match zipTryEncoding string2ll s with
             | Some (w, _) => n =? w
             | None => false
             end
           end.
Proof.
  intros (c & es & -> & Hok & Hty) Hidx.
  destruct (ziplistIndex_entry c es i q Hok Hidx) as (k & Hk & ->).
  assert (Ht := types_ok_nth es k Hty Hk).
  exists (body_value (body (nth k es dummy))).
  split.
  - exact (ziplistGet_ok c es k Hok Hk Ht).
  - exact (ziplistCompare_ok string2ll c es k s Hok Hk Ht).
Qed.

Lemma ziplistCompare_get_witness :
  well_typed (ziplist_of 2 two_entries) /\
  exists v,
    ziplistGet (ziplist_of 2 two_entries) (Some 10) = Some (Some v) /\
    ziplistCompare string2ll_spec (ziplist_of 2 two_entries) 10 [97; 98]
    = Some match v with
           | VStr t =>
             if list_eq_dec Z.eq_dec t [97; 98] then true else false
           | VInt n =>
             match zipTryEncoding string2ll_spec [97; 98] with
             | Some (w, _) => n =? w
             | None => false
             end
           end.
Proof.
  split; [ exact two_entries_well_typed | ].
  apply (ziplistCompare_get string2ll_spec (ziplist_of 2 two_entries) 0 10
           [97; 98] two_entries_well_typed).
  reflexivity.
Defined.

(** X8: On a blob that is the layout of a well-formed list of entries with
    type bytes of the format ([well_typed]), [ziplistBlobLen] is the size
    of the blob, and [ziplistLen] returns the number of values that the
    iteration with [ziplistGet] and [ziplistNext] reads; a call of
    [ziplistLen] leaves the values as they are, whether it writes the
    count field or not. *)
Theorem ziplistLen_values (zl : blob) :
  well_typed zl ->
  ziplistBlobLen zl = zlen zl /\
  exists zl' vs,
    ziplistLen zl = Some (zl', zlen vs) /\
    well_typed zl' /\
    ziplist_values zl = Some vs /\
    ziplist_values zl' = Some vs.
Proof.
  intros (c & es & -> & Hok & Hty). split.
  - unfold ziplistBlobLen. now rewrite (ok_bytes c es Hok), ziplist_of_length.
  - assert (Hv := ziplist_values_ok c es Hok Hty).
    assert (Hn := ok_count_bound c es Hok).
    assert (Hlen := ziplist_of_length c es).
    assert (Hs := sum_len_nonneg es).
    assert (Hok' := Hok). destruct Hok' as (Hch & Hb & Hc & Hcount).
    unfold ZIPLIST_HEADER_SIZE in Hlen, Hb.
    unfold ziplistLen. rewrite (ok_length c es Hok).
    destruct (Z.ltb_spec c UINT16_MAX) as [ Hlt | Hge ].
    + exists (ziplist_of c es), (entry_values es).
      rewrite entry_values_length, <- (Hcount Hlt).
      split; [ reflexivity | ].
      split; [ | split; exact Hv ].
      exists c, es. split; [ reflexivity | split; [ exact Hok | exact Hty ] ].
    + change ZIPLIST_HEADER_SIZE with (entry_off es 0).
      rewrite (len_walk_ok c es Hok (length es)) by (auto; lia).
      cbn [obind]. rewrite Z.add_0_l.
      exists (ziplist_of (if zlen es <? UINT16_MAX then zlen es else c) es),
        (entry_values es).
      rewrite entry_values_length.
      assert (Hok2 : ziplist_ok (if zlen es <? UINT16_MAX then zlen es else c)
                                es).
      { destruct (Z.ltb_spec (zlen es) UINT16_MAX); [ | exact Hok ].
        repeat split; auto; lia. }
      split.
      { destruct (zlen es <? UINT16_MAX); [ | reflexivity ].
        unfold ziplist_of. now rewrite set_ZIPLIST_LENGTH_header. }
      split; [ eexists _, es; split;
               [ reflexivity | split; [ exact Hok2 | exact Hty ] ] | ].
      split; [ exact Hv | exact (ziplist_values_ok _ _ Hok2 Hty) ].
Qed.

Lemma ziplistLen_values_witness :
  well_typed (ziplist_of UINT16_MAX two_entries) /\
  ziplistBlobLen (ziplist_of UINT16_MAX two_entries) = 17 /\
  exists zl' vs,
    ziplistLen (ziplist_of UINT16_MAX two_entries) = Some (zl', zlen vs) /\
    well_typed zl' /\
    ziplist_values (ziplist_of UINT16_MAX two_entries) = Some vs /\
    ziplist_values zl' = Some vs.
Proof.
  assert (H : well_typed (ziplist_of UINT16_MAX two_entries)).
  { exists UINT16_MAX, two_entries.
    split; [ reflexivity | ].
    split; [ exact two_entries_saturated_ok | reflexivity ]. }
  split; [ exact H | ].
  apply (ziplistLen_values (ziplist_of UINT16_MAX two_entries) H).
Defined.

(** * The encodings *)

Lemma memcpy_split (zl : blob) (q : Z) (bs : list Z) :
  0 <= q -> q + zlen bs <= zlen zl ->
  memcpy zl q bs
  = firstn (Z.to_nat q) zl ++ bs ++ skipn (Z.to_nat q + length bs) zl /\
  zlen (firstn (Z.to_nat q) zl) = q.
Proof.
  intros Hq Hl. unfold memcpy. split.
  - apply firstn_all2.
    rewrite !length_app, length_firstn, length_skipn. lia.
  - rewrite length_firstn. lia.
Qed.

Lemma ZIP_DECODE_LENGTH_shift (pre x : list Z) :
  ZIP_DECODE_LENGTH (pre ++ x) (zlen pre) = ZIP_DECODE_LENGTH x 0.
Proof.
  unfold ZIP_DECODE_LENGTH, ZIP_ENTRY_ENCODING.
  replace (rd (pre ++ x) (zlen pre)) with (rd x 0)
    by (replace (zlen pre) with (zlen pre + 0) at 1 by lia;
        now rewrite rd_app_r by lia).
  rewrite !rd_app_r by lia. reflexivity.
Qed.

Lemma ZIP_DECODE_PREVLEN_shift (pre x : list Z) :
  ZIP_DECODE_PREVLEN (pre ++ x) (zlen pre) = ZIP_DECODE_PREVLEN x 0.
Proof.
  unfold ZIP_DECODE_PREVLEN, ZIP_DECODE_PREVLENSIZE.
  replace (rd (pre ++ x) (zlen pre)) with (rd x 0)
    by (replace (zlen pre) with (zlen pre + 0) at 1 by lia;
        now rewrite rd_app_r by lia).
  now rewrite sub_app_r by lia.
Qed.

(** The kind of length header of a string of [n] bytes. *)
Definition str_encoding (n : Z) : Z :=
  if n <=? 0x3f then ZIP_STR_06B
  else if n <=? 0x3fff then ZIP_STR_14B else ZIP_STR_32B.

Lemma zipEncodeLength_buf_str (enc n : Z) :
  ZIP_IS_STR enc = true ->
  zipEncodeLength_buf enc n = zipEncodeLength_buf 0 n.
Proof. intros Hs. unfold zipEncodeLength_buf. now rewrite Hs. Qed.

(** X9: What [zipEncodeLength] writes, [ZIP_DECODE_LENGTH] reads back: for a
    string of less than 2^32 bytes the kind of the header, its size and the
    length; for an integer encoding the encoding byte, 1 and the size of
    the payload.  The call without a buffer gives the same size. *)
Theorem zipEncodeLength_decode (zl : blob) (q enc n : Z) :
  0 <= q -> q + 5 <= zlen zl ->
  (ZIP_IS_STR enc = true /\ 0 <= n < 2 ^ 32) \/ In enc int_encs ->
  zipEncodeLength zl None enc n
  = (zl, snd (zipEncodeLength zl (Some q) enc n)) /\
  length (fst (zipEncodeLength zl (Some q) enc n)) = length zl /\
  ZIP_DECODE_LENGTH (fst (zipEncodeLength zl (Some q) enc n)) q
  = if ZIP_IS_STR enc
    then (str_encoding n, snd (zipEncodeLength zl (Some q) enc n), n)
    else (enc, 1, zipIntSize enc).
Proof.
  intros Hq Hl Henc. cbn [zipEncodeLength fst snd].
  set (buf := zipEncodeLength_buf enc n).
  assert (Hbuf : zlen buf <= 5).
  { subst buf. unfold zipEncodeLength_buf.
    repeat match goal with
           | |- context [ if ?c then _ else _ ] => destruct c
           end; cbn [length]; lia. }
  destruct (memcpy_split zl q buf Hq ltac:(lia)) as (Hm & Hpre).
  split; [ reflexivity | ]. split; [ apply memcpy_length | ].
  rewrite Hm. set (pre := firstn (Z.to_nat q) zl) in *.
  set (rest := skipn (Z.to_nat q + length buf) zl).
  rewrite <- Hpre, ZIP_DECODE_LENGTH_shift.
  destruct Henc as [ (Hs & Hn) | Hint ].
  - rewrite Hs. subst buf. rewrite (zipEncodeLength_buf_str enc n Hs) in *.
    unfold str_encoding.
    destruct (Z.leb_spec n 0x3f).
    + rewrite zipEncodeLength_buf_06B by lia. now rewrite decode_str_06B by lia.
    + destruct (Z.leb_spec n 0x3fff).
      * rewrite zipEncodeLength_buf_14B by lia.
        now rewrite decode_str_14B by lia.
      * rewrite zipEncodeLength_buf_32B by lia.
        rewrite decode_str_32B by lia. cbn [length].
        rewrite length_rev, le_bytes_length. reflexivity.
  - destruct (int_encs_not_str enc Hint) as (Hs & _). rewrite Hs.
    subst buf. rewrite zipEncodeLength_buf_int by exact Hs.
    cbn [app]. now apply decode_int.
Qed.

Lemma zipEncodeLength_decode_witness :
  ZIP_DECODE_LENGTH (fst (zipEncodeLength (repeat 0 8%nat) (Some 2) 0 300)) 2
  = if ZIP_IS_STR 0
    then (str_encoding 300,
          snd (zipEncodeLength (repeat 0 8%nat) (Some 2) 0 300), 300)
    else (0, 1, zipIntSize 0).
Proof.
  apply (zipEncodeLength_decode (repeat 0 8%nat) 2 0 300).
  - lia.
  - cbn [repeat length]. lia.
  - left. split; [ reflexivity | lia ].
Defined.

(** X10: What [zipPrevEncodeLength] writes, [ZIP_DECODE_PREVLEN] reads back: one
    byte for a length below 254 and five bytes from 254 on; the call
    without a buffer gives the same size, and [zipPrevLenByteDiff] finds
    nothing to change for this length.  What [zipPrevEncodeLengthForceLarge]
    writes is read back as a field of five bytes with the length, whatever
    the length. *)
Theorem zipPrevEncodeLength_decode (zl : blob) (q l : Z) :
  0 <= q -> q + 5 <= zlen zl -> 0 <= l < 2 ^ 32 ->
  let zl' := fst (zipPrevEncodeLength zl (Some q) l) in
  let size := snd (zipPrevEncodeLength zl (Some q) l) in
  zipPrevEncodeLength zl None l = (zl, size) /\
  size = (if l <? ZIP_BIGLEN then 1 else 5) /\
  ZIP_DECODE_PREVLEN zl' q = (size, l) /\
  zipPrevLenByteDiff zl' q l = 0 /\
  ZIP_DECODE_PREVLEN (zipPrevEncodeLengthForceLarge zl q l) q = (5, l).
Proof.
  intros Hq Hl Hrange zl' size. subst zl' size.
  cbn [zipPrevEncodeLength fst snd].
  rewrite zipPrevEncodeLength_buf_field, zipPrevEncodeLength_size_pls.
  set (lg := negb (l <? ZIP_BIGLEN)).
  assert (Hat : forall b : bool,
             entry_at (memcpy zl q (prev_field b l)) q l (mk_entry b [])).
  { intros b.
    assert (Hb : zlen (prev_field b l) = pls b) by apply prev_field_length.
    destruct (memcpy_split zl q (prev_field b l) Hq
                ltac:(destruct b; cbn [pls] in Hb; lia)) as (Hm & Hpre).
    apply (entry_at_intro _ (firstn (Z.to_nat q) zl) _ _
             (skipn (Z.to_nat q + length (prev_field b l)) zl)).
    - rewrite Hm. unfold entry_bytes. cbn [large body]. list_eq.
    - now rewrite Hpre. }
  assert (Hsmall : large (mk_entry lg []) = false -> l < ZIP_BIGLEN).
  { cbn [large]. subst lg. destruct (Z.ltb_spec l ZIP_BIGLEN); [ auto | ].
    discriminate. }
  repeat split.
  - subst lg. destruct (l <? ZIP_BIGLEN); reflexivity.
  - now rewrite (entry_at_prevlen _ _ _ _ (Hat lg)).
  - unfold zipPrevLenByteDiff.
    rewrite (entry_at_prevlensize _ _ _ _ (Hat lg) Hsmall).
    rewrite zipPrevEncodeLength_size_pls. cbn [large]. fold lg. lia.
  - unfold zipPrevEncodeLengthForceLarge.
    change (ZIP_BIGLEN :: le_bytes 4 l) with (prev_field true l).
    rewrite (entry_at_prevlen _ _ _ _ (Hat true)); auto.
    discriminate.
Qed.

Lemma zipPrevEncodeLength_decode_witness :
  ZIP_DECODE_PREVLEN (zipPrevEncodeLengthForceLarge (repeat 0 8%nat) 1 7) 1
  = (5, 7).
Proof.
  apply (zipPrevEncodeLength_decode (repeat 0 8%nat) 1 7).
  - lia.
  - cbn [repeat length]. lia.
  - lia.
Defined.

Lemma le_bytes_nth (n : nat) :
  forall (k : nat) (v : Z),
    (k < n)%nat -> nth k (le_bytes n v) 0 = (v / 256 ^ Z.of_nat k) mod 256.
Proof.
  induction n as [ | n IH ]; intros k v Hk; [ lia | ].
  cbn [le_bytes]. destruct k as [ | k ].
  - cbn [nth]. now rewrite Z.pow_0_r, Z.div_1_r.
  - cbn [nth]. rewrite IH by lia.
    rewrite Nat2Z.inj_succ, Z.pow_succ_r, Z.div_div by lia.
    reflexivity.
Qed.

(** X11: The byte order of the format.  The payload of an integer is
    little-endian: byte number [k] holds the bits [8k .. 8k+7] of the value
    in two's complement.  The 4 bytes of a 5 byte [prevlen] field are
    little-endian.  The length headers of strings are big-endian: the high
    bits come first. *)
Theorem wire_byte_order :
  (forall (v enc : Z) (k : nat),
      In enc [ZIP_INT_8B; ZIP_INT_16B; ZIP_INT_24B; ZIP_INT_32B; ZIP_INT_64B] ->
      Z.of_nat k < zipIntSize enc ->
      nth k (zipSaveInteger_buf v enc) 0 = (v / 256 ^ Z.of_nat k) mod 256) /\
  (forall l : Z,
      ZIP_BIGLEN <= l ->
      zipPrevEncodeLength_buf l
      = [ZIP_BIGLEN; l mod 256; (l / 256) mod 256; (l / 256 ^ 2) mod 256;
         (l / 256 ^ 3) mod 256]) /\
  (forall n : Z,
      0x3f < n <= 0x3fff ->
      zipEncodeLength_buf ZIP_STR_14B n = [0x40 + n / 256; n mod 256]) /\
  (forall n : Z,
      0x3fff < n ->
      zipEncodeLength_buf ZIP_STR_32B n
      = [0x80; (n / 256 ^ 3) mod 256; (n / 256 ^ 2) mod 256;
         (n / 256) mod 256; n mod 256]).
Proof.
  repeat split.
  - intros v enc k Henc Hk. cbn [In] in Henc.
    destruct Henc as [ <- | [ <- | [ <- | [ <- | [ <- | [] ] ] ] ] ].
    + change (zipSaveInteger_buf v ZIP_INT_8B) with (le_bytes 1 (sint 8 v)).
      rewrite (le_bytes_sint 1 8) by reflexivity.
      apply le_bytes_nth. change (zipIntSize ZIP_INT_8B) with 1 in Hk. lia.
    + change (zipSaveInteger_buf v ZIP_INT_16B) with (le_bytes 2 (sint 16 v)).
      rewrite (le_bytes_sint 2 16) by reflexivity.
      apply le_bytes_nth. change (zipIntSize ZIP_INT_16B) with 2 in Hk. lia.
    + rewrite zipSaveInteger_buf_24B.
      apply le_bytes_nth. change (zipIntSize ZIP_INT_24B) with 3 in Hk. lia.
    + change (zipSaveInteger_buf v ZIP_INT_32B) with (le_bytes 4 (sint 32 v)).
      rewrite (le_bytes_sint 4 32) by reflexivity.
      apply le_bytes_nth. change (zipIntSize ZIP_INT_32B) with 4 in Hk. lia.
    + change (zipSaveInteger_buf v ZIP_INT_64B) with (le_bytes 8 (sint 64 v)).
      rewrite (le_bytes_sint 8 64) by reflexivity.
      apply le_bytes_nth. change (zipIntSize ZIP_INT_64B) with 8 in Hk. lia.
  - intros l Hl. unfold zipPrevEncodeLength_buf.
    destruct (Z.ltb_spec l ZIP_BIGLEN); [ lia | ].
    cbn [le_bytes]. rewrite !Z.div_div by lia. reflexivity.
  - intros n Hn.
    rewrite (zipEncodeLength_buf_str ZIP_STR_14B) by reflexivity.
    now apply zipEncodeLength_buf_14B.
  - intros n Hn.
    rewrite (zipEncodeLength_buf_str ZIP_STR_32B) by reflexivity.
    rewrite zipEncodeLength_buf_32B by exact Hn.
    cbn [le_bytes rev app]. rewrite !Z.div_div by lia. reflexivity.
Qed.

Lemma wire_byte_order_witness :
  nth 1 (zipSaveInteger_buf (-2) ZIP_INT_16B) 0
  = (-2 / 256 ^ Z.of_nat 1) mod 256.
Proof.
  apply (proj1 wire_byte_order (-2) ZIP_INT_16B 1%nat).
  - cbn [In]. tauto.
  - reflexivity.
Defined.

(** * The bytes of a new entry *)

(** The length [prevlen] that [__ziplistInsert] takes for the entry before
    the new one. *)
Definition insert_prevlen (zl : blob) (q : Z) : Z :=
  if negb (rd zl q =? ZIP_END) then snd (ZIP_DECODE_PREVLEN zl q)
  else
    let ptail := ZIPLIST_ENTRY_TAIL zl in
    if negb (rd zl ptail =? ZIP_END) then zipRawEntryLength zl ptail
    else 0.

Lemma insert_prevlen_ok (c : Z) (es1 es2 : list entry) :
  ziplist_ok c (es1 ++ es2) ->
  insert_prevlen (ziplist_of c (es1 ++ es2)) (10 + sum_len es1)
  = plast 0 es1.
Proof.
  intros Hok. unfold insert_prevlen.
  set (es := es1 ++ es2) in *.
  assert (Hq : entry_off es (length es1) = 10 + sum_len es1)
    by apply entry_off_app.
  destruct es2 as [ | e r ].
  - subst es. rewrite app_nil_r in *.
    rewrite <- Hq, (ok_end c es1 Hok). cbn [negb].
    unfold ZIPLIST_ENTRY_TAIL. rewrite (ok_tail c es1 Hok).
    destruct es1 as [ | x es1' ] using rev_ind.
    + assert (He := ok_end c [] Hok). cbn [length pred] in *. rewrite He.
      reflexivity.
    + clear IHes1'. rewrite length_app, Nat.add_comm.
      cbn [length Nat.add pred].
      rewrite (ok_not_end c _ Hok), (ok_rawlen c _ Hok)
        by (rewrite length_app; cbn [length]; lia).
      cbn [negb]. rewrite app_nth2, Nat.sub_diag by lia. cbn [nth].
      now rewrite plast_snoc.
  - rewrite <- Hq.
    assert (Hk : (length es1 < length es)%nat)
      by (subst es; rewrite length_app; cbn [length]; lia).
    rewrite (ok_not_end c es Hok), (ok_prevlen c es Hok) by exact Hk.
    cbn [negb snd]. unfold entry_prev, es.
    now rewrite firstn_app_exact.
Qed.

(** X12: An insert writes, at the pointer it is given, the [prevlen] field and
    then the stored form of the value: the value as an integer in the first
    kind that holds it, in the order imm4, i8, i16, i24, i32, i64, when it
    has 1 to 31 bytes that [string2ll] reads as an integer, and as a string
    under the smallest length header otherwise.  The pointer is the head or
    the end of the list, as [ziplistPush] takes it, or an entry. *)
Theorem ziplistInsert_bytes (string2ll : list Z -> option Z) (zl : blob)
    (q : Z) (s : list Z) :
  well_formed zl ->
  q = ZIPLIST_ENTRY_HEAD zl \/ q = ZIPLIST_ENTRY_END zl \/
  (exists i, ziplistIndex zl i = Some (Some q)) ->
  3 * zlen zl + zlen s < 2 ^ 32 ->
  insert_guarded string2ll zl q s ->
  let bytes := zipPrevEncodeLength_buf (insert_prevlen zl q)
               ++ stored_bytes (spec_stored string2ll s) in
  exists zl',
    ziplistInsert string2ll zl q s = Some zl' /\
    sub zl' q (zlen bytes) = bytes.
Proof.
  intros (c & es & -> & Hok) Hq Hfit Hg bytes.
  assert (Hk : exists k, (k <= length es)%nat /\ q = entry_off es k).
  { destruct Hq as [ -> | [ -> | (i & Hidx) ] ].
    - exists 0%nat. split; [ lia | ]. unfold ZIPLIST_ENTRY_HEAD.
      now rewrite entry_off_0.
    - exists (length es). split; [ lia | ]. now apply ZIPLIST_ENTRY_END_off.
    - destruct (ziplistIndex_entry c es i q Hok Hidx) as (k & Hk & ->).
      exists k. split; [ lia | reflexivity ]. }
  destruct Hk as (k & Hk & ->).
  destruct (insert_explicit string2ll c es k s Hok Hfit Hg) as (Hins & Hok').
  set (new := new_entry string2ll (plast 0 (firstn k es)) s) in *.
  set (es' := firstn k es ++ new :: refit (elen new) (skipn k es)) in *.
  set (c' := if c <? UINT16_MAX then c + 1 else c) in *.
  exists (ziplist_of c' es'). split; [ exact Hins | ].
  assert (Hlen : length (firstn k es) = k) by (rewrite length_firstn; lia).
  assert (Hk' : (k < length es')%nat)
    by (unfold es'; rewrite length_app; cbn [length]; lia).
  assert (Hoff : entry_off es' k = entry_off es k).
  { replace (entry_off es' k) with (entry_off es' (length (firstn k es)))
      by now rewrite Hlen.
    unfold es'. rewrite entry_off_app. reflexivity. }
  assert (Hprev : insert_prevlen (ziplist_of c es) (entry_off es k)
                  = plast 0 (firstn k es)).
  { assert (H := insert_prevlen_ok c (firstn k es) (skipn k es)).
    rewrite firstn_skipn in H. exact (H Hok). }
  assert (Hbytes : bytes = entry_bytes (entry_prev es' k) (nth k es' dummy)).
  { subst bytes. rewrite Hprev, zipPrevEncodeLength_buf_field.
    unfold es' at 2. rewrite app_nth2, Hlen, Nat.sub_diag by lia. cbn [nth].
    unfold entry_prev, es'. rewrite firstn_app_exact by (symmetry; exact Hlen).
    unfold entry_bytes, new, new_entry. cbn [large body].
    rewrite entry_body_stored by lia. reflexivity. }
  destruct (ziplist_of_entry_at c' es' k Hk') as (pre & rest & Hzl & Hpre).
  rewrite <- Hbytes in Hzl.
  apply (sub_exact _ pre bytes rest); auto. now rewrite <- Hoff.
Qed.

Lemma ziplistInsert_bytes_witness :
  well_formed (ziplist_of 2 two_entries) /\
  exists zl',
    ziplistInsert string2ll_spec (ziplist_of 2 two_entries) 16
                  [45; 49; 50; 57] = Some zl' /\
    sub zl' 16 4 = [2; 0xc0; 0x7f; 0xff].
Proof.
  split; [ exact two_entries_well_formed | ].
  destruct (ziplistInsert_bytes string2ll_spec (ziplist_of 2 two_entries) 16
              [45; 49; 50; 57] two_entries_well_formed)
    as (zl' & H1 & H2).
  - right. left. reflexivity.
  - vm_compute. reflexivity.
  - intros Hne _. exfalso. apply Hne. reflexivity.
  - exists zl'. split; [ exact H1 | ]. exact H2.
Defined.

(** * What the writers leave alone *)

Lemma rd_memcpy_other (zl : blob) (q j : Z) (bs : list Z) :
  0 <= q -> q + zlen bs <= zlen zl -> 0 <= j ->
  j < q \/ q + zlen bs <= j ->
  rd (memcpy zl q bs) j = rd zl j.
Proof.
  intros Hq Hl Hj Hout.
  destruct (memcpy_split zl q bs Hq Hl) as (Hm & Hpre). rewrite Hm.
  unfold rd. destruct Hout as [ Hlt | Hge ].
  - rewrite app_nth1 by lia. rewrite nth_firstn.
    destruct (Nat.ltb_spec (Z.to_nat j) (Z.to_nat q)); [ reflexivity | lia ].
  - rewrite app_nth2 by lia. rewrite app_nth2 by lia.
    rewrite nth_skipn. f_equal. rewrite length_firstn. lia.
Qed.

(** X13: The three writers of an entry write their bytes and nothing else: the
    size of the blob stays, and so does every byte outside of the bytes
    that the writer reports as written. *)
Theorem writers_frame (zl : blob) (q j : Z) :
  0 <= q -> 0 <= j ->
  (forall v enc,
      q + zipIntSize enc <= zlen zl ->
      j < q \/ q + zipIntSize enc <= j ->
      length (zipSaveInteger zl q v enc) = length zl /\
      rd (zipSaveInteger zl q v enc) j = rd zl j) /\
  (forall enc n,
      let zl' := fst (zipEncodeLength zl (Some q) enc n) in
      let size := snd (zipEncodeLength zl (Some q) enc n) in
      q + size <= zlen zl ->
      j < q \/ q + size <= j ->
      length zl' = length zl /\ rd zl' j = rd zl j) /\
  (forall l,
      let zl' := fst (zipPrevEncodeLength zl (Some q) l) in
      let size := snd (zipPrevEncodeLength zl (Some q) l) in
      q + size <= zlen zl ->
      j < q \/ q + size <= j ->
      length zl' = length zl /\ rd zl' j = rd zl j) /\
  (forall l,
      q + 5 <= zlen zl ->
      j < q \/ q + 5 <= j ->
      length (zipPrevEncodeLengthForceLarge zl q l) = length zl /\
      rd (zipPrevEncodeLengthForceLarge zl q l) j = rd zl j).
Proof.
  intros Hq Hj. repeat split.
  - apply memcpy_length.
  - unfold zipSaveInteger. apply rd_memcpy_other; auto;
      rewrite zipSaveInteger_buf_length; auto.
  - apply memcpy_length.
  - cbn [zipEncodeLength fst snd] in *. now apply rd_memcpy_other.
  - apply memcpy_length.
  - cbn [zipPrevEncodeLength fst snd] in *.
    assert (Hsz : zlen (zipPrevEncodeLength_buf l) = zipPrevEncodeLength_size l).
    { unfold zipPrevEncodeLength_buf, zipPrevEncodeLength_size.
      destruct (l <? ZIP_BIGLEN); reflexivity. }
    apply rd_memcpy_other; auto; rewrite Hsz; auto.
  - apply memcpy_length.
  - unfold zipPrevEncodeLengthForceLarge.
    apply rd_memcpy_other; auto; cbn [length];
      rewrite le_bytes_length; lia.
Qed.

Lemma writers_frame_witness :
  rd (zipSaveInteger (repeat 7 8%nat) 2 (-70000) ZIP_INT_24B) 5
  = rd (repeat 7 8%nat) 5.
Proof.
  apply (writers_frame (repeat 7 8%nat) 2 5 ltac:(lia) ltac:(lia)).
  - cbn [repeat length]. change (zipIntSize ZIP_INT_24B) with 3. lia.
  - right. change (zipIntSize ZIP_INT_24B) with 3. lia.
Defined.
